(** * Paracord federation validation scripts: embedding and properties

    Shallow embedding of the test-side logic of
      - scripts/security_gate_check.py
      - scripts/federation_e2e_validation.py
      - scripts/federation_live_fundamentals_validation.py

    Conventions.
    - Time is counted in milliseconds and kept in [Z]; the scripts' float
      seconds (30.0, 0.5, 0.4, 0.7, ...) are all whole numbers of
      milliseconds, and float rounding is not modelled.
    - A Python call that may raise returns an [outcome]; [exn] stands for
      instances of Python's [Exception] (what [except Exception] catches).
    - Effects are threaded explicitly: the clock, the socket's inbox and the
      frames written to it live in a world value passed through each call. *)

From Stdlib Require Import ZArith List String Ascii Bool Lia.
From Stdlib Require Import Sorted Permutation.
From Stdlib Require DecimalString DecimalZ DecimalFacts.
Import ListNotations.
Local Open Scope string_scope.
Local Open Scope Z_scope.

(** ** Decoded JSON values, as [json.loads] builds them

    Numbers are Python ints; floating-point numbers are left out. *)

#[warnings="-register-all"] Inductive json : Type :=
| JNull
| JBool (b : bool)
| JNum (n : Z)
| JStr (s : string)
| JList (xs : list json)
| JDict (kvs : list (string * json)).

Definition dict : Type := list (string * json).

(** [d.get(k, default)] *)
Fixpoint dict_get (d : dict) (k : string) (default : json) : json :=
  match d with
  | [] => default
  | (k', v) :: d' => if String.eqb k' k then v else dict_get d' k default
  end.

(** [v == n] for an int [n]: bools compare as 0 and 1. *)
Definition py_eq_int (v : json) (n : Z) : bool :=
  match v with
  | JNum m => m =? n
  | JBool b => (if b then 1 else 0) =? n
  | _ => false
  end.

(** [v == s] for a str [s]. *)
Definition py_eq_str (v : json) (s : string) : bool :=
  match v with
  | JStr s' => String.eqb s' s
  | _ => false
  end.

(** ** Python exceptions and call outcomes

    A message is kept as the pieces of its f-string: literal text, and
    interpolated values that Python would print with [str()]. *)

Inductive fragment : Type :=
| Text (s : string)
| Shown (v : json).

Inductive exn_class : Type :=
| RuntimeError
| TimeoutError
| AssertionError
| TypeError
| ValueError
| WebSocketTimeoutException
| WebSocketConnectionClosedException
| OtherException (name : string).

Record exn : Type := mkExn { exn_cls : exn_class; exn_msg : list fragment }.

Inductive outcome (A : Type) : Type :=
| Ok (a : A)
| Raise (e : exn).
Arguments Ok {A} a.
Arguments Raise {A} e.

Definition is_ok {A} (o : outcome A) : bool :=
  match o with Ok _ => true | Raise _ => false end.

(** [try: c except Exception: h] *)
Definition try_except {A} (c : outcome A) (h : exn -> outcome A) : outcome A :=
  match c with
  | Ok a => Ok a
  | Raise e => h e
  end.

(** ** scripts/security_gate_check.py *)

Module SecurityGate.

(** The tracker file: [None] when TRACKER_PATH does not exist, otherwise the
    lines of its text ([read_text().splitlines()]). *)
Definition tracker := option (list string).

(** A function body runs statement by statement until one of them returns. *)
Inductive flow : Type :=
| Running (stdout : list string)
| Returned (code : Z) (stdout : list string).

Definition stmt := list string -> flow.

Definition return_ (code : Z) : stmt := fun out => Returned code out.
Definition print (line : string) : stmt := fun out => Running (out ++ [line]).
Definition pass : stmt := fun out => Running out.

Definition seq (s1 s2 : stmt) : stmt :=
  fun out =>
    match s1 out with
    | Running out' => s2 out'
    | Returned code out' => Returned code out'
    end.
Infix ";;" := seq (at level 61, right associativity).

Fixpoint for_each {A} (xs : list A) (body : A -> stmt) : stmt :=
  match xs with
  | [] => pass
  | x :: xs' => body x ;; for_each xs' body
  end.

(** Falling off the end of a Python function returns None; [sys.exit(None)]
    exits with status 0. *)
Definition exit_code (f : flow) : Z :=
  match f with
  | Running _ => 0
  | Returned code _ => code
  end.

Definition printed (f : flow) : list string :=
  match f with
  | Running out => out
  | Returned _ out => out
  end.

(** *** ROW_RE, matched at the start of a line (ASCII lines) *)

Fixpoint strip_prefix (p s : string) : option string :=
  match p with
  | EmptyString => Some s
  | String a p' =>
      match s with
      | EmptyString => None
      | String b s' => if Ascii.eqb a b then strip_prefix p' s' else None
      end
  end.

Definition is_digit (c : ascii) : bool :=
  let n := nat_of_ascii c in (48 <=? n)%nat && (n <=? 57)%nat.

Definition is_pipe (c : ascii) : bool := Ascii.eqb c "|"%char.

(** Longest prefix without a pipe, and what follows it. *)
Fixpoint span_no_pipe (s : string) : string * string :=
  match s with
  | EmptyString => (EmptyString, EmptyString)
  | String c s' =>
      if is_pipe c then (EmptyString, s)
      else let (r, rest) := span_no_pipe s' in (String c r, rest)
  end.

Fixpoint last_char (s : string) : option ascii :=
  match s with
  | EmptyString => None
  | String c EmptyString => Some c
  | String _ s' => last_char s'
  end.

(** [[^|]+ \| ]: the greedy run of non-pipe characters has to give its last
    character back to the literal space, and keep at least one. *)
Definition match_cell (s : string) : option string :=
  let (r, rest) := span_no_pipe s in
  if (2 <=? String.length r)%nat then
    match last_char r with
    | Some " "%char => strip_prefix "| " rest
    | _ => None
    end
  else None.

(** [(P0-\d{2})] *)
Definition match_task_id (s : string) : option (string * string) :=
  match strip_prefix "P0-" s with
  | Some (String d1 (String d2 rest)) =>
      if is_digit d1 && is_digit d2
      then Some ("P0-" ++ String d1 (String d2 EmptyString), rest)
      else None
  | _ => None
  end.

(** [(OPEN|IN_PROGRESS|BLOCKED) \|], alternatives tried left to right. *)
Fixpoint match_status (alts : list string) (s : string) : option string :=
  match alts with
  | [] => None
  | a :: alts' =>
      match strip_prefix (a ++ " |") s with
      | Some _ => Some a
      | None => match_status alts' s
      end
  end.

Definition bind_opt {A B} (o : option A) (k : A -> option B) : option B :=
  match o with Some a => k a | None => None end.

(** [ROW_RE.match(line)]: the two groups when the line matches. *)
Definition ROW_RE_match (line : string) : option (string * string) :=
  bind_opt (strip_prefix "| " line) (fun s0 =>
  bind_opt (match_task_id s0) (fun '(task_id, s1) =>
  bind_opt (strip_prefix " | " s1) (fun s2 =>
  bind_opt (match_cell s2) (fun s3 =>
  bind_opt (match_cell s3) (fun s4 =>
  bind_opt (match_cell s4) (fun s5 =>
  bind_opt (match_status ["OPEN"; "IN_PROGRESS"; "BLOCKED"] s5) (fun status =>
  Some (task_id, status)))))))).

Fixpoint collect_blocked (lines : list string) : list (string * string) :=
  match lines with
  | [] => []
  | line :: rest =>
      match ROW_RE_match line with
      | Some row => row :: collect_blocked rest
      | None => collect_blocked rest
      end
  end.

(** Lines 14-31 of main: everything below its first statement. *)
Definition gate_body (t : tracker) : stmt :=
  match t with
  | None =>
      print "Missing SECURITY_REMEDIATION_TRACKER.md" ;; return_ 1
  | Some lines =>
      let blocked := collect_blocked lines in
      (match blocked with
       | [] => pass
       | _ :: _ =>
           print "Release gate failed: one or more P0 tasks are not DONE." ;;
           for_each blocked (fun '(task_id, status) =>
             print ("- " ++ task_id ++ ": " ++ status)) ;;
           return_ 1
       end) ;;
      print "Security release gate passed: all P0 tasks are DONE." ;;
      return_ 0
  end.

(** [def main() -> int]: line 13 is [return 0], then the gate. *)
Definition main (t : tracker) : flow :=
  (return_ 0 ;; gate_body t) [].

(** A tracker with one P0 row still open. *)
Definition tracker_with_open_row : tracker :=
  Some [ "| ID | Task | Owner | Due | Status |";
         "|----|------|-------|-----|--------|";
         "| P0-01 | Rotate signing keys | alice | 2026-01-01 | DONE |";
         "| P0-02 | Fix auth bypass | bob | 2026-01-02 | OPEN |" ].

(** A table cell as [[^|]+] followed by [ \| ] sees it: at least one
    character, none of them a pipe. *)
Fixpoint no_pipe (s : string) : bool :=
  match s with
  | EmptyString => true
  | String c s' => negb (is_pipe c) && no_pipe s'
  end.

Definition cell (s : string) : Prop := s <> EmptyString /\ no_pipe s = true.

(** The text of a tracker row for task P0-[d1][d2] with three cells and a
    status, followed by anything. *)
Definition row (d1 d2 : ascii) (c1 c2 c3 status rest : string) : string :=
  "| P0-" ++ String d1 (String d2
    (" | " ++ c1 ++ " | " ++ c2 ++ " | " ++ c3 ++ " | " ++ status ++ " |" ++ rest)).

Definition task_id (d1 d2 : ascii) : string :=
  "P0-" ++ String d1 (String d2 EmptyString).

(** Text of ASCII characters only.  On such text a Python str and this
    model's strings agree character by character, and [\d] matches the
    digits 0-9 and nothing else. *)
Fixpoint is_ascii (s : string) : bool :=
  match s with
  | EmptyString => true
  | String c s' => (nat_of_ascii c <? 128)%nat && is_ascii s'
  end.

(** A tracker file of ASCII text, or none. *)
Definition ascii_tracker (t : tracker) : Prop :=
  match t with
  | None => True
  | Some lines => Forall (fun line => is_ascii line = true) lines
  end.

(** A line that ROW_RE reports. *)
Definition open_row (line : string) : Prop :=
  exists d1 d2 c1 c2 c3 status rest,
    is_digit d1 = true /\ is_digit d2 = true
    /\ cell c1 /\ cell c2 /\ cell c3
    /\ In status ["OPEN"; "IN_PROGRESS"; "BLOCKED"]
    /\ line = row d1 d2 c1 c2 c3 status rest.

End SecurityGate.

(** ** The eventual-consistency poller: wait_until *)

Module Poller.

(** What the polled condition and the operating system do, as functions of
    the clock reading at which they are asked. *)
Record env : Type := mkEnv {
  fn_result : Z -> outcome bool;  (* fn() called at clock reading t *)
  fn_cost : Z -> nat;             (* milliseconds that call takes *)
  sleep_lag : Z -> nat            (* overshoot of a time.sleep begun at t *)
}.

(** [time.sleep(d)] begun at [t] ends at: *)
Definition sleep (e : env) (d t : Z) : Z := t + d + Z.of_nat (sleep_lag e t).

(** The clock after [fn()] was called at [t]. *)
Definition after_fn (e : env) (t : Z) : Z := t + Z.of_nat (fn_cost e t).

Definition timeout_message (desc : string) : list fragment :=
  [Text "Timed out waiting for: "; Text desc].

Definition timeout_message_with (desc : string) (last_error : exn) : list fragment :=
  [Text "Timed out waiting for: "; Text desc; Text " (last error: "]
  ++ exn_msg last_error ++ [Text ")"].

(** Loop iterations: every pass sleeps at least [tick] ms, so
    [span / tick + 1] passes bring any clock past a deadline [span] away. *)
Definition passes (tick span : Z) : nat := Z.to_nat (span / tick + 1).

(** federation_e2e_validation.py, lines 161-170.  The result carries the
    clock at exit; [None] only if the fuel ran out. *)
Module E2E.

Definition tick : Z := 500.

Fixpoint poll (fuel : nat) (e : env) (desc : string) (deadline t : Z)
  : option (outcome unit * Z) :=
  if t <? deadline then
    match fuel with
    | O => None
    | S fuel' =>
        match fn_result e t with
        | Ok true => Some (Ok tt, after_fn e t)
        | Ok false | Raise _ => poll fuel' e desc deadline (sleep e tick (after_fn e t))
        end
    end
  else Some (Raise (mkExn TimeoutError (timeout_message desc)), t).

Definition wait_until (e : env) (desc : string) (timeout_s t0 : Z)
  : option (outcome unit * Z) :=
  let deadline := t0 + timeout_s in
  poll (passes tick timeout_s) e desc deadline t0.

End E2E.

(** federation_live_fundamentals_validation.py, lines 223-235. *)
Module Live.

Definition tick : Z := 400.

Fixpoint poll (fuel : nat) (e : env) (desc : string) (deadline : Z)
  (last_error : option exn) (t : Z) : option (outcome unit * Z) :=
  if t <? deadline then
    match fuel with
    | O => None
    | S fuel' =>
        match fn_result e t with
        | Ok true => Some (Ok tt, after_fn e t)
        | Ok false =>
            poll fuel' e desc deadline last_error (sleep e tick (after_fn e t))
        | Raise exc =>
            poll fuel' e desc deadline (Some exc) (sleep e tick (after_fn e t))
        end
    end
  else
    match last_error with
    | Some exc => Some (Raise (mkExn TimeoutError (timeout_message_with desc exc)), t)
    | None => Some (Raise (mkExn TimeoutError (timeout_message desc)), t)
    end.

Definition wait_until (e : env) (desc : string) (timeout_s t0 : Z)
  : option (outcome unit * Z) :=
  let deadline := t0 + timeout_s in
  poll (passes tick timeout_s) e desc deadline None t0.

End Live.

(** A condition that is false strictly before [t0 + T] and true from then on. *)
Definition turns_true_at (e : env) (t0 T : Z) : Prop :=
  forall t, fn_result e t = Ok (T <=? t - t0).

(** Evaluating the condition and sleeping never take more than [J] extra
    milliseconds per pass. *)
Definition jitter_le (e : env) (J : Z) : Prop :=
  forall t, Z.of_nat (fn_cost e t) + Z.of_nat (sleep_lag e (after_fn e t)) <= J.

(** The ideal environment: instantaneous evaluation, exact sleeps. *)
Definition step_env (t0 T : Z) : env :=
  mkEnv (fun t => Ok (T <=? t - t0)) (fun _ => O) (fun _ => O).

Definition raising_env (exc : exn) : env :=
  mkEnv (fun _ => Raise exc) (fun _ => O) (fun _ => O).

(** The environment in which every poll raises, [g t] at clock reading [t]. *)
Definition always_raising (g : Z -> exn) (cost lag : Z -> nat) : env :=
  mkEnv (fun t => Raise (g t)) cost lag.

(** [e] with every exception of the condition replaced by the answer False. *)
Definition quiet (e : env) : env :=
  mkEnv (fun t => match fn_result e t with
                  | Ok b => Ok b
                  | Raise _ => Ok false
                  end)
        (fn_cost e) (sleep_lag e).

(** How a call ended and when, leaving the text of the exception aside. *)
Definition verdict (r : option (outcome unit * Z)) : option (bool * Z) :=
  match r with
  | Some (o, t) => Some (is_ok o, t)
  | None => None
  end.

(** The clock readings at which the loop test [time.time() < deadline] is
    evaluated while the loop goes on: the call, then the end of each pause. *)
Fixpoint instant (tick : Z) (e : env) (t0 : Z) (n : nat) : Z :=
  match n with
  | O => t0
  | S k => sleep e tick (after_fn e (instant tick e t0 k))
  end.

(** The first [n] polls were all made before the deadline and none of them
    answered True. *)
Definition fruitless (tick : Z) (e : env) (t0 deadline : Z) (n : nat) : Prop :=
  forall k, (k < n)%nat ->
    instant tick e t0 k < deadline
    /\ fn_result e (instant tick e t0 k) <> Ok true.

(** The exception of the most recent of the first [n] polls that raised. *)
Fixpoint last_raised (tick : Z) (e : env) (t0 : Z) (n : nat) : option exn :=
  match n with
  | O => None
  | S k =>
      match fn_result e (instant tick e t0 k) with
      | Raise exc => Some exc
      | Ok _ => last_raised tick e t0 k
      end
  end.

End Poller.

(** ** The state inspector and the orchestrator's final checks *)

Module Inspector.

(** One row of [federation_delivery_attempts]; the sender is the node whose
    database holds the row. *)
Record delivery_attempt : Type := mkAttempt {
  event_id : string;
  destination_server : string
}.

(** One row of [federated_servers]. *)
Record federated_server : Type := mkServer {
  server_name : string;
  trusted : bool
}.

(** The tables of one node's paracord.db that the checks read. *)
Record node_db : Type := mkDb {
  federation_delivery_attempts : list delivery_attempt;
  federation_events : list string;          (* event_id column *)
  federated_servers : list federated_server
}.

Definition node_b : string := "node-b.test".
Definition node_c : string := "node-c.test".

(** [SELECT COUNT( * ) FROM federation_delivery_attempts
     WHERE event_id = ? AND destination_server = ?] *)
Definition count_attempts (db : node_db) (ev dest : string) : Z :=
  Z.of_nat (List.length (filter
    (fun r => String.eqb (event_id r) ev && String.eqb (destination_server r) dest)
    (federation_delivery_attempts db))).

(** [SELECT COUNT( * ) FROM federation_events WHERE event_id = ?] *)
Definition count_events (db : node_db) (ev : string) : Z :=
  Z.of_nat (List.length (filter (fun e => String.eqb e ev) (federation_events db))).

(** [SELECT server_name FROM federated_servers WHERE trusted = TRUE] *)
Definition trusted_names (db : node_db) : list string :=
  map server_name (filter trusted (federated_servers db)).

(** [ORDER BY server_name], byte order. *)
Fixpoint insert_sorted (x : string) (l : list string) : list string :=
  match l with
  | [] => [x]
  | y :: l' => if String.leb x y then x :: l else y :: insert_sorted x l'
  end.

Definition order_by_name (l : list string) : list string :=
  fold_right insert_sorted [] l.

Definition list_string_eqb (l1 l2 : list string) : bool :=
  if list_eq_dec String.string_dec l1 l2 then true else false.

Definition assertion_error (m : list fragment) : exn := mkExn AssertionError m.

(** What the three databases say about one event bound for node C. *)
Definition direct_attempt (a_db : node_db) (ev : string) : Prop :=
  exists r, In r (federation_delivery_attempts a_db)
            /\ event_id r = ev /\ destination_server r = node_c.

Definition relay_attempt (b_db : node_db) (ev : string) : Prop :=
  exists r, In r (federation_delivery_attempts b_db)
            /\ event_id r = ev /\ destination_server r = node_c.

Definition ingested (c_db : node_db) (ev : string) : Prop :=
  In ev (federation_events c_db).

(** federation_e2e_validation.py *)
Module E2E.

(** lines 363-379 *)
Definition relay_check (a_db b_db c_db : node_db) (origin_event_id : string)
  : outcome unit :=
  let a_to_c := count_attempts a_db origin_event_id node_c in
  let b_to_c := count_attempts b_db origin_event_id node_c in
  let c_has_event := count_events c_db origin_event_id in
  if negb (a_to_c =? 0) then
    Raise (assertion_error [Text "A unexpectedly delivered message directly to C"])
  else if (b_to_c <=? 0) || (c_has_event <=? 0) then
    Raise (assertion_error
             [Text "Relay evidence missing: expected B->C delivery and C event"])
  else Ok tt.

(** lines 525-531 *)
Definition trust_check (a_db : node_db) : outcome unit :=
  let peer_names := order_by_name (trusted_names a_db) in
  if negb (list_string_eqb peer_names [node_b]) then
    Raise (assertion_error
             [Text "Unexpected A trusted peers: "; Shown (JList (map JStr peer_names))])
  else Ok tt.

End E2E.

(** federation_live_fundamentals_validation.py *)
Module Live.

(** lines 798-814 *)
Definition relay_check (a_db b_db c_db : node_db) (origin_event_id : string)
  : outcome unit :=
  let a_to_c := count_attempts a_db origin_event_id node_c in
  let b_to_c := count_attempts b_db origin_event_id node_c in
  let c_has_event := count_events c_db origin_event_id in
  if c_has_event <=? 0 then
    Raise (assertion_error [Text "C did not ingest A-origin event"])
  else if (a_to_c <=? 0) && (b_to_c <=? 0) then
    Raise (assertion_error [Text "No delivery attempt to C observed from A or B"])
  else Ok tt.

(** lines 1314-1320 *)
Definition trust_check (a_db : node_db) : outcome unit :=
  let peer_names := trusted_names a_db in
  if negb (existsb (String.eqb node_b) peer_names) then
    Raise (assertion_error
             [Text "A is missing trusted peer "; Text node_b; Text ": ";
              Shown (JList (map JStr peer_names))])
  else Ok tt.

End Live.

(** Sample databases: an event that B relayed to C and C ingested, and that
    A also sent to C directly. *)
Definition ev1 : string := "$42:node-a.test".

Definition a_db_direct : node_db :=
  mkDb [mkAttempt ev1 node_b; mkAttempt ev1 node_c] []
       [mkServer node_b true].

Definition b_db_relay : node_db :=
  mkDb [mkAttempt ev1 node_c] [ev1] [].

Definition c_db_ingested : node_db :=
  mkDb [] [ev1] [].

(** Node A trusting C as well as B. *)
Definition a_db_two_peers : node_db :=
  mkDb [] [] [mkServer node_b true; mkServer node_c true].

(** The same rows as [a_db_two_peers] in another order, next to a peer that
    is known but not trusted. *)
Definition a_db_two_peers_shuffled : node_db :=
  mkDb [] [] [mkServer node_c true; mkServer "node-d.test" false; mkServer node_b true].

End Inspector.

(** ** The database queries of the wait conditions *)

(** [str(n)] for an int [n]: its decimal text. *)
Definition py_str_int (n : Z) : string :=
  DecimalString.NilZero.string_of_int (Z.to_int n).

Module Store.

(** The columns that the queries read, one record per table.  Integer columns
    hold integers and text columns text; NULLs are left out. *)
Record message_map : Type := mkMap {
  origin_server : string;
  remote_message_id : string;
  local_message_id : Z
}.

Record message : Type := mkMessage {
  message_id : Z;
  content : string
}.

Record remote_user : Type := mkRemoteUser {
  remote_user_id : string;
  local_user_id : Z
}.

Record member : Type := mkMember {
  user_id : Z;
  guild_id : Z
}.

Record poll : Type := mkPoll {
  poll_id : Z;
  channel_id : Z;
  created_at : Z
}.

Record db : Type := mkDb {
  federation_message_map : list message_map;
  messages : list message;
  federation_remote_users : list remote_user;
  members : list member;
  polls : list poll
}.

(** [cursor.fetchone()]: the first row of the result, or None. *)
Definition fetchone {A} (rows : list A) : option A := hd_error rows.

(** [SELECT COUNT( * ) FROM t WHERE ...] *)
Definition count {A} (where_ : A -> bool) (t : list A) : Z :=
  Z.of_nat (List.length (filter where_ t)).

(** [FROM federation_message_map
     WHERE origin_server = ? AND remote_message_id = ?], the second parameter
    being [str(remote_message_id)]. *)
Definition mapped_rows (d : db) (origin : string) (remote_id : Z) : list message_map :=
  filter (fun fm => String.eqb (origin_server fm) origin
                    && String.eqb (remote_message_id fm) (py_str_int remote_id))
         (federation_message_map d).

(** [SELECT m.content FROM federation_message_map fm
     JOIN messages m ON m.id = fm.local_message_id WHERE ... LIMIT 1]
    (e2e lines 390-402, live lines 328-340): rows of the join, mapping by
    mapping. *)
Definition mapped_message_content (d : db) (origin : string) (remote_id : Z)
  : option string :=
  match fetchone
          (flat_map (fun fm =>
                       map content
                           (filter (fun m => message_id m =? local_message_id fm)
                                   (messages d)))
                    (mapped_rows d origin remote_id)) with
  | None => None
  | Some c => Some c
  end.

Module E2E.

(** federation_e2e_validation.py, lines 507-519 *)
Definition mapped_message_absent (d : db) (origin : string) (remote_id : Z) : bool :=
  match fetchone (mapped_rows d origin remote_id) with
  | None => true
  | Some mapped =>
      count (fun m => message_id m =? local_message_id mapped) (messages d) =? 0
  end.

End E2E.

Module Live.

(** federation_live_fundamentals_validation.py, lines 343-344 *)
Definition mapped_message_absent (d : db) (origin : string) (remote_id : Z) : bool :=
  match mapped_message_content d origin remote_id with
  | None => true
  | Some _ => false
  end.

End Live.

(** e2e lines 459-471, live lines 361-373 *)
Definition remote_member_present (d : db) (remote_user : string) (guild : Z) : bool :=
  match fetchone (filter (fun u => String.eqb (remote_user_id u) remote_user)
                         (federation_remote_users d)) with
  | None => false
  | Some mapping =>
      0 <? count (fun m => (user_id m =? local_user_id mapping)
                           && (guild_id m =? guild))
                 (members d)
  end.

(** e2e lines 483-495, live lines 376-388 *)
Definition remote_member_absent (d : db) (remote_user : string) (guild : Z) : bool :=
  match fetchone (filter (fun u => String.eqb (remote_user_id u) remote_user)
                         (federation_remote_users d)) with
  | None => false
  | Some mapping =>
      count (fun m => (user_id m =? local_user_id mapping)
                      && (guild_id m =? guild))
            (members d) =? 0
  end.

(** [ORDER BY created_at DESC LIMIT 1]: a row that no other row is newer
    than; among equally new rows, the first of the table. *)
Fixpoint newest (ps : list poll) : option poll :=
  match ps with
  | [] => None
  | p :: ps' =>
      match newest ps' with
      | Some q => if created_at p <? created_at q then Some q else Some p
      | None => Some p
      end
  end.

(** live lines 391-399 *)
Definition latest_poll_id (d : db) (channel : Z) : outcome Z :=
  match newest (filter (fun p => channel_id p =? channel) (polls d)) with
  | None => Raise (mkExn RuntimeError [Text "No poll found after create_poll"])
  | Some row => Ok (poll_id row)
  end.

(** A dump in which message 42 of node A was mapped twice, the first time to
    a local message that is gone. *)
Definition twice_mapped : db :=
  mkDb [mkMap "node-a.test" "42" 7; mkMap "node-a.test" "42" 8]
       [mkMessage 8 "federation e2e message"]
       [] [] [].

End Store.

(** ** assert_member_list_contains *)

Module Members.

Section Str.

(** [str()] of a list or of a dict is the repr of the container.  Its text
    is not modelled; the properties below need its first character only. *)
Variable container_str : json -> string.

(** [str(v)] *)
Definition py_str (v : json) : string :=
  match v with
  | JNull => "None"
  | JBool true => "True"
  | JBool false => "False"
  | JNum n => py_str_int n
  | JStr s => s
  | JList _ | JDict _ => container_str v
  end.

(** federation_live_fundamentals_validation.py, lines 551-558 *)
Definition assert_member_list_contains
  (members_json : list dict) (expected_user_id : Z) (should_exist : bool)
  : outcome unit :=
  let found :=
    existsb (fun m => String.eqb (py_str (dict_get m "user_id" JNull))
                                 (py_str_int expected_user_id))
            members_json in
  if negb (Bool.eqb found should_exist) then
    Raise (mkExn AssertionError
             [Text "Member list assertion failed for user=";
              Shown (JNum expected_user_id);
              Text " should_exist="; Shown (JBool should_exist)])
  else Ok tt.

End Str.

(** What Python guarantees of the repr of a list or a dict. *)
Definition bracketed (container_str : json -> string) : Prop :=
  forall v, exists rest,
    container_str v = String "[" rest \/ container_str v = String "{" rest.

(** The repr of empty containers. *)
Definition empty_container_str (v : json) : string :=
  match v with
  | JDict _ => "{}"
  | _ => "[]"
  end.

(** A member list as the members endpoint returns it, with ids as text. *)
Definition two_members : list dict :=
  [ [("user_id", JStr "7"); ("nick", JNull)];
    [("user_id", JStr "42"); ("nick", JStr "guest1")] ].

End Members.

(** ** The gateway protocol client: class GatewayClient *)

Module Gateway.

(** A decoded frame is a Python object: [obj_id] is its identity, given when
    [json.loads] builds it; [body] is its contents. *)
Record msg : Type := mkMsg { obj_id : nat; body : dict }.

(** [m.get(k)] *)
Definition msg_get (m : msg) (k : string) : json := dict_get (body m) k JNull.

(** What [ws.recv()] meets next on the stream: a frame, given by what
    [json.loads] makes of it ([None] when the text is not JSON); the end of
    the connection; or a failure that [ws.recv()] reports with an exception
    of its own. *)
Inductive arrival : Type :=
| Data (decoded : option json)
| Hangup
| Fault (e : exn).

Inductive socket : Type := Socket.

Record GatewayClient : Type := mkClient {
  name : string;
  url : string;
  token : string;
  ws : option socket;
  heartbeat_interval_s : Z;   (* held in milliseconds *)
  last_heartbeat_at : Z;
  backlog : list msg
}.

(** The session's surroundings: the monotonic clock, the frames on their way
    with their arrival times, the frames written so far with the time of
    writing, whether the connection is up, what [ws.close()] will do, and the
    next free object identity. *)
Record world : Type := mkWorld {
  now : Z;
  inbox : list (Z * arrival);
  outbox : list (Z * json);
  alive : bool;
  close_fault : option exn;
  next_obj : nat
}.

Definition set_ws (v : option socket) (c : GatewayClient) : GatewayClient :=
  mkClient (name c) (url c) (token c) v (heartbeat_interval_s c)
           (last_heartbeat_at c) (backlog c).
Definition set_interval (v : Z) (c : GatewayClient) : GatewayClient :=
  mkClient (name c) (url c) (token c) (ws c) v (last_heartbeat_at c) (backlog c).
Definition set_last (v : Z) (c : GatewayClient) : GatewayClient :=
  mkClient (name c) (url c) (token c) (ws c) (heartbeat_interval_s c) v (backlog c).
Definition set_backlog (v : list msg) (c : GatewayClient) : GatewayClient :=
  mkClient (name c) (url c) (token c) (ws c) (heartbeat_interval_s c)
           (last_heartbeat_at c) v.

(** Methods: the client and the world go in and come out; [None] only when a
    loop's fuel ran out. *)
Definition M (A : Type) : Type :=
  GatewayClient -> world -> option (outcome A * GatewayClient * world).

Definition ret {A} (a : A) : M A := fun c w => Some (Ok a, c, w).
Definition raise {A} (e : exn) : M A := fun c w => Some (Raise e, c, w).

Definition bind {A B} (m : M A) (k : A -> M B) : M B :=
  fun c w =>
    match m c w with
    | None => None
    | Some (Ok a, c', w') => k a c' w'
    | Some (Raise e, c', w') => Some (Raise e, c', w')
    end.

(** Run [m] and hand back how it ended, for a [try] around it. *)
Definition attempt {A} (m : M A) : M (outcome A) :=
  fun c w =>
    match m c w with
    | None => None
    | Some (r, c', w') => Some (Ok r, c', w')
    end.

Notation "x <- m ;; k" := (bind m (fun x => k))
  (at level 61, m at next level, right associativity).
Notation "m ;;; k" := (bind m (fun _ => k))
  (at level 61, right associativity).

Definition self : M GatewayClient := fun c w => Some (Ok c, c, w).
Definition update (f : GatewayClient -> GatewayClient) : M unit :=
  fun c w => Some (Ok tt, f c, w).

(** [time.monotonic()] *)
Definition monotonic : M Z := fun c w => Some (Ok (now w), c, w).

(** [json.loads] builds a fresh dict. *)
Definition new_object (d : dict) : M msg :=
  fun c w =>
    Some (Ok (mkMsg (next_obj w) d), c,
          mkWorld (now w) (inbox w) (outbox w) (alive w) (close_fault w)
                  (S (next_obj w))).

Definition closed_exn : exn := mkExn WebSocketConnectionClosedException [].
Definition timeout_exn : exn := mkExn WebSocketTimeoutException [].

Definition is_timeout (e : exn) : bool :=
  match exn_cls e with WebSocketTimeoutException => true | _ => false end.

Definition is_closed (e : exn) : bool :=
  match exn_cls e with WebSocketConnectionClosedException => true | _ => false end.

(** [ws.send(json.dumps(payload))] *)
Definition ws_send (payload : json) : M unit :=
  fun c w =>
    if alive w then
      Some (Ok tt, c,
            mkWorld (now w) (inbox w) (outbox w ++ [(now w, payload)]) (alive w)
                    (close_fault w) (next_obj w))
    else Some (Raise closed_exn, c, w).

(** [ws.settimeout(timeout); ws.recv()]: the next frame if it is there
    before the timeout runs out. *)
Definition ws_recv (timeout : Z) : M (option json) :=
  fun c w =>
    if alive w then
      match inbox w with
      | (at_, a) :: rest =>
          if at_ <? now w + timeout then
            let t := Z.max (now w) at_ in
            match a with
            | Data decoded =>
                Some (Ok decoded, c,
                      mkWorld t rest (outbox w) true (close_fault w) (next_obj w))
            | Hangup =>
                Some (Raise closed_exn, c,
                      mkWorld t rest (outbox w) false (close_fault w) (next_obj w))
            | Fault e =>
                Some (Raise e, c,
                      mkWorld t rest (outbox w) (negb (is_closed e)) (close_fault w)
                              (next_obj w))
            end
          else
            Some (Raise timeout_exn, c,
                  mkWorld (now w + timeout) (inbox w) (outbox w) true
                          (close_fault w) (next_obj w))
      | [] =>
          Some (Raise timeout_exn, c,
                mkWorld (now w + timeout) [] (outbox w) true
                        (close_fault w) (next_obj w))
      end
    else Some (Raise closed_exn, c, w).

(** [ws.close()] *)
Definition ws_close : M unit :=
  fun c w =>
    let w' := mkWorld (now w) (inbox w) (outbox w) false (close_fault w) (next_obj w) in
    match close_fault w with
    | Some e => Some (Raise e, c, w')
    | None => Some (Ok tt, c, w')
    end.

Definition not_connected (c : GatewayClient) : exn :=
  mkExn RuntimeError [Text (name c); Text ": websocket not connected"].

(** lines 403-410 *)
Definition __init__ (name url token : string) : GatewayClient :=
  mkClient name url token None 41250 0 [].

(** lines 433-439 *)
Definition close : M unit :=
  c <- self ;;
  match ws c with
  | Some _ =>
      r <- attempt ws_close ;;
      (match r with
       | Ok _ => ret tt
       | Raise _ => ret tt       (* except Exception: pass *)
       end) ;;;
      update (set_ws None)
  | None => ret tt
  end.

(** lines 441-444 *)
Definition send (payload : json) : M unit :=
  c <- self ;;
  match ws c with
  | None => raise (not_connected c)
  | Some _ => ws_send payload
  end.

Definition heartbeat_frame : json := JDict [("op", JNum 1); ("d", JNull)].

(** lines 495-504; [now - last >= interval * 0.9] is compared tenfold. *)
Definition _maybe_heartbeat : M unit :=
  c <- self ;;
  match ws c with
  | None => ret tt
  | Some _ =>
      t <- monotonic ;;
      if 9 * heartbeat_interval_s c <=? 10 * (t - last_heartbeat_at c) then
        r <- attempt (send heartbeat_frame) ;;
        match r with
        | Raise _ => ret tt      (* except Exception: return *)
        | Ok _ => update (set_last t)
        end
      else ret tt
  end.

Definition closed_unexpectedly (c : GatewayClient) : exn :=
  mkExn RuntimeError [Text (name c); Text ": websocket closed unexpectedly"].

Definition closed_while_waiting (c : GatewayClient) : exn :=
  mkExn RuntimeError [Text (name c); Text ": websocket closed while waiting for event"].

(** lines 472-493 *)
Definition _poll_once (timeout_s : Z) : M (option msg) :=
  c <- self ;;
  match ws c with
  | None => raise (not_connected c)
  | Some _ =>
      _maybe_heartbeat ;;;
      r <- attempt (ws_recv timeout_s) ;;
      match r with
      | Raise e =>
          if is_timeout e then ret None
          else if is_closed e then raise (closed_unexpectedly c)
          else raise e        (* no except clause for it *)
      | Ok (Some (JDict payload)) => m <- new_object payload ;; ret (Some m)
      | Ok _ => ret None
      end
  end.

(** The loop of lines 450-470. *)
Fixpoint recv_loop (fuel : nat) (deadline : Z) : M msg :=
  fun c w =>
    if now w <? deadline then
      match fuel with
      | O => None
      | S fuel' =>
          (_maybe_heartbeat ;;;
           t <- monotonic ;;
           let remaining := Z.max 100 (deadline - t) in
           r <- attempt (ws_recv (Z.min 700 remaining)) ;;
           match r with
           | Raise e =>
               if is_timeout e then recv_loop fuel' deadline
               else if is_closed e then raise (closed_while_waiting c)
               else raise e   (* no except clause for it *)
           | Ok (Some (JDict payload)) => new_object payload
           | Ok _ => recv_loop fuel' deadline
           end) c w
      end
    else
      raise (mkExn TimeoutError
               [Text (name c); Text ": timed out waiting for websocket payload"]) c w.

(** Passes that a loop sleeping at least [tick] ms per idle pass can make
    before a deadline [span] ms away, over an inbox of [n] frames. *)
Definition fuel_for (tick span : Z) (n : nat) : nat :=
  (n + Z.to_nat (span / tick + 1))%nat.

(** lines 446-470 *)
Definition _recv_json_blocking (timeout_s : Z) : M msg :=
  fun c w =>
    match ws c with
    | None => raise (not_connected c) c w
    | Some _ =>
        let deadline := now w + timeout_s in
        recv_loop (fuel_for 100 timeout_s (List.length (inbox w))) deadline c w
    end.

(** The caller's predicate: None, or a function of the payload that answers
    or raises. *)
Definition predicate : Type := option (dict -> outcome bool).

(** [predicate is None or predicate(data)] *)
Definition holds (p : predicate) (data : dict) : outcome bool :=
  match p with
  | None => Ok true
  | Some f => f data
  end.

(** The test of lines 512-515 on one backlog item. *)
Definition entry_matches (event_type : string) (p : predicate) (item : msg)
  : outcome bool :=
  if negb (py_eq_int (msg_get item "op") 0)
     || negb (py_eq_str (msg_get item "t") event_type)
  then Ok false
  else
    match msg_get item "d" with
    | JDict data => holds p data
    | _ => Ok false
    end.

(** [for idx, item in enumerate(...)]: the index at which the loop returns,
    unless the predicate raises first. *)
Fixpoint scan_backlog (event_type : string) (p : predicate) (idx : nat)
  (items : list msg) : outcome (option nat) :=
  match items with
  | [] => Ok None
  | item :: rest =>
      match entry_matches event_type p item with
      | Ok true => Ok (Some idx)
      | Ok false => scan_backlog event_type p (S idx) rest
      | Raise e => Raise e
      end
  end.

(** [l.pop(idx)] for an index in range. *)
Fixpoint list_pop {A} (idx : nat) (l : list A) : option (A * list A) :=
  match l, idx with
  | [], _ => None
  | x :: l', O => Some (x, l')
  | x :: l', S i =>
      match list_pop i l' with
      | Some (y, r) => Some (y, x :: r)
      | None => None
      end
  end.

(** lines 506-517 *)
Definition _find_in_backlog (event_type : string) (p : predicate) : M (option msg) :=
  c <- self ;;
  match scan_backlog event_type p 0 (backlog c) with
  | Raise e => raise e
  | Ok (Some idx) =>
      match list_pop idx (backlog c) with
      | Some (item, rest) => update (set_backlog rest) ;;; ret (Some item)
      | None => raise (mkExn (OtherException "IndexError") [Text "pop index out of range"])
      end
  | Ok None => ret None
  end.

(** [seen.append(t)], cut to its last fifteen. *)
Definition note_seen (seen : list string) (t : string) : list string :=
  let seen' := (seen ++ [t])%list in
  if (15 <? List.length seen')%nat then skipn (List.length seen' - 15) seen' else seen'.

(** Lines 535-544, for one frame [m] that [_poll_once] returned: either the
    frame is the answer, or the loop goes on with its list of seen types, or
    the predicate raises and the call is left at line 542. *)
Definition handle_frame (event_type : string) (p : predicate) (seen : list string)
  (m : msg) : M (msg + list string) :=
  match msg_get m "t" with
  | JStr t =>
      if py_eq_int (msg_get m "op") 0 then
        let seen' := note_seen seen t in
        let keep : M (msg + list string) :=
          c <- self ;;
          update (set_backlog (backlog c ++ [m])) ;;;
          ret (inr seen') in
        if String.eqb t event_type then
          match msg_get m "d" with
          | JDict data =>
              match holds p data with
              | Ok true => ret (inl m)
              | Ok false => keep
              | Raise e => raise e
              end
          | _ => keep
          end
        else keep
      else ret (inr seen)
  | _ => ret (inr seen)
  end.

(** The loop of lines 531-548. *)
Fixpoint dispatch_loop (fuel : nat) (event_type : string) (p : predicate)
  (deadline : Z) (seen : list string) : M msg :=
  fun c w =>
    if now w <? deadline then
      match fuel with
      | O => None
      | S fuel' =>
          (r <- _poll_once 500 ;;
           match r with
           | None => dispatch_loop fuel' event_type p deadline seen
           | Some m =>
               h <- handle_frame event_type p seen m ;;
               match h with
               | inl answer => ret answer
               | inr seen' => dispatch_loop fuel' event_type p deadline seen'
               end
           end) c w
      end
    else
      raise (mkExn TimeoutError
               [Text (name c); Text ": timed out waiting for "; Text event_type;
                Text "; recently seen: "; Shown (JList (map JStr seen))]) c w.

(** lines 519-548 *)
Definition wait_dispatch (event_type : string) (p : predicate) (timeout_s : Z) : M msg :=
  cached <- _find_in_backlog event_type p ;;
  match cached with
  | Some m => ret m
  | None =>
      fun c w =>
        let deadline := now w + timeout_s in
        dispatch_loop (fuel_for 500 timeout_s (List.length (inbox w)))
                      event_type p deadline [] c w
  end.

(** The least int that [float()] refuses: halfway between the largest double
    and 2^1024. *)
Definition float_limit : Z := 2 ^ 1024 - 2 ^ 970.

Definition float_overflow : exn :=
  mkExn (OtherException "OverflowError") [Text "int too large to convert to float"].

(** [float(v)], in the unit of [v]; [float_of_str] is Python's reading of a
    string as a number, [None] where it raises ValueError.  An int below
    [float_limit] stands for itself: rounding is not modelled. *)
Definition py_float (float_of_str : string -> option Z) (v : json) : M Z :=
  match v with
  | JNum n => if Z.abs n <? float_limit then ret n else raise float_overflow
  | JBool b => ret (if b then 1 else 0)
  | JStr s =>
      match float_of_str s with
      | Some n => ret n
      | None => raise (mkExn ValueError [Text "could not convert string to float: "; Shown v])
      end
  | _ => raise (mkExn TypeError [Text "float() argument must be a string or a real number"])
  end.

(** [websocket.create_connection(...)] *)
Definition create_connection : M socket :=
  fun c w =>
    if alive w then Some (Ok Socket, c, w)
    else Some (Raise (mkExn (OtherException "ConnectionRefusedError") []), c, w).

Definition identify_frame (c : GatewayClient) : json :=
  JDict [("op", JNum 2); ("d", JDict [("token", JStr (token c))])].

(** The interval read off the greeting, lines 422-426. *)
Definition hello_interval (hello : msg) : json :=
  match msg_get hello "d" with
  | JDict d => dict_get d "heartbeat_interval" (JNum 41250)
  | _ => JNum 41250
  end.

(** lines 412-431 *)
Definition connect (float_of_str : string -> option Z) : M unit :=
  s <- create_connection ;;
  update (set_ws (Some s)) ;;;
  hello <- _recv_json_blocking 12000 ;;
  c <- self ;;
  if negb (py_eq_int (msg_get hello "op") 10) then
    raise (mkExn RuntimeError
             [Text (name c); Text ": expected HELLO, got: "; Shown (JDict (body hello))])
  else
    interval_ms <- py_float float_of_str (hello_interval hello) ;;
    update (set_interval (Z.max 1000 interval_ms)) ;;;
    t <- monotonic ;;
    update (set_last t) ;;;
    send (identify_frame c) ;;;
    wait_dispatch "READY" None 25000 ;;;
    ret tt.

(** *** Runs of a session *)

(** What the caller does between and with its calls: wait for an event, or
    do something else for [d] milliseconds. *)
Inductive action : Type :=
| Await (event_type : string) (p : predicate) (timeout_s : Z)
| Idle (d : N).

Definition idle (d : N) : M unit :=
  fun c w =>
    Some (Ok tt, c,
          mkWorld (now w + Z.of_N d) (inbox w) (outbox w) (alive w)
                  (close_fault w) (next_obj w)).

(** A run keeps, for each call of wait_dispatch, the clock reading at which
    it was made and how it ended; a caller may catch a failure and go on. *)
Fixpoint run (acts : list action) : M (list (Z * outcome msg)) :=
  match acts with
  | [] => ret []
  | Await event_type p timeout_s :: rest =>
      t <- monotonic ;;
      r <- attempt (wait_dispatch event_type p timeout_s) ;;
      rs <- run rest ;;
      ret ((t, r) :: rs)
  | Idle d :: rest => idle d ;;; run rest
  end.

Fixpoint returned (rs : list (Z * outcome msg)) : list msg :=
  match rs with
  | [] => []
  | (_, Ok m) :: rs' => m :: returned rs'
  | (_, Raise _) :: rs' => returned rs'
  end.


(** *** Observations on a session *)

Definition ids (l : list msg) : list nat := map obj_id l.


Definition is_heartbeat (f : Z * json) : bool :=
  match snd f with
  | JDict d => py_eq_int (dict_get d "op" JNull) 1
  | _ => false
  end.

(** The instants at which keepalive frames were written. *)
Definition emissions (w : world) : list Z := map fst (filter is_heartbeat (outbox w)).


Fixpoint gaps_leb (bound : Z) (l : list Z) : bool :=
  match l with
  | a :: (b :: _) as l' => (b - a <=? bound) && gaps_leb bound l'
  | _ => true
  end.

(** Whether [_maybe_heartbeat] writes a frame in this state. *)
Definition due (c : GatewayClient) (w : world) : bool :=
  match ws c with
  | Some _ => alive w && (9 * heartbeat_interval_s c <=? 10 * (now w - last_heartbeat_at c))
  | None => false
  end.

Definition wrote_heartbeat (w : world) : world :=
  mkWorld (now w) (inbox w) (outbox w ++ [(now w, heartbeat_frame)]) (alive w)
          (close_fault w) (next_obj w).

(** A frame that wait_dispatch would take for [event_type]. *)
Definition frame_answers (event_type : string) (p : predicate) (a : arrival)
  : outcome bool :=
  match a with
  | Data (Some (JDict d)) => entry_matches event_type p (mkMsg O d)
  | _ => Ok false
  end.

Definition is_dict_frame (a : arrival) : bool :=
  match a with
  | Data (Some (JDict _)) => true
  | _ => false
  end.

Definition is_data (a : arrival) : bool :=
  match a with
  | Data _ => true
  | Hangup | Fault _ => false
  end.

Definition has_dict_payload (m : msg) : bool :=
  match msg_get m "d" with
  | JDict _ => true
  | _ => false
  end.

(** The client and the world once [_maybe_heartbeat] has run. *)
Definition after_hb_c (c : GatewayClient) (w : world) : GatewayClient :=
  if due c w then set_last (now w) c else c.

Definition after_hb_w (c : GatewayClient) (w : world) : world :=
  if due c w then wrote_heartbeat w else w.

(** What one read iteration gets from the socket. *)
Inductive reading : Type :=
| Nothing              (* no frame in time, or a frame that holds no JSON object *)
| Object (m : msg)     (* a frame that holds a JSON object *)
| Lost                 (* WebSocketConnectionClosedException *)
| Broken (e : exn).    (* an exception of [ws.recv()] that is not caught *)

(** What [_poll_once] makes of it. *)
Definition poll_result (c : GatewayClient) (x : reading) : outcome (option msg) :=
  match x with
  | Nothing => Ok None
  | Object m => Ok (Some m)
  | Lost => Raise (closed_unexpectedly c)
  | Broken e => Raise e
  end.

(** What one read iteration with [ws.recv()] blocking up to [timeout] on a
    connected client gets, and the world it leaves, case by case on the
    socket. *)
Inductive polled (timeout : Z) (c : GatewayClient) (w : world)
  : reading -> world -> Prop :=
| polled_dead :
    alive w = false ->
    polled timeout c w Lost w
| polled_quiet :
    alive w = true ->
    match inbox w with
    | (a, _) :: _ => now w + timeout <= a
    | [] => True
    end ->
    polled timeout c w Nothing
      (mkWorld (now w + timeout) (inbox w) (outbox (after_hb_w c w)) true
               (close_fault w) (next_obj w))
| polled_dict a d rest :
    alive w = true ->
    inbox w = (a, Data (Some (JDict d))) :: rest ->
    a < now w + timeout ->
    polled timeout c w (Object (mkMsg (next_obj w) d))
      (mkWorld (Z.max (now w) a) rest (outbox (after_hb_w c w)) true
               (close_fault w) (S (next_obj w)))
| polled_other a x rest :
    alive w = true ->
    inbox w = (a, Data x) :: rest ->
    is_dict_frame (Data x) = false ->
    a < now w + timeout ->
    polled timeout c w Nothing
      (mkWorld (Z.max (now w) a) rest (outbox (after_hb_w c w)) true
               (close_fault w) (next_obj w))
| polled_hangup a rest :
    alive w = true ->
    inbox w = (a, Hangup) :: rest ->
    a < now w + timeout ->
    polled timeout c w Lost
      (mkWorld (Z.max (now w) a) rest (outbox (after_hb_w c w)) false
               (close_fault w) (next_obj w))
| polled_fault_timeout a e rest :
    alive w = true ->
    inbox w = (a, Fault e) :: rest ->
    a < now w + timeout ->
    is_timeout e = true ->
    polled timeout c w Nothing
      (mkWorld (Z.max (now w) a) rest (outbox (after_hb_w c w)) true
               (close_fault w) (next_obj w))
| polled_fault_closed a e rest :
    alive w = true ->
    inbox w = (a, Fault e) :: rest ->
    a < now w + timeout ->
    is_timeout e = false -> is_closed e = true ->
    polled timeout c w Lost
      (mkWorld (Z.max (now w) a) rest (outbox (after_hb_w c w)) false
               (close_fault w) (next_obj w))
| polled_fault a e rest :
    alive w = true ->
    inbox w = (a, Fault e) :: rest ->
    a < now w + timeout ->
    is_timeout e = false -> is_closed e = false ->
    polled timeout c w (Broken e)
      (mkWorld (Z.max (now w) a) rest (outbox (after_hb_w c w)) true
               (close_fault w) (next_obj w)).

(** A dispatch frame: opcode 0 and a string for its type. *)
Definition dispatch_type (m : msg) : option string :=
  match msg_get m "t" with
  | JStr t => if py_eq_int (msg_get m "op") 0 then Some t else None
  | _ => None
  end.

Definition timed_out_waiting (c : GatewayClient) (event_type : string)
  (seen : list string) : exn :=
  mkExn TimeoutError
    [Text (name c); Text ": timed out waiting for "; Text event_type;
     Text "; recently seen: "; Shown (JList (map JStr seen))].

Definition expected_hello (c : GatewayClient) (hello : dict) : exn :=
  mkExn RuntimeError
    [Text (name c); Text ": expected HELLO, got: "; Shown (JDict hello)].

(** The time [ws.recv()] may block in a pass of [_recv_json_blocking]. *)
Definition recv_budget (deadline : Z) (w : world) : Z :=
  Z.min 700 (Z.max 100 (deadline - now w)).

Definition no_payload_in_time (c : GatewayClient) : exn :=
  mkExn TimeoutError [Text (name c); Text ": timed out waiting for websocket payload"].

(** How a wait that went to the socket leaves the session, seen from the
    state [c0], [w0] it started in: the backlog has only grown, by objects
    built during the call, each of them once; an answer is such an object
    too, is not among those put on the backlog, and passes the test. *)
Definition answered (event_type : string) (p : predicate)
  (c0 : GatewayClient) (w0 : world)
  (r : outcome msg) (c : GatewayClient) (w : world) : Prop :=
  (next_obj w0 <= next_obj w)%nat
  /\ exists added,
       backlog c = (backlog c0 ++ added)%list
       /\ Forall (fun m => (next_obj w0 <= obj_id m < next_obj w)%nat) added
       /\ NoDup (ids added)
       /\ match r with
          | Ok m =>
              (next_obj w0 <= obj_id m < next_obj w)%nat
              /\ ~ In (obj_id m) (ids added)
              /\ entry_matches event_type p m = Ok true
          | Raise _ => True
          end.


Definition answer_of (r : outcome msg) : list msg :=
  match r with
  | Ok m => [m]
  | Raise _ => []
  end.


(** A frame that wait_dispatch passes over: on it the test answers False
    (it does not raise), and it is neither the end of the stream nor a
    failure of the socket. *)
Definition no_answer (event_type : string) (p : predicate) (f : Z * arrival) : Prop :=
  frame_answers event_type p (snd f) = Ok false /\ is_data (snd f) = true.


(** *** Sample sessions *)

Definition dispatch (t : string) (d : json) : arrival :=
  Data (Some (JDict [("op", JNum 0); ("t", JStr t); ("d", d)])).

Definition hello_frame (d : json) : arrival :=
  Data (Some (JDict [("op", JNum 10); ("d", d)])).

Definition guest1 : GatewayClient :=
  __init__ "guest1" "ws://127.0.0.1:19081/gateway" "token-1".

(** [guest1] once connected at clock 0 with the default interval. *)
Definition guest1_connected : GatewayClient := set_ws (Some Socket) guest1.

Definition world_with (inbox : list (Z * arrival)) : world :=
  mkWorld 0 inbox [] true None O.

(** Three events that are on the wire early; the caller asks for one every
    35 seconds, the first time 40 seconds after connecting. *)
Definition three_events : world :=
  world_with [ (1000, dispatch "MESSAGE_CREATE" (JDict [("id", JStr "1")]));
               (2000, dispatch "MESSAGE_CREATE" (JDict [("id", JStr "2")]));
               (3000, dispatch "MESSAGE_CREATE" (JDict [("id", JStr "3")])) ].

Definition three_awaits : list action :=
  [ Idle 40000; Await "MESSAGE_CREATE" None 20000;
    Idle 35000; Await "MESSAGE_CREATE" None 20000;
    Idle 35000; Await "MESSAGE_CREATE" None 20000 ].

(** A greeting without an interval, then READY. *)
Definition plain_handshake : world :=
  world_with [ (20, hello_frame (JDict []));
               (60, dispatch "READY" (JDict [("session_id", JStr "s")])) ].

Definition no_float_of_str : string -> option Z := fun _ => None.



Definition wrong_greeting : world :=
  world_with [ (20, Data (Some (JDict [("op", JNum 11)]))) ].

(** An event whose payload is a list, and one whose payload is a dict. *)
Definition odd_event : msg :=
  mkMsg 7 [("op", JNum 0); ("t", JStr "MESSAGE_CREATE"); ("d", JList [JNum 1])].

Definition good_event : msg :=
  mkMsg 8 [("op", JNum 0); ("t", JStr "MESSAGE_CREATE"); ("d", JDict [("id", JStr "9")])].

Definition guest1_with_backlog : GatewayClient :=
  set_backlog [odd_event; good_event] guest1_connected.

Definition later_world : world := mkWorld 5000 [] [] true None 9.

(** *** Further observations on a session *)

(** The parts of a client that no read changes. *)
Definition same_identity (c c' : GatewayClient) : Prop :=
  name c' = name c /\ url c' = url c /\ token c' = token c /\ ws c' = ws c
  /\ heartbeat_interval_s c' = heartbeat_interval_s c.

(** The bodies of the dispatch frames among [frames], in order. *)
Fixpoint dispatch_bodies (frames : list (Z * arrival)) : list dict :=
  match frames with
  | [] => []
  | (_, Data (Some (JDict d))) :: rest =>
      match dispatch_type (mkMsg O d) with
      | Some _ => d :: dispatch_bodies rest
      | None => dispatch_bodies rest
      end
  | _ :: rest => dispatch_bodies rest
  end.

(** What the receive loop of wait_dispatch did between [c0], [w0] and its
    end: it read a prefix [consumed] of the inbox, and the dispatch frames
    among it became, in order and as objects built one after the other,
    the items [added] to the backlog and, last, the answer. *)
Definition traced (c0 : GatewayClient) (w0 : world) (kept : list msg)
  (c : GatewayClient) (w : world) : Prop :=
  exists consumed added,
    inbox w0 = (consumed ++ inbox w)%list
    /\ backlog c = (backlog c0 ++ added)%list
    /\ map body (added ++ kept)%list = dispatch_bodies consumed
    /\ StronglySorted lt (ids (added ++ kept)%list)
    /\ Forall (fun m => (next_obj w0 <= obj_id m < next_obj w)%nat) (added ++ kept)%list
    /\ (next_obj w0 <= next_obj w)%nat.

(** The predicate raised [e], on an item of the backlog [items] or on a
    frame among [frames]. *)
Definition predicate_raised (event_type : string) (p : predicate) (e : exn)
  (items : list msg) (frames : list (Z * arrival)) : Prop :=
  exists m,
    entry_matches event_type p m = Raise e
    /\ (In m items \/ exists a, In (a, Data (Some (JDict (body m)))) frames).

(** The socket read ([ws.settimeout], [ws.recv]) raised [e], an exception
    that is not caught, at one of [frames]. *)
Definition recv_raised (e : exn) (frames : list (Z * arrival)) : Prop :=
  (exists a, In (a, Fault e) frames) /\ is_timeout e = false /\ is_closed e = false.

(** How the receive loop of wait_dispatch can end: with an answer, or with
    one of five exceptions; never later than one read after the deadline,
    and with at most fifteen types in the list of a TimeoutError. *)
Definition ended (event_type : string) (p : predicate) (deadline : Z)
  (c0 : GatewayClient) (w0 : world)
  (r : outcome msg) (c : GatewayClient) (w : world) : Prop :=
  same_identity c0 c
  /\ now w0 <= now w
  /\ (now w = now w0 \/ now w < deadline + 500)
  /\ match r with
     | Ok _ => True
     | Raise e =>
         (e = not_connected c0 /\ ws c0 = None)
         \/ (e = closed_unexpectedly c0 /\ alive w = false)
         \/ (exists seen, (List.length seen <= 15)%nat
                          /\ e = timed_out_waiting c0 event_type seen
                          /\ deadline <= now w)
         \/ predicate_raised event_type p e (backlog c0) (inbox w0)
         \/ recv_raised e (inbox w0)
     end.

(** What a call built and put neither on the backlog nor, perhaps, into the
    caller's hands: the answer, or the frame on which the predicate raised. *)
Definition set_aside (event_type : string) (p : predicate) (r : outcome msg)
  (kept : list msg) : Prop :=
  match r with
  | Ok m => kept = [m]
  | Raise e =>
      kept = [] \/ exists m, kept = [m] /\ entry_matches event_type p m = Raise e
  end.

(** The clock once a read loop that started at [t] has taken [frames] off
    the wire: a frame is read when it arrives, or at once when it is there
    already. *)
Definition clock_after (t : Z) (frames : list (Z * arrival)) : Z :=
  fold_left (fun t f => Z.max t (fst f)) frames t.

(** The number of frames among [frames] that hold a JSON object: each takes
    one object identity. *)
Fixpoint objects (frames : list (Z * arrival)) : nat :=
  match frames with
  | [] => O
  | (_, Data (Some (JDict _))) :: rest => S (objects rest)
  | _ :: rest => objects rest
  end.

(** The dispatch frames among [frames] as the objects that [json.loads]
    builds of them, the first object frame getting identity [n]. *)
Fixpoint built (n : nat) (frames : list (Z * arrival)) : list msg :=
  match frames with
  | [] => []
  | (_, Data (Some (JDict d))) :: rest =>
      match dispatch_type (mkMsg n d) with
      | Some _ => mkMsg n d :: built (S n) rest
      | None => built (S n) rest
      end
  | _ :: rest => built n rest
  end.

(** Frames that wait_dispatch reads and passes over while it waits until
    [deadline]: each arrives before the deadline and is no answer. *)
Definition passed_over (event_type : string) (p : predicate) (deadline : Z)
  (frames : list (Z * arrival)) : Prop :=
  Forall (fun f => no_answer event_type p f /\ fst f < deadline) frames.


(** The session once the receive loop of wait_dispatch, started in [c], [w],
    has read [frames] and passed over them all. *)
Definition advanced (c : GatewayClient) (w : world) (frames : list (Z * arrival))
  (c1 : GatewayClient) (w1 : world) : Prop :=
  same_identity c c1
  /\ backlog c1 = (backlog c ++ built (next_obj w) frames)%list
  /\ alive w1 = true
  /\ next_obj w1 = (next_obj w + objects frames)%nat
  /\ now w1 = clock_after (now w) frames.

(** The backlog lists its objects in the order in which they were built. *)
Definition in_arrival_order (c : GatewayClient) (w : world) : Prop :=
  StronglySorted lt (ids (backlog c))
  /\ Forall (fun m => (obj_id m < next_obj w)%nat) (backlog c).

(** Consecutive entries at least 90% of [interval] apart. *)
Fixpoint spaced (interval : Z) (l : list Z) : Prop :=
  match l with
  | a :: (b :: _) as l' => 9 * interval <= 10 * (b - a) /\ spaced interval l'
  | _ => True
  end.

(** No keepalive frame was written after [last_heartbeat_at], and the frames
    written keep their distance. *)
Definition keepalive_spaced (c : GatewayClient) (w : world) : Prop :=
  spaced (heartbeat_interval_s c) (emissions w)
  /\ List.last (emissions w) (last_heartbeat_at c) <= last_heartbeat_at c.

(** [w'] differs from [w] in its outbox by keepalive frames only. *)
Definition only_keepalives_since (w w' : world) : Prop :=
  exists times,
    outbox w' = (outbox w ++ map (fun t => (t, heartbeat_frame)) times)%list.

(** A greeting with opcode 10 is among the frames on the wire. *)
Definition greeted (w : world) : Prop :=
  exists a hello,
    In (a, Data (Some (JDict hello))) (inbox w)
    /\ py_eq_int (dict_get hello "op" JNull) 10 = true.

(** What [float()] raises on None, a list or a dict. *)
Definition float_type_error : exn :=
  mkExn TypeError [Text "float() argument must be a string or a real number"].

Definition not_a_number (v : json) : bool :=
  match v with
  | JNull | JList _ | JDict _ => true
  | _ => false
  end.

(** A greeting whose interval is null, followed by READY. *)
Definition null_interval_handshake : world :=
  world_with [ (20, hello_frame (JDict [("heartbeat_interval", JNull)]));
               (60, dispatch "READY" (JDict [])) ].

(** A world whose connection is down. *)
Definition dead_world : world := mkWorld 5000 [] [] false None 9.

(** The world after [d] milliseconds in which the session is left alone. *)
Definition later (d : N) (w : world) : world :=
  mkWorld (now w + Z.of_N d) (inbox w) (outbox w) (alive w) (close_fault w)
          (next_obj w).

(** A session with two events on its backlog and a third, a keepalive
    acknowledgement and a fourth event on the wire. *)
Definition ack_frame : arrival := Data (Some (JDict [("op", JNum 11)])).

Definition busy_world : world :=
  mkWorld 5000
    [ (5100, dispatch "TYPING_START" (JDict []));
      (5200, ack_frame);
      (5300, dispatch "MESSAGE_CREATE" (JDict [("id", JStr "10")])) ]
    [] true None 9.


(** An event whose payload is a list, on the wire before one whose payload
    is a dict. *)
Definition odd_on_the_wire : world :=
  world_with [ (100, dispatch "MESSAGE_CREATE" (JList [JNum 1]));
               (200, dispatch "MESSAGE_CREATE" (JDict [("id", JStr "9")])) ].





End Gateway.

(** * Properties *)

(** ** The security gate *)

Lemma seq_after_return (code : Z) (s : SecurityGate.stmt) (out : list string) :
  SecurityGate.seq (SecurityGate.return_ code) s out = SecurityGate.Returned code out.
Proof. reflexivity. Qed.

Lemma gate_body_rejects_open_row :
  SecurityGate.exit_code
    (SecurityGate.gate_body SecurityGate.tracker_with_open_row []) = 1.
Proof. vm_compute. reflexivity. Qed.

Lemma gate_body_rejects_missing_tracker :
  SecurityGate.exit_code (SecurityGate.gate_body None []) = 1.
Proof. reflexivity. Qed.

(** C3: main of security_gate_check.py returns 0 and prints nothing for every
    state of the tracker file, because its first statement is [return 0];
    the gating code below it, which would exit with 1 on a missing tracker
    or on an open P0 row, is never reached. *)
Theorem security_gate_main_returns_0 :
  (forall t : SecurityGate.tracker,
      SecurityGate.main t = SecurityGate.Returned 0 []
      /\ SecurityGate.exit_code (SecurityGate.main t) = 0)
  /\ SecurityGate.exit_code (SecurityGate.gate_body None []) = 1
  /\ SecurityGate.exit_code
       (SecurityGate.gate_body SecurityGate.tracker_with_open_row []) = 1
  /\ SecurityGate.exit_code (SecurityGate.main SecurityGate.tracker_with_open_row) = 0.
Proof.
  split; [| split; [| split]].
  - intro t. unfold SecurityGate.main. rewrite seq_after_return. split; reflexivity.
  - exact gate_body_rejects_missing_tracker.
  - exact gate_body_rejects_open_row.
  - unfold SecurityGate.main. rewrite seq_after_return. reflexivity.
Qed.

(** ** The relay check and the trusted-peer check *)

Section Counting.
Context {A : Type}.
Variable f : A -> bool.

Lemma count_zero_iff (l : list A) :
  Z.of_nat (List.length (filter f l)) = 0 <-> (forall x, In x l -> f x = false).
Proof.
  induction l as [| a l IH]; simpl.
  - split; [intros _ x [] | reflexivity].
  - destruct (f a) eqn:Ha; simpl.
    + split; [lia |]. intro H. specialize (H a (or_introl eq_refl)). congruence.
    + rewrite IH. split.
      * intros H x [<- | Hx]; auto.
      * intros H x Hx. apply H. now right.
Qed.

Lemma count_pos_iff (l : list A) :
  0 < Z.of_nat (List.length (filter f l)) <-> (exists x, In x l /\ f x = true).
Proof.
  induction l as [| a l IH]; simpl.
  - split; [lia | intros (x & [] & _)].
  - destruct (f a) eqn:Ha; simpl.
    + split; [| lia]. intros _. exists a. auto.
    + rewrite IH. split.
      * intros (x & Hx & Hf). exists x. auto.
      * intros (x & [<- | Hx] & Hf); [congruence |]. exists x. auto.
Qed.

End Counting.

Lemma attempts_zero_iff (db : Inspector.node_db) (ev : string) :
  Inspector.count_attempts db ev Inspector.node_c = 0
  <-> ~ (exists r, In r (Inspector.federation_delivery_attempts db)
                   /\ Inspector.event_id r = ev
                   /\ Inspector.destination_server r = Inspector.node_c).
Proof.
  unfold Inspector.count_attempts. rewrite count_zero_iff. split.
  - intros H (r & Hr & He & Hd). specialize (H r Hr).
    rewrite He, Hd, !String.eqb_refl in H. discriminate.
  - intros H r Hr.
    destruct (String.eqb (Inspector.event_id r) ev) eqn:He; [| reflexivity].
    destruct (String.eqb (Inspector.destination_server r) Inspector.node_c) eqn:Hd;
      [| reflexivity].
    apply String.eqb_eq in He, Hd. exfalso. apply H. exists r. auto.
Qed.

Lemma attempts_pos_iff (db : Inspector.node_db) (ev : string) :
  0 < Inspector.count_attempts db ev Inspector.node_c
  <-> (exists r, In r (Inspector.federation_delivery_attempts db)
                 /\ Inspector.event_id r = ev
                 /\ Inspector.destination_server r = Inspector.node_c).
Proof.
  unfold Inspector.count_attempts. rewrite count_pos_iff. split.
  - intros (r & Hr & Hf). apply andb_true_iff in Hf as [He Hd].
    apply String.eqb_eq in He, Hd. exists r. auto.
  - intros (r & Hr & He & Hd). exists r. split; [assumption |].
    now rewrite He, Hd, !String.eqb_refl.
Qed.

Lemma events_pos_iff (db : Inspector.node_db) (ev : string) :
  0 < Inspector.count_events db ev <-> In ev (Inspector.federation_events db).
Proof.
  unfold Inspector.count_events. rewrite count_pos_iff. split.
  - intros (e & He & Hf). apply String.eqb_eq in Hf. now subst.
  - intros H. exists ev. split; [assumption | apply String.eqb_refl].
Qed.

Lemma count_attempts_nonneg db ev d : 0 <= Inspector.count_attempts db ev d.
Proof. unfold Inspector.count_attempts. lia. Qed.

Lemma count_events_nonneg db ev : 0 <= Inspector.count_events db ev.
Proof. unfold Inspector.count_events. lia. Qed.

(** C1 (as the code has it): the relay check of federation_e2e_validation.py
    passes exactly when A's ledger holds no attempt for the event towards C,
    B's ledger holds one, and C's event ledger holds the event; the check of
    federation_live_fundamentals_validation.py passes exactly when C holds
    the event and A's or B's ledger holds an attempt towards C. *)
Theorem relay_check_passes_iff (a_db b_db c_db : Inspector.node_db) (ev : string) :
  (Inspector.E2E.relay_check a_db b_db c_db ev = Ok tt
   <-> ~ Inspector.direct_attempt a_db ev
       /\ Inspector.relay_attempt b_db ev
       /\ Inspector.ingested c_db ev)
  /\ (Inspector.Live.relay_check a_db b_db c_db ev = Ok tt
      <-> Inspector.ingested c_db ev
          /\ (Inspector.direct_attempt a_db ev \/ Inspector.relay_attempt b_db ev)).
Proof.
  pose proof (attempts_zero_iff a_db ev) as Ha0.
  pose proof (attempts_pos_iff a_db ev) as Ha.
  pose proof (attempts_pos_iff b_db ev) as Hb.
  pose proof (events_pos_iff c_db ev) as Hc.
  pose proof (count_attempts_nonneg a_db ev Inspector.node_c) as Na.
  pose proof (count_attempts_nonneg b_db ev Inspector.node_c) as Nb.
  pose proof (count_events_nonneg c_db ev) as Nc.
  unfold Inspector.direct_attempt, Inspector.relay_attempt, Inspector.ingested.
  unfold Inspector.E2E.relay_check, Inspector.Live.relay_check.
  cbv zeta.
  set (a := Inspector.count_attempts a_db ev Inspector.node_c) in *.
  set (b := Inspector.count_attempts b_db ev Inspector.node_c) in *.
  set (c := Inspector.count_events c_db ev) in *.
  split.
  - destruct (Z.eqb_spec a 0) as [E | E]; simpl.
    + destruct (Z.leb_spec b 0) as [Lb | Lb]; simpl.
      * split; [discriminate |]. intros (_ & H & _). apply Hb in H. lia.
      * destruct (Z.leb_spec c 0) as [Lc | Lc]; simpl.
        -- split; [discriminate |]. intros (_ & _ & H). apply Hc in H. lia.
        -- split; [| reflexivity]. intros _. repeat split.
           ++ now apply Ha0.
           ++ now apply Hb.
           ++ now apply Hc.
    + split; [discriminate |]. intros (H & _). apply Ha0 in H. contradiction.
  - destruct (Z.leb_spec c 0) as [Lc | Lc]; simpl.
    + split; [discriminate |]. intros (H & _). apply Hc in H. lia.
    + destruct (Z.leb_spec a 0) as [La | La]; simpl.
      * destruct (Z.leb_spec b 0) as [Lb | Lb]; simpl.
        -- split; [discriminate |]. intros (_ & [H | H]).
           ++ apply Ha in H. lia.
           ++ apply Hb in H. lia.
        -- split; [| reflexivity]. intros _. split; [now apply Hc |].
           right. now apply Hb.
      * split; [| reflexivity]. intros _. split; [now apply Hc |].
        left. now apply Ha.
Qed.

(** C1 as stated fails for the live script: with an attempt from A straight
    to C on record, next to B's attempt and C's ingestion, its relay check
    still passes. *)
Lemma live_relay_check_accepts_direct_edge :
  Inspector.direct_attempt Inspector.a_db_direct Inspector.ev1
  /\ Inspector.relay_attempt Inspector.b_db_relay Inspector.ev1
  /\ Inspector.ingested Inspector.c_db_ingested Inspector.ev1
  /\ Inspector.Live.relay_check Inspector.a_db_direct Inspector.b_db_relay
       Inspector.c_db_ingested Inspector.ev1 = Ok tt.
Proof.
  split; [| split; [| split]].
  - exists (Inspector.mkAttempt Inspector.ev1 Inspector.node_c).
    split; [right; left; reflexivity | split; reflexivity].
  - exists (Inspector.mkAttempt Inspector.ev1 Inspector.node_c).
    split; [left; reflexivity | split; reflexivity].
  - left. reflexivity.
  - reflexivity.
Qed.

Lemma insert_sorted_length (x : string) (l : list string) :
  List.length (Inspector.insert_sorted x l) = S (List.length l).
Proof.
  induction l as [| y l IH]; simpl; [reflexivity |].
  destruct (String.leb x y); simpl; [reflexivity | now rewrite IH].
Qed.

Lemma order_by_name_length (l : list string) :
  List.length (Inspector.order_by_name l) = List.length l.
Proof.
  induction l as [| y l IH]; simpl; [reflexivity |].
  rewrite insert_sorted_length. now rewrite IH.
Qed.

Lemma order_by_name_singleton (l : list string) (x : string) :
  Inspector.order_by_name l = [x] <-> l = [x].
Proof.
  split.
  - intro H. pose proof (order_by_name_length l) as Hl. rewrite H in Hl.
    destruct l as [| y [| z l]]; simpl in Hl; try discriminate.
    simpl in H. exact H.
  - intros ->. reflexivity.
Qed.

Lemma list_string_eqb_eq (l1 l2 : list string) :
  Inspector.list_string_eqb l1 l2 = true <-> l1 = l2.
Proof.
  unfold Inspector.list_string_eqb.
  destruct (list_eq_dec string_dec l1 l2); split; congruence.
Qed.

Lemma existsb_eqb_In (x : string) (l : list string) :
  existsb (String.eqb x) l = true <-> In x l.
Proof.
  rewrite existsb_exists. split.
  - intros (y & Hy & E). apply String.eqb_eq in E. now subst.
  - intros H. exists x. split; [assumption | apply String.eqb_refl].
Qed.

(** C8 (as the code has it): the final check of federation_e2e_validation.py
    passes exactly when node A's trusted peers are node B and nothing else;
    the final check of federation_live_fundamentals_validation.py passes
    exactly when node B is among node A's trusted peers. *)
Theorem trust_check_passes_iff (a_db : Inspector.node_db) :
  (Inspector.E2E.trust_check a_db = Ok tt
   <-> Inspector.trusted_names a_db = [Inspector.node_b])
  /\ (Inspector.Live.trust_check a_db = Ok tt
      <-> In Inspector.node_b (Inspector.trusted_names a_db)).
Proof.
  unfold Inspector.E2E.trust_check, Inspector.Live.trust_check. cbv zeta. split.
  - rewrite <- order_by_name_singleton, <- list_string_eqb_eq.
    destruct (Inspector.list_string_eqb _ _); simpl; split; congruence.
  - rewrite <- existsb_eqb_In.
    destruct (existsb _ _); simpl; split; congruence.
Qed.

(** C8 as stated fails for the live script: node A trusting node C besides
    node B passes its final check. *)
Lemma live_trust_check_accepts_extra_peer :
  Inspector.trusted_names Inspector.a_db_two_peers
    = [Inspector.node_b; Inspector.node_c]
  /\ Inspector.trusted_names Inspector.a_db_two_peers <> [Inspector.node_b]
  /\ Inspector.Live.trust_check Inspector.a_db_two_peers = Ok tt
  /\ is_ok (Inspector.E2E.trust_check Inspector.a_db_two_peers) = false.
Proof.
  split; [reflexivity | split; [discriminate | split; reflexivity]].
Qed.

(** ** The poller *)

Lemma passes_enough (tick span : Z) :
  0 < tick -> span < Z.of_nat (Poller.passes tick span) * tick.
Proof.
  intro Htick. unfold Poller.passes.
  pose proof (Z.mod_pos_bound span tick Htick) as Hmod.
  pose proof (Z.div_mod span tick ltac:(lia)) as Hdiv.
  destruct (Z.le_gt_cases 0 (span / tick + 1)) as [Hpos | Hneg].
  - rewrite Z2Nat.id by assumption. nia.
  - assert (Z.to_nat (span / tick + 1) = 0%nat) as -> by lia. nia.
Qed.

Lemma sleep_advances (e : Poller.env) (tick t : Z) :
  t + tick <= Poller.sleep e tick (Poller.after_fn e t).
Proof. unfold Poller.sleep, Poller.after_fn. lia. Qed.

Lemma sleep_bounded (e : Poller.env) (tick t J : Z) :
  Poller.jitter_le e J -> Poller.sleep e tick (Poller.after_fn e t) <= t + tick + J.
Proof.
  intro H. specialize (H t). unfold Poller.sleep. unfold Poller.after_fn at 1. lia.
Qed.

(** Whatever the condition does, a poll with enough fuel ends, and ends either
    normally or with the TimeoutError of the call, not before the deadline. *)
Lemma e2e_poll_ends (e : Poller.env) (desc : string) (deadline : Z) :
  forall (fuel : nat) (t : Z),
    deadline - t < Z.of_nat fuel * Poller.E2E.tick ->
    exists r t',
      Poller.E2E.poll fuel e desc deadline t = Some (r, t')
      /\ (r = Ok tt
          \/ r = Raise (mkExn TimeoutError (Poller.timeout_message desc))
             /\ deadline <= t').
Proof.
  unfold Poller.E2E.tick.
  induction fuel as [| fuel IH]; intros t Hfuel; simpl.
  - destruct (Z.ltb_spec t deadline); [lia |]. eauto 6.
  - destruct (Z.ltb_spec t deadline) as [Hlt | Hge]; [| eauto 6].
    pose proof (sleep_advances e Poller.E2E.tick t) as Hs.
    change Poller.E2E.tick with 500 in *.
    destruct (Poller.fn_result e t) as [[|] | x]; [eauto | |];
      apply IH; lia.
Qed.

Lemma live_poll_ends (e : Poller.env) (desc : string) (deadline : Z) :
  forall (fuel : nat) (last_error : option exn) (t : Z),
    deadline - t < Z.of_nat fuel * Poller.Live.tick ->
    exists r t',
      Poller.Live.poll fuel e desc deadline last_error t = Some (r, t')
      /\ (r = Ok tt
          \/ (exists m, r = Raise (mkExn TimeoutError m) /\ In (Text desc) m)
             /\ deadline <= t').
Proof.
  unfold Poller.Live.tick.
  assert (Hexit : forall last_error t, deadline <= t ->
    exists r t',
      match last_error with
      | Some exc =>
          Some (Raise (mkExn TimeoutError (Poller.timeout_message_with desc exc)), t)
      | None => Some (Raise (mkExn TimeoutError (Poller.timeout_message desc)), t)
      end = Some (r, t')
      /\ (r = Ok tt
          \/ (exists m, r = @Raise unit (mkExn TimeoutError m) /\ In (Text desc) m)
             /\ deadline <= t')).
  { intros [exc |] t Ht; do 2 eexists; (split; [reflexivity |]); right;
      (split; [| exact Ht]); eexists; (split; [reflexivity |]);
      simpl; auto. }
  induction fuel as [| fuel IH]; intros last_error t Hfuel; simpl.
  - destruct (Z.ltb_spec t deadline); [lia |]. now apply Hexit.
  - destruct (Z.ltb_spec t deadline) as [Hlt | Hge]; [| now apply Hexit].
    pose proof (sleep_advances e Poller.Live.tick t) as Hs.
    change Poller.Live.tick with 400 in *.
    destruct (Poller.fn_result e t) as [[|] | x]; [eauto | |];
      apply IH; lia.
Qed.

(** An exception of the condition and the answer False lead the loop the same
    way. *)
Lemma e2e_poll_quiet (e : Poller.env) (desc : string) (deadline : Z) :
  forall (fuel : nat) (t : Z),
    Poller.E2E.poll fuel e desc deadline t
    = Poller.E2E.poll fuel (Poller.quiet e) desc deadline t.
Proof.
  induction fuel as [| fuel IH]; intro t; simpl; [reflexivity |].
  destruct (t <? deadline); [| reflexivity].
  destruct (Poller.fn_result e t) as [[|] | x]; simpl; try reflexivity; apply IH.
Qed.

Lemma live_poll_quiet (e : Poller.env) (desc : string) (deadline : Z) :
  forall (fuel : nat) (le1 le2 : option exn) (t : Z),
    Poller.verdict (Poller.Live.poll fuel e desc deadline le1 t)
    = Poller.verdict (Poller.Live.poll fuel (Poller.quiet e) desc deadline le2 t).
Proof.
  induction fuel as [| fuel IH]; intros le1 le2 t; simpl.
  - destruct (t <? deadline); [reflexivity |]. destruct le1, le2; reflexivity.
  - destruct (t <? deadline); [| destruct le1, le2; reflexivity].
    destruct (Poller.fn_result e t) as [[|] | x]; simpl; try reflexivity; apply IH.
Qed.

Lemma e2e_poll_always_raising (g : Z -> exn) (cost lag : Z -> nat)
  (desc : string) (deadline : Z) :
  forall (fuel : nat) (t : Z),
    deadline - t < Z.of_nat fuel * Poller.E2E.tick ->
    exists t',
      Poller.E2E.poll fuel (Poller.always_raising g cost lag) desc deadline t
      = Some (Raise (mkExn TimeoutError (Poller.timeout_message desc)), t')
      /\ deadline <= t'.
Proof.
  unfold Poller.E2E.tick.
  induction fuel as [| fuel IH]; intros t Hfuel; simpl.
  - destruct (Z.ltb_spec t deadline); [lia |]. eauto.
  - destruct (Z.ltb_spec t deadline) as [Hlt | Hge]; [| eauto].
    pose proof (sleep_advances (Poller.always_raising g cost lag) Poller.E2E.tick t) as Hs.
    change Poller.E2E.tick with 500 in *. apply IH. lia.
Qed.

Lemma live_poll_always_raising (g : Z -> exn) (cost lag : Z -> nat)
  (desc : string) (deadline : Z) :
  forall (fuel : nat) (last_error : option exn) (t : Z),
    deadline - t < Z.of_nat fuel * Poller.Live.tick ->
    exists m t',
      Poller.Live.poll fuel (Poller.always_raising g cost lag) desc deadline
                       last_error t
      = Some (Raise (mkExn TimeoutError m), t')
      /\ In (Text desc) m /\ deadline <= t'.
Proof.
  unfold Poller.Live.tick.
  induction fuel as [| fuel IH]; intros last_error t Hfuel; simpl.
  - destruct (Z.ltb_spec t deadline); [lia |].
    destruct last_error; do 2 eexists; (split; [reflexivity |]); simpl; auto.
  - destruct (Z.ltb_spec t deadline) as [Hlt | Hge].
    + pose proof (sleep_advances (Poller.always_raising g cost lag) Poller.Live.tick t) as Hs.
      change Poller.Live.tick with 400 in *. apply IH. lia.
    + destruct last_error; do 2 eexists; (split; [reflexivity |]); simpl; auto.
Qed.

(** C4: in both scripts, for every condition and every timing of the
    environment, wait_until ends either normally or with its own TimeoutError,
    whose message carries the description and which is raised only once the
    deadline is reached; an exception raised by the condition steers the loop
    exactly as the answer False does; and a condition that raises at every
    poll makes the call end with that TimeoutError. *)
Theorem wait_until_swallows_exceptions
  (e : Poller.env) (g : Z -> exn) (cost lag : Z -> nat)
  (desc : string) (timeout_s t0 : Z) :
  (exists r t',
      Poller.E2E.wait_until e desc timeout_s t0 = Some (r, t')
      /\ (r = Ok tt
          \/ r = Raise (mkExn TimeoutError (Poller.timeout_message desc))
             /\ t0 + timeout_s <= t'))
  /\ Poller.E2E.wait_until e desc timeout_s t0
     = Poller.E2E.wait_until (Poller.quiet e) desc timeout_s t0
  /\ (exists t',
         Poller.E2E.wait_until (Poller.always_raising g cost lag) desc timeout_s t0
         = Some (Raise (mkExn TimeoutError
                          [Text "Timed out waiting for: "; Text desc]), t')
         /\ t0 + timeout_s <= t')
  /\ (exists r t',
         Poller.Live.wait_until e desc timeout_s t0 = Some (r, t')
         /\ (r = Ok tt
             \/ (exists m, r = Raise (mkExn TimeoutError m) /\ In (Text desc) m)
                /\ t0 + timeout_s <= t'))
  /\ Poller.verdict (Poller.Live.wait_until e desc timeout_s t0)
     = Poller.verdict (Poller.Live.wait_until (Poller.quiet e) desc timeout_s t0)
  /\ (exists m t',
         Poller.Live.wait_until (Poller.always_raising g cost lag) desc timeout_s t0
         = Some (Raise (mkExn TimeoutError m), t')
         /\ In (Text desc) m /\ t0 + timeout_s <= t').
Proof.
  assert (H500 : t0 + timeout_s - t0
                 < Z.of_nat (Poller.passes Poller.E2E.tick timeout_s) * Poller.E2E.tick).
  { pose proof (passes_enough Poller.E2E.tick timeout_s ltac:(reflexivity)). lia. }
  assert (H400 : t0 + timeout_s - t0
                 < Z.of_nat (Poller.passes Poller.Live.tick timeout_s) * Poller.Live.tick).
  { pose proof (passes_enough Poller.Live.tick timeout_s ltac:(reflexivity)). lia. }
  unfold Poller.E2E.wait_until, Poller.Live.wait_until. cbv zeta.
  repeat apply conj.
  - now apply e2e_poll_ends.
  - apply e2e_poll_quiet.
  - now apply e2e_poll_always_raising.
  - now apply live_poll_ends.
  - apply live_poll_quiet.
  - now apply live_poll_always_raising.
Qed.

Lemma e2e_poll_succeeds (e : Poller.env) (desc : string) (t0 T J deadline : Z) :
  Poller.turns_true_at e t0 T ->
  Poller.jitter_le e J ->
  t0 + T + Poller.E2E.tick + J <= deadline ->
  forall (fuel : nat) (t : Z),
    t < t0 + T + Poller.E2E.tick + J ->
    deadline - t < Z.of_nat fuel * Poller.E2E.tick ->
    exists t', Poller.E2E.poll fuel e desc deadline t = Some (Ok tt, t').
Proof.
  intros Hturn Hjit Hdl. change Poller.E2E.tick with 500 in *.
  induction fuel as [| fuel IH]; intros t Ht Hfuel; simpl;
    destruct (Z.ltb_spec t deadline) as [Hlt | Hge]; try lia.
  rewrite Hturn. destruct (Z.leb_spec T (t - t0)) as [Hyes | Hno]; [eauto |].
  pose proof (sleep_advances e 500 t). pose proof (sleep_bounded e 500 t J Hjit).
  change Poller.E2E.tick with 500. apply IH; lia.
Qed.

Lemma e2e_poll_times_out (e : Poller.env) (desc : string) (t0 T deadline : Z) :
  Poller.turns_true_at e t0 T ->
  deadline <= t0 + T ->
  forall (fuel : nat) (t : Z),
    deadline - t < Z.of_nat fuel * Poller.E2E.tick ->
    exists t',
      Poller.E2E.poll fuel e desc deadline t
      = Some (Raise (mkExn TimeoutError (Poller.timeout_message desc)), t').
Proof.
  intros Hturn Hdl. change Poller.E2E.tick with 500 in *.
  induction fuel as [| fuel IH]; intros t Hfuel; simpl;
    destruct (Z.ltb_spec t deadline) as [Hlt | Hge]; try lia; eauto.
  rewrite Hturn. destruct (Z.leb_spec T (t - t0)) as [Hyes | Hno]; [lia |].
  pose proof (sleep_advances e 500 t).
  change Poller.E2E.tick with 500. apply IH; lia.
Qed.

Lemma live_poll_succeeds (e : Poller.env) (desc : string) (t0 T J deadline : Z) :
  Poller.turns_true_at e t0 T ->
  Poller.jitter_le e J ->
  t0 + T + Poller.Live.tick + J <= deadline ->
  forall (fuel : nat) (last_error : option exn) (t : Z),
    t < t0 + T + Poller.Live.tick + J ->
    deadline - t < Z.of_nat fuel * Poller.Live.tick ->
    exists t', Poller.Live.poll fuel e desc deadline last_error t = Some (Ok tt, t').
Proof.
  intros Hturn Hjit Hdl. change Poller.Live.tick with 400 in *.
  induction fuel as [| fuel IH]; intros last_error t Ht Hfuel; simpl;
    destruct (Z.ltb_spec t deadline) as [Hlt | Hge]; try lia.
  rewrite Hturn. destruct (Z.leb_spec T (t - t0)) as [Hyes | Hno]; [eauto |].
  pose proof (sleep_advances e 400 t). pose proof (sleep_bounded e 400 t J Hjit).
  change Poller.Live.tick with 400. apply IH; lia.
Qed.

Lemma live_poll_times_out (e : Poller.env) (desc : string) (t0 T deadline : Z) :
  Poller.turns_true_at e t0 T ->
  deadline <= t0 + T ->
  forall (fuel : nat) (t : Z),
    deadline - t < Z.of_nat fuel * Poller.Live.tick ->
    exists t',
      Poller.Live.poll fuel e desc deadline None t
      = Some (Raise (mkExn TimeoutError (Poller.timeout_message desc)), t').
Proof.
  intros Hturn Hdl. change Poller.Live.tick with 400 in *.
  induction fuel as [| fuel IH]; intros t Hfuel; simpl;
    destruct (Z.ltb_spec t deadline) as [Hlt | Hge]; try lia; eauto.
  rewrite Hturn. destruct (Z.leb_spec T (t - t0)) as [Hyes | Hno]; [lia |].
  pose proof (sleep_advances e 400 t).
  change Poller.Live.tick with 400. apply IH; lia.
Qed.

(** C5 (as the code has it): for a condition that is false before [t0 + T]
    and true from then on, in an environment whose extra delay per pass is at
    most [J], wait_until returns normally when the timeout is at least
    [T] plus one polling pause (500 ms in the e2e script, 400 ms in the live
    script) plus [J], and raises its TimeoutError when the timeout is at most
    [T]. *)
Theorem wait_until_step_condition
  (e : Poller.env) (desc : string) (t0 T J timeout_s : Z)
  (Hturn : Poller.turns_true_at e t0 T)
  (Hjit : Poller.jitter_le e J)
  (HT : 0 <= T) :
  (T + 500 + J <= timeout_s ->
   exists t', Poller.E2E.wait_until e desc timeout_s t0 = Some (Ok tt, t'))
  /\ (timeout_s <= T ->
      exists t',
        Poller.E2E.wait_until e desc timeout_s t0
        = Some (Raise (mkExn TimeoutError (Poller.timeout_message desc)), t'))
  /\ (T + 400 + J <= timeout_s ->
      exists t', Poller.Live.wait_until e desc timeout_s t0 = Some (Ok tt, t'))
  /\ (timeout_s <= T ->
      exists t',
        Poller.Live.wait_until e desc timeout_s t0
        = Some (Raise (mkExn TimeoutError (Poller.timeout_message desc)), t')).
Proof.
  pose proof (passes_enough Poller.E2E.tick timeout_s ltac:(reflexivity)) as H500.
  pose proof (passes_enough Poller.Live.tick timeout_s ltac:(reflexivity)) as H400.
  assert (HJ : 0 <= J) by (specialize (Hjit 0); lia).
  unfold Poller.E2E.wait_until, Poller.Live.wait_until. cbv zeta.
  repeat apply conj; intro Hbound.
  - apply (e2e_poll_succeeds e desc t0 T J); auto;
      change Poller.E2E.tick with 500 in *; lia.
  - apply (e2e_poll_times_out e desc t0 T); auto; lia.
  - apply (live_poll_succeeds e desc t0 T J); auto;
      change Poller.Live.tick with 400 in *; lia.
  - apply (live_poll_times_out e desc t0 T); auto; lia.
Qed.

Lemma step_env_turns_true (t0 T : Z) : Poller.turns_true_at (Poller.step_env t0 T) t0 T.
Proof. intro t. reflexivity. Qed.

Lemma step_env_no_jitter (t0 T : Z) : Poller.jitter_le (Poller.step_env t0 T) 0.
Proof. intro t. simpl. lia. Qed.

Lemma wait_until_step_condition_witness :
  Poller.turns_true_at (Poller.step_env 0 300) 0 300
  /\ Poller.jitter_le (Poller.step_env 0 300) 0
  /\ 0 <= 300
  /\ (exists t', Poller.E2E.wait_until (Poller.step_env 0 300) "message replicated to B" 800 0
                 = Some (Ok tt, t'))
  /\ (exists t', Poller.Live.wait_until (Poller.step_env 0 300) "message replicated to B" 200 0
                 = Some (Raise (mkExn TimeoutError
                                  (Poller.timeout_message "message replicated to B")), t')).
Proof.
  pose proof (wait_until_step_condition (Poller.step_env 0 300)
                "message replicated to B" 0 300 0 800
                (step_env_turns_true 0 300) (step_env_no_jitter 0 300)
                ltac:(lia)) as H800.
  pose proof (wait_until_step_condition (Poller.step_env 0 300)
                "message replicated to B" 0 300 0 200
                (step_env_turns_true 0 300) (step_env_no_jitter 0 300)
                ltac:(lia)) as H200.
  split; [apply step_env_turns_true |].
  split; [apply step_env_no_jitter |].
  split; [lia |].
  split.
  - apply (proj1 H800). lia.
  - apply (proj2 (proj2 (proj2 H200))). lia.
Defined.

(** C5 as stated fails in both scripts: a condition that turns true 300 ms
    after the call, polled in the ideal environment with a timeout of 400 ms
    (399 ms in the live script; both more than 300), still ends in
    TimeoutError, because the condition is looked at only at the call and
    then after each pause. *)
Lemma wait_until_misses_between_polls :
  Poller.turns_true_at (Poller.step_env 0 300) 0 300
  /\ 300 < 399 < 400
  /\ Poller.E2E.wait_until (Poller.step_env 0 300) "message replicated to B" 400 0
     = Some (Raise (mkExn TimeoutError
                      (Poller.timeout_message "message replicated to B")), 500)
  /\ Poller.Live.wait_until (Poller.step_env 0 300) "message replicated to B" 399 0
     = Some (Raise (mkExn TimeoutError
                      (Poller.timeout_message "message replicated to B")), 400).
Proof.
  split; [apply step_env_turns_true |].
  split; [lia |].
  split; vm_compute; reflexivity.
Qed.

(** ** The gateway client *)

(** C9: close returns normally in every state of the session and of its
    surroundings -- socket present or absent, connection up or down,
    [ws.close()] raising or not -- leaves the client without a socket, and
    does so again when called a second time. *)
Theorem close_never_raises (c : Gateway.GatewayClient) (w : Gateway.world) :
  exists c' w',
    Gateway.close c w = Some (Ok tt, c', w')
    /\ Gateway.ws c' = None
    /\ Gateway.backlog c' = Gateway.backlog c
    /\ Gateway.close c' w' = Some (Ok tt, c', w').
Proof.
  unfold Gateway.close, Gateway.bind, Gateway.self, Gateway.attempt,
    Gateway.ws_close, Gateway.update, Gateway.ret.
  destruct (Gateway.ws c) as [s |] eqn:Hws.
  - destruct (Gateway.close_fault w) as [x |];
      do 2 eexists; (split; [reflexivity |]); simpl; auto.
  - exists c, w. rewrite Hws. auto.
Qed.

Local Close Scope string_scope.

(** The eight cases of [polled], with fixed names for what each brings. *)
Ltac polled_cases Hp x w1 :=
  inversion Hp as [Pal | Pal Pq | fa fd frest Pal Pin Pa | fa fy frest Pal Pin Py Pa
                   | fa frest Pal Pin Pa | fa fe frest Pal Pin Pa Pt
                   | fa fe frest Pal Pin Pa Pt Pc | fa fe frest Pal Pin Pa Pt Pc];
  subst x w1.

(** A loop that ends in the state at hand. *)
Ltac ends_with := do 3 eexists; split; [reflexivity | eauto].

Section GatewaySteps.
Import Gateway.

Lemma maybe_heartbeat_eq (c : GatewayClient) (w : world) :
  _maybe_heartbeat c w = Some (Ok tt, after_hb_c c w, after_hb_w c w).
Proof.
  unfold after_hb_c, after_hb_w, due.
  cbv beta iota delta [_maybe_heartbeat bind self monotonic attempt send ws_send
                       update ret].
  destruct (ws c) as [s |] eqn:Hws; [| reflexivity].
  destruct (9 * heartbeat_interval_s c <=? 10 * (now w - last_heartbeat_at c));
    [| rewrite andb_false_r; reflexivity].
  cbv beta iota. rewrite Hws, andb_true_r. unfold wrote_heartbeat.
  destruct (alive w); reflexivity.
Qed.

Lemma after_hb_w_frame (c : GatewayClient) (w : world) :
  now (after_hb_w c w) = now w
  /\ inbox (after_hb_w c w) = inbox w
  /\ alive (after_hb_w c w) = alive w
  /\ close_fault (after_hb_w c w) = close_fault w
  /\ next_obj (after_hb_w c w) = next_obj w.
Proof. unfold after_hb_w. destruct (due c w); simpl; auto. Qed.

Lemma after_hb_c_frame (c : GatewayClient) (w : world) :
  name (after_hb_c c w) = name c
  /\ ws (after_hb_c c w) = ws c
  /\ heartbeat_interval_s (after_hb_c c w) = heartbeat_interval_s c
  /\ backlog (after_hb_c c w) = backlog c.
Proof. unfold after_hb_c. destruct (due c w); simpl; auto. Qed.

Lemma after_hb_w_dead (c : GatewayClient) (w : world) :
  alive w = false -> after_hb_w c w = w /\ after_hb_c c w = c.
Proof.
  intro H. unfold after_hb_w, after_hb_c, due. rewrite H.
  destruct (ws c); auto.
Qed.

Lemma timeout_not_closed (e : exn) : is_timeout e = true -> is_closed e = false.
Proof. unfold is_timeout, is_closed. destruct (exn_cls e); congruence. Qed.

Lemma poll_once_unconnected (timeout : Z) (c : GatewayClient) (w : world) :
  ws c = None -> _poll_once timeout c w = Some (Raise (not_connected c), c, w).
Proof.
  intro H. unfold _poll_once, bind, self, raise. rewrite H. reflexivity.
Qed.

(** A read iteration of [_poll_once] on a connected client: the keepalive
    check, then one of the readings that [polled] lists. *)
Lemma poll_once_polled (timeout : Z) (c : GatewayClient) (w : world) (s : socket) :
  ws c = Some s ->
  exists x w',
    _poll_once timeout c w = Some (poll_result c x, after_hb_c c w, w')
    /\ polled timeout c w x w'.
Proof.
  intro Hws.
  destruct (after_hb_w_frame c w) as (Hnow & Hin & Hal & Hcf & Hnx).
  cbv beta iota delta [_poll_once bind self]. rewrite Hws, maybe_heartbeat_eq.
  cbv beta iota delta [attempt ws_recv bind ret raise new_object].
  rewrite Hnow, Hin, Hal, Hcf, Hnx.
  destruct (alive w) eqn:Halive.
  - destruct (inbox w) as [| [a x] rest] eqn:Hinbox.
    + exists Nothing. eexists. split; [reflexivity |].
      pose proof (polled_quiet timeout c w Halive) as P. rewrite Hinbox in P.
      exact (P I).
    + destruct (Z.ltb_spec a (now w + timeout)) as [Hlt | Hge].
      * destruct x as [[j |] | | e].
        -- destruct j;
             try (exists Nothing; eexists; (split; [reflexivity |]);
                  eapply polled_other; eauto; fail).
           eexists (Object _). eexists. split; [reflexivity |].
           cbn [now inbox outbox alive close_fault next_obj].
           eapply polled_dict; eauto.
        -- exists Nothing. eexists. split; [reflexivity |]. eapply polled_other; eauto.
        -- exists Lost. eexists. split; [reflexivity |]. eapply polled_hangup; eauto.
        -- cbv beta iota zeta.
           destruct (is_timeout e) eqn:Ht.
           ++ rewrite (timeout_not_closed e Ht).
              exists Nothing. eexists. split; [reflexivity |].
              eapply polled_fault_timeout; eauto.
           ++ destruct (is_closed e) eqn:Hc.
              ** exists Lost. eexists. split; [reflexivity |].
                 eapply polled_fault_closed; eauto.
              ** exists (Broken e). eexists. split; [reflexivity |].
                 eapply polled_fault; eauto.
      * exists Nothing. eexists. split; [reflexivity |].
        pose proof (polled_quiet timeout c w Halive) as P. rewrite Hinbox in P.
        exact (P Hge).
  - destruct (after_hb_w_dead c w Halive) as [-> ->].
    exists Lost. eexists. split; [reflexivity |]. now apply polled_dead.
Qed.

End GatewaySteps.

Section GatewayLoops.
Import Gateway.

Lemma handle_frame_eq (event_type : string) (p : predicate) (seen : list string)
  (m : msg) (c : GatewayClient) (w : world) :
  handle_frame event_type p seen m c w
  = match dispatch_type m with
    | Some t =>
        match entry_matches event_type p m with
        | Ok true => Some (Ok (inl m), c, w)
        | Ok false =>
            Some (Ok (inr (note_seen seen t)), set_backlog (backlog c ++ [m]) c, w)
        | Raise e => Some (Raise e, c, w)
        end
    | None => Some (Ok (inr seen), c, w)
    end.
Proof.
  unfold handle_frame, dispatch_type, entry_matches.
  destruct (msg_get m "t") as [| b | n | t | xs | kvs]; try reflexivity.
  destruct (py_eq_int (msg_get m "op") 0); [| reflexivity].
  simpl. destruct (String.eqb t event_type); simpl; [| reflexivity].
  destruct (msg_get m "d") as [| b | n | t' | xs | kvs]; try reflexivity.
  destruct (holds p kvs) as [[|] | e]; reflexivity.
Qed.

Lemma entry_matches_dict (event_type : string) (p : predicate) (m : msg) :
  entry_matches event_type p m <> Ok false -> has_dict_payload m = true.
Proof.
  unfold entry_matches, has_dict_payload.
  destruct (_ || _); [congruence |].
  destruct (msg_get m "d"); congruence.
Qed.

Lemma scan_backlog_shift (event_type : string) (p : predicate) (l : list msg) :
  forall i,
    scan_backlog event_type p (S i) l
    = match scan_backlog event_type p i l with
      | Ok o => Ok (option_map S o)
      | Raise e => Raise e
      end.
Proof.
  induction l as [| x l IH]; intro i; simpl; [reflexivity |].
  destruct (entry_matches event_type p x) as [[|] | e]; [reflexivity | apply IH | reflexivity].
Qed.

(** The scan stops at the oldest item on which the test does not answer
    False: if it answers True, popping that index takes exactly that item
    out; if the predicate raises there, the scan raises. *)
Lemma scan_backlog_spec (event_type : string) (p : predicate) (l : list msg) :
  match scan_backlog event_type p 0 l with
  | Ok (Some idx) =>
      exists pre m post,
        l = pre ++ m :: post
        /\ Forall (fun x => entry_matches event_type p x = Ok false) pre
        /\ entry_matches event_type p m = Ok true
        /\ list_pop idx l = Some (m, pre ++ post)
  | Ok None => Forall (fun x => entry_matches event_type p x = Ok false) l
  | Raise e =>
      exists pre m post,
        l = pre ++ m :: post
        /\ Forall (fun x => entry_matches event_type p x = Ok false) pre
        /\ entry_matches event_type p m = Raise e
  end.
Proof.
  induction l as [| x l IH]; simpl; [constructor |].
  destruct (entry_matches event_type p x) as [[|] | e] eqn:Hx.
  - exists [], x, l. simpl. auto.
  - rewrite scan_backlog_shift.
    destruct (scan_backlog event_type p 0 l) as [[idx |] | e]; simpl.
    + destruct IH as (pre & m & post & -> & Hpre & Hm & Hpop).
      exists (x :: pre), m, post. simpl. rewrite Hpop. auto.
    + constructor; assumption.
    + destruct IH as (pre & m & post & -> & Hpre & Hm).
      exists (x :: pre), m, post. simpl. auto.
  - exists [], x, l. simpl. auto.
Qed.

Lemma scan_backlog_first (event_type : string) (p : predicate)
  (pre post : list msg) (m : msg) :
  Forall (fun x => entry_matches event_type p x = Ok false) pre ->
  entry_matches event_type p m = Ok true ->
  scan_backlog event_type p 0 (pre ++ m :: post) = Ok (Some (List.length pre))
  /\ list_pop (List.length pre) (pre ++ m :: post) = Some (m, pre ++ post).
Proof.
  intros Hpre Hm. induction Hpre as [| x pre Hx Hpre IH]; simpl.
  - rewrite Hm. auto.
  - rewrite Hx, scan_backlog_shift. destruct IH as [-> ->]. auto.
Qed.

Lemma scan_backlog_none (event_type : string) (p : predicate) (l : list msg) :
  Forall (fun x => entry_matches event_type p x = Ok false) l ->
  scan_backlog event_type p 0 l = Ok None.
Proof.
  intro H. generalize 0%nat.
  induction H as [| x l Hx Hl IH]; intro i; simpl; [reflexivity |].
  rewrite Hx. apply IH.
Qed.

Lemma find_in_backlog_hit (event_type : string) (p : predicate)
  (c : GatewayClient) (w : world) (pre post : list msg) (m : msg) :
  backlog c = pre ++ m :: post ->
  Forall (fun x => entry_matches event_type p x = Ok false) pre ->
  entry_matches event_type p m = Ok true ->
  _find_in_backlog event_type p c w = Some (Ok (Some m), set_backlog (pre ++ post) c, w).
Proof.
  intros Hb Hpre Hm.
  destruct (scan_backlog_first event_type p pre post m Hpre Hm) as [Hscan Hpop].
  cbv beta iota delta [_find_in_backlog bind self].
  rewrite Hb, Hscan, Hpop. reflexivity.
Qed.

Lemma find_in_backlog_none (event_type : string) (p : predicate)
  (c : GatewayClient) (w : world) :
  Forall (fun x => entry_matches event_type p x = Ok false) (backlog c) ->
  _find_in_backlog event_type p c w = Some (Ok None, c, w).
Proof.
  intro H. cbv beta iota delta [_find_in_backlog bind self].
  now rewrite (scan_backlog_none event_type p (backlog c) H).
Qed.

(** The three ways [_find_in_backlog] ends. *)
Lemma find_in_backlog_cases (event_type : string) (p : predicate)
  (c : GatewayClient) (w : world) :
  (exists pre m post,
      backlog c = pre ++ m :: post
      /\ Forall (fun x => entry_matches event_type p x = Ok false) pre
      /\ entry_matches event_type p m = Ok true
      /\ _find_in_backlog event_type p c w
         = Some (Ok (Some m), set_backlog (pre ++ post) c, w))
  \/ (Forall (fun x => entry_matches event_type p x = Ok false) (backlog c)
      /\ _find_in_backlog event_type p c w = Some (Ok None, c, w))
  \/ (exists e pre m post,
         backlog c = pre ++ m :: post
         /\ Forall (fun x => entry_matches event_type p x = Ok false) pre
         /\ entry_matches event_type p m = Raise e
         /\ _find_in_backlog event_type p c w = Some (Raise e, c, w)).
Proof.
  pose proof (scan_backlog_spec event_type p (backlog c)) as H.
  destruct (scan_backlog event_type p 0 (backlog c)) as [[idx |] | e] eqn:Hscan.
  - left. destruct H as (pre & m & post & Hb & Hpre & Hm & Hpop).
    exists pre, m, post. repeat split; try assumption.
    now apply find_in_backlog_hit.
  - right. left. split; [assumption |].
    cbv beta iota delta [_find_in_backlog bind self]. rewrite Hscan. reflexivity.
  - right. right. destruct H as (pre & m & post & Hb & Hpre & Hm).
    exists e, pre, m, post. repeat split; try assumption.
    cbv beta iota delta [_find_in_backlog bind self]. rewrite Hscan. reflexivity.
Qed.

Lemma dispatch_loop_exit (fuel : nat) (event_type : string) (p : predicate)
  (deadline : Z) (seen : list string) (c : GatewayClient) (w : world) :
  deadline <= now w ->
  dispatch_loop fuel event_type p deadline seen c w
  = Some (Raise (timed_out_waiting c event_type seen), c, w).
Proof.
  intro H. destruct fuel; simpl;
    (destruct (Z.ltb_spec (now w) deadline); [lia | reflexivity]).
Qed.

Lemma dispatch_loop_pass (fuel : nat) (event_type : string) (p : predicate)
  (deadline : Z) (seen : list string) (c : GatewayClient) (w : world) :
  now w < deadline ->
  dispatch_loop (S fuel) event_type p deadline seen c w
  = match _poll_once 500 c w with
    | None => None
    | Some (Raise e, c1, w1) => Some (Raise e, c1, w1)
    | Some (Ok None, c1, w1) => dispatch_loop fuel event_type p deadline seen c1 w1
    | Some (Ok (Some m), c1, w1) =>
        match handle_frame event_type p seen m c1 w1 with
        | None => None
        | Some (Raise e, c2, w2) => Some (Raise e, c2, w2)
        | Some (Ok (inl answer), c2, w2) => Some (Ok answer, c2, w2)
        | Some (Ok (inr seen'), c2, w2) =>
            dispatch_loop fuel event_type p deadline seen' c2 w2
        end
    end.
Proof.
  intro H. cbn [dispatch_loop].
  destruct (Z.ltb_spec (now w) deadline); [| lia].
  unfold bind at 1.
  destruct (_poll_once 500 c w) as [[[[[m |] | e] c1] w1] |]; try reflexivity.
  unfold bind, ret.
  destruct (handle_frame event_type p seen m c1 w1) as [[[[[a | s] | e] c2] w2] |];
    reflexivity.
Qed.

(** A proof rule for the receive loop of wait_dispatch: an invariant [Inv]
    of the passes and a property [Q] of the way the loop ends. *)
Section DispatchRule.
Variables (event_type : string) (p : predicate) (deadline : Z).
Variable Inv : list string -> GatewayClient -> world -> Prop.
Variable Q : outcome msg -> GatewayClient -> world -> Prop.

Hypothesis at_deadline :
  forall seen c w,
    Inv seen c w -> deadline <= now w ->
    Q (Raise (timed_out_waiting c event_type seen)) c w.

Hypothesis unconnected :
  forall seen c w,
    Inv seen c w -> now w < deadline -> ws c = None ->
    Q (Raise (not_connected c)) c w.

Hypothesis one_pass :
  forall seen c w s x w1,
    Inv seen c w -> now w < deadline -> ws c = Some s ->
    polled 500 c w x w1 ->
    let c1 := after_hb_c c w in
    match x with
    | Lost => Q (Raise (closed_unexpectedly c)) c1 w1
    | Broken e => Q (Raise e) c1 w1
    | Nothing => Inv seen c1 w1
    | Object m =>
        match dispatch_type m with
        | Some t =>
            match entry_matches event_type p m with
            | Ok true => Q (Ok m) c1 w1
            | Ok false => Inv (note_seen seen t) (set_backlog (backlog c1 ++ [m]) c1) w1
            | Raise e => Q (Raise e) c1 w1
            end
        | None => Inv seen c1 w1
        end
    end.

Lemma dispatch_loop_rule :
  forall (fuel k : nat) (seen : list string) (c : GatewayClient) (w : world),
    Inv seen c w ->
    deadline - now w <= 500 * Z.of_nat k ->
    (List.length (inbox w) + k <= fuel)%nat ->
    exists r c' w',
      dispatch_loop fuel event_type p deadline seen c w = Some (r, c', w')
      /\ Q r c' w'.
Proof.
  induction fuel as [| fuel IH]; intros k seen c w HI Hk Hfuel.
  - destruct (Z.lt_ge_cases (now w) deadline) as [Hlt | Hge]; [lia |].
    rewrite dispatch_loop_exit by assumption. ends_with.
  - destruct (Z.lt_ge_cases (now w) deadline) as [Hlt | Hge].
    2:{ rewrite dispatch_loop_exit by assumption. ends_with. }
    rewrite dispatch_loop_pass by assumption.
    destruct (ws c) as [s |] eqn:Hws.
    2:{ rewrite poll_once_unconnected by assumption. ends_with. }
    destruct (poll_once_polled 500 c w s Hws) as (x & w1 & -> & Hp).
    pose proof (one_pass seen c w s x w1 HI Hlt Hws Hp) as Hstep.
    cbv zeta in Hstep.
    inversion Hp as [Hal | Hal Hq | a d rest Hal Hin Ha | a y rest Hal Hin Hy Ha
                     | a rest Hal Hin Ha | a e rest Hal Hin Ha Ht
                     | a e rest Hal Hin Ha Ht Hc | a e rest Hal Hin Ha Ht Hc];
      subst x w1; cbn [poll_result].
    + ends_with.
    + apply (IH (Nat.pred k)); [assumption | cbn [now]; lia | cbn [inbox]; lia].
    + rewrite handle_frame_eq.
      destruct (dispatch_type _) as [t |].
      * destruct (entry_matches event_type p _) as [[|] | e]; [ends_with | | ends_with].
        apply (IH k); [assumption | cbn [now set_backlog]; lia |].
        cbn [inbox]. rewrite Hin in Hfuel. cbn [List.length] in Hfuel. lia.
      * apply (IH k); [assumption | cbn [now set_backlog]; lia |].
        cbn [inbox]. rewrite Hin in Hfuel. cbn [List.length] in Hfuel. lia.
    + apply (IH k); [assumption | cbn [now]; lia |].
      cbn [inbox]. rewrite Hin in Hfuel. cbn [List.length] in Hfuel. lia.
    + ends_with.
    + apply (IH k); [assumption | cbn [now]; lia |].
      cbn [inbox]. rewrite Hin in Hfuel. cbn [List.length] in Hfuel. lia.
    + ends_with.
    + ends_with.
Qed.

End DispatchRule.

Lemma fuel_for_enough (tick span : Z) (n : nat) :
  0 < tick ->
  exists k : nat, span <= tick * Z.of_nat k /\ (n + k <= fuel_for tick span n)%nat.
Proof.
  intro Htick. exists (Z.to_nat (span / tick + 1)). split; [| unfold fuel_for; lia].
  pose proof (passes_enough tick span Htick) as H. unfold Poller.passes in H. lia.
Qed.

End GatewayLoops.

Section GatewayBacklog.
Import Gateway.

Lemma ids_app (l1 l2 : list msg) : ids (l1 ++ l2) = ids l1 ++ ids l2.
Proof. apply map_app. Qed.

Lemma fresh_not_in (lo hi : nat) (l : list msg) (n : nat) :
  Forall (fun m => (lo <= obj_id m < hi)%nat) l -> (hi <= n)%nat -> ~ In n (ids l).
Proof.
  intros Hall Hn Hin. unfold ids in Hin. apply in_map_iff in Hin as (m & <- & Hm).
  rewrite Forall_forall in Hall. specialize (Hall m Hm). lia.
Qed.

Lemma fresh_weaken (lo hi hi' : nat) (l : list msg) :
  Forall (fun m => (lo <= obj_id m < hi)%nat) l -> (hi <= hi')%nat ->
  Forall (fun m => (lo <= obj_id m < hi')%nat) l.
Proof.
  intros Hall Hle. eapply Forall_impl; [| exact Hall]. simpl. intros m Hm. lia.
Qed.

Lemma nodup_snoc (l : list msg) (m : msg) :
  NoDup (ids l) -> ~ In (obj_id m) (ids l) -> NoDup (ids (l ++ [m])).
Proof.
  intros Hnd Hnot. rewrite ids_app. simpl.
  apply NoDup_app; [assumption | repeat constructor; intros [] | ].
  intros n Hn [<- | []]. contradiction.
Qed.

(** The receive loop of wait_dispatch, started in [c0], [w0] with enough
    fuel, ends, and ends as [answered] says. *)
Lemma dispatch_loop_answered (event_type : string) (p : predicate) (deadline : Z)
  (c0 : GatewayClient) (w0 : world) (seen : list string) (fuel k : nat) :
  deadline - now w0 <= 500 * Z.of_nat k ->
  (List.length (inbox w0) + k <= fuel)%nat ->
  exists r c' w',
    dispatch_loop fuel event_type p deadline seen c0 w0 = Some (r, c', w')
    /\ answered event_type p c0 w0 r c' w'.
Proof.
  intros Hk Hfuel.
  apply (dispatch_loop_rule event_type p deadline
           (fun _ c w => answered event_type p c0 w0 (Raise (not_connected c0)) c w)
           (answered event_type p c0 w0)) with (k := k); try assumption.
  - intros seen' c w HI _. exact HI.
  - intros seen' c w HI _ _. exact HI.
  - intros seen' c w s x w1 (Hnext & added & Hb & Hfresh & Hnd & _) _ _ Hp.
    destruct (after_hb_c_frame c w) as (_ & _ & _ & Hbl).
    cbv zeta.
    inversion Hp as [Hal | Hal Hq | a d rest Hal Hin Ha | a y rest Hal Hin Hy Ha
                     | a rest Hal Hin Ha | a e rest Hal Hin Ha Ht
                     | a e rest Hal Hin Ha Ht Hc | a e rest Hal Hin Ha Ht Hc];
      subst x w1;
      try (split; [exact Hnext |]; exists added; rewrite Hbl; cbn [next_obj]; auto; fail).
    assert (Hw : Forall (fun m => (next_obj w0 <= obj_id m < S (next_obj w))%nat) added)
      by (eapply fresh_weaken; [exact Hfresh | lia]).
    assert (Hnot : ~ In (next_obj w) (ids added))
      by (eapply fresh_not_in; [exact Hfresh | lia]).
    destruct (dispatch_type _) as [t |].
    + destruct (entry_matches event_type p _) as [[|] | e] eqn:Hm.
      * split; [cbn [next_obj]; lia |]. exists added. rewrite Hbl.
        cbn [next_obj obj_id]. repeat split; auto; lia.
      * split; [cbn [next_obj]; lia |].
        exists (added ++ [mkMsg (next_obj w) d]).
        cbn [set_backlog backlog next_obj]. rewrite Hbl, Hb, <- app_assoc.
        repeat split; auto.
        -- apply Forall_app. split; [assumption |].
           constructor; [cbn [obj_id]; lia | constructor].
        -- now apply nodup_snoc.
      * split; [cbn [next_obj]; lia |]. exists added. rewrite Hbl.
        cbn [next_obj]. auto.
    + split; [cbn [next_obj]; lia |]. exists added. rewrite Hbl.
      cbn [next_obj]. auto.
  - split; [lia |]. exists []. rewrite app_nil_r. repeat split; auto. constructor.
Qed.

(** What every call of wait_dispatch does: it ends; and either it took the
    oldest matching item off the backlog and touched nothing else, or the
    backlog held no match and the receive loop ran, or the predicate raised
    during the scan of the backlog and nothing was touched. *)
Lemma wait_dispatch_spec (event_type : string) (p : predicate) (timeout_s : Z)
  (c : GatewayClient) (w : world) :
  exists r c' w',
    wait_dispatch event_type p timeout_s c w = Some (r, c', w')
    /\ ((exists pre m post,
            backlog c = pre ++ m :: post
            /\ Forall (fun x => entry_matches event_type p x = Ok false) pre
            /\ entry_matches event_type p m = Ok true
            /\ r = Ok m /\ c' = set_backlog (pre ++ post) c /\ w' = w)
        \/ (Forall (fun x => entry_matches event_type p x = Ok false) (backlog c)
            /\ answered event_type p c w r c' w')
        \/ (exists e pre m post,
               backlog c = pre ++ m :: post
               /\ Forall (fun x => entry_matches event_type p x = Ok false) pre
               /\ entry_matches event_type p m = Raise e
               /\ r = Raise e /\ c' = c /\ w' = w)).
Proof.
  destruct (find_in_backlog_cases event_type p c w)
    as [(pre & m & post & Hb & Hpre & Hm & Hfind)
       | [(Hnone & Hfind) | (e & pre & m & post & Hb & Hpre & Hm & Hfind)]].
  - exists (Ok m), (set_backlog (pre ++ post) c), w. split.
    + unfold wait_dispatch, bind. rewrite Hfind. reflexivity.
    + left. exists pre, m, post. auto 10.
  - destruct (fuel_for_enough 500 timeout_s (List.length (inbox w)) ltac:(lia))
      as (k & Hk & Hfuel).
    destruct (dispatch_loop_answered event_type p (now w + timeout_s) c w []
                (fuel_for 500 timeout_s (List.length (inbox w))) k
                ltac:(lia) Hfuel) as (r & c' & w' & Hrun & Hans).
    exists r, c', w'. split.
    + unfold wait_dispatch, bind. rewrite Hfind. exact Hrun.
    + right. left. auto.
  - exists (Raise e), c, w. split.
    + unfold wait_dispatch, bind. rewrite Hfind. reflexivity.
    + right. right. exists e, pre, m, post. auto 10.
Qed.

Lemma wait_dispatch_answer_matches (event_type : string) (p : predicate)
  (timeout_s : Z) (c : GatewayClient) (w : world) (m : msg)
  (c' : GatewayClient) (w' : world) :
  wait_dispatch event_type p timeout_s c w = Some (Ok m, c', w') ->
  entry_matches event_type p m = Ok true.
Proof.
  intro Hrun.
  destruct (wait_dispatch_spec event_type p timeout_s c w)
    as (r & c1 & w1 & Heq
        & [(pre & m1 & post & _ & _ & Hm & -> & _)
          | [(_ & Hans) | (e & pre & m1 & post & _ & _ & _ & -> & _)]]);
    rewrite Hrun in Heq; inversion Heq; subst.
  - assumption.
  - destruct Hans as (_ & added & _ & _ & _ & _ & _ & Hm). exact Hm.
Qed.

(** An item on which the test of the call answers False stays on the
    backlog. *)
Lemma wait_dispatch_keeps_unmatched (event_type : string) (p : predicate)
  (timeout_s : Z) (c : GatewayClient) (w : world) (r : outcome msg)
  (c' : GatewayClient) (w' : world) (x : msg) :
  wait_dispatch event_type p timeout_s c w = Some (r, c', w') ->
  In x (backlog c) -> entry_matches event_type p x = Ok false ->
  In x (backlog c').
Proof.
  intros Hrun Hx Hno.
  destruct (wait_dispatch_spec event_type p timeout_s c w)
    as (r1 & c1 & w1 & Heq
        & [(pre & m & post & Hb & _ & Hm & _ & -> & _)
          | [(_ & Hans) | (e & pre & m & post & _ & _ & _ & _ & -> & _)]]);
    rewrite Hrun in Heq; inversion Heq; subst.
  - cbn [set_backlog backlog]. rewrite Hb in Hx.
    apply in_app_or in Hx as [Hx | [-> | Hx]]; [| congruence |];
      apply in_or_app; auto.
  - destruct Hans as (_ & added & -> & _). apply in_or_app. auto.
  - exact Hx.
Qed.


End GatewayBacklog.

Section GatewayRuns.
Import Gateway.

Lemma run_await_eq (event_type : string) (p : predicate) (timeout_s : Z)
  (rest : list action) (c : GatewayClient) (w : world) :
  run (Await event_type p timeout_s :: rest) c w
  = match wait_dispatch event_type p timeout_s c w with
    | None => None
    | Some (r, c1, w1) =>
        match run rest c1 w1 with
        | Some (Ok rs, c2, w2) => Some (Ok ((now w, r) :: rs), c2, w2)
        | Some (Raise e, c2, w2) => Some (Raise e, c2, w2)
        | None => None
        end
    end.
Proof.
  cbn [run]. cbv beta iota delta [bind monotonic attempt ret].
  destruct (wait_dispatch event_type p timeout_s c w) as [[[r c1] w1] |];
    [| reflexivity].
  destruct (run rest c1 w1) as [[[[rs | e] c2] w2] |]; reflexivity.
Qed.

Lemma run_idle_eq (d : N) (rest : list action) (c : GatewayClient) (w : world) :
  run (Idle d :: rest) c w
  = run rest c (mkWorld (now w + Z.of_N d) (inbox w) (outbox w) (alive w)
                        (close_fault w) (next_obj w)).
Proof. reflexivity. Qed.



Lemma no_dict_no_match (event_type : string) (p : predicate) (x : msg) :
  has_dict_payload x = false -> entry_matches event_type p x = Ok false.
Proof.
  intro H. destruct (entry_matches event_type p x) as [[|] | e] eqn:E;
    try reflexivity;
    (assert (has_dict_payload x = true)
       by (apply (entry_matches_dict event_type p); congruence); congruence).
Qed.

(** Along every run an item without a dict payload stays on the backlog, and
    what is handed out has a dict payload. *)
Lemma run_keeps_non_dict (x : msg) (acts : list action) :
  has_dict_payload x = false ->
  forall (c : GatewayClient) (w : world),
    In x (backlog c) ->
    exists rs c' w',
      run acts c w = Some (Ok rs, c', w')
      /\ In x (backlog c')
      /\ Forall (fun m => has_dict_payload m = true) (returned rs).
Proof.
  intro Hx.
  induction acts as [| [event_type p timeout_s | d] rest IH]; intros c w Hin.
  - exists [], c, w. repeat split; [assumption | constructor].
  - destruct (wait_dispatch_spec event_type p timeout_s c w)
      as (r & c1 & w1 & Hrun & _).
    pose proof (wait_dispatch_keeps_unmatched event_type p timeout_s c w r c1 w1 x
                  Hrun Hin (no_dict_no_match event_type p x Hx)) as Hin1.
    destruct (IH c1 w1 Hin1) as (rs & c2 & w2 & Hrest & Hin2 & Hall).
    exists ((now w, r) :: rs), c2, w2. split; [| split; [assumption |]].
    + rewrite run_await_eq, Hrun, Hrest. reflexivity.
    + destruct r as [m | e]; cbn [returned]; [| assumption].
      constructor; [| assumption].
      apply (entry_matches_dict event_type p).
      rewrite (wait_dispatch_answer_matches _ _ _ _ _ _ _ _ Hrun). discriminate.
  - rewrite run_idle_eq. now apply IH.
Qed.

End GatewayRuns.

Section GatewayArrivals.
Import Gateway.

Lemma after_hb_c_ids (c : GatewayClient) (w : world) :
  token (after_hb_c c w) = token c /\ url (after_hb_c c w) = url c.
Proof. unfold after_hb_c. destruct (due c w); simpl; auto. Qed.

Lemma same_identity_refl (c : GatewayClient) : same_identity c c.
Proof. unfold same_identity. auto. Qed.

Lemma same_identity_trans (c1 c2 c3 : GatewayClient) :
  same_identity c1 c2 -> same_identity c2 c3 -> same_identity c1 c3.
Proof. unfold same_identity. intuition congruence. Qed.

Lemma same_identity_after_hb (c : GatewayClient) (w : world) :
  same_identity c (after_hb_c c w).
Proof.
  destruct (after_hb_c_frame c w) as (H1 & H2 & H3 & _).
  destruct (after_hb_c_ids c w) as (H4 & H5). unfold same_identity. auto.
Qed.

Lemma same_identity_set_backlog (c : GatewayClient) (l : list msg) :
  same_identity c (set_backlog l c).
Proof. unfold same_identity. auto. Qed.

Lemma entry_matches_body (event_type : string) (p : predicate) (m m' : msg) :
  body m = body m' -> entry_matches event_type p m = entry_matches event_type p m'.
Proof. intro H. unfold entry_matches, msg_get. now rewrite H. Qed.

Lemma dispatch_type_body (m m' : msg) :
  body m = body m' -> dispatch_type m = dispatch_type m'.
Proof. intro H. unfold dispatch_type, msg_get. now rewrite H. Qed.


Lemma objects_app (l1 l2 : list (Z * arrival)) :
  objects (l1 ++ l2) = (objects l1 + objects l2)%nat.
Proof.
  induction l1 as [| [a x] l1 IH]; [reflexivity |].
  cbn [app objects]. destruct x as [[j |] | | e]; try exact IH.
  destruct j; try exact IH. cbn [Nat.add]. now rewrite IH.
Qed.

Lemma built_app (l1 l2 : list (Z * arrival)) :
  forall n, built n (l1 ++ l2) = built n l1 ++ built (n + objects l1) l2.
Proof.
  induction l1 as [| [a x] l1 IH]; intro n.
  - cbn [app built objects]. now rewrite Nat.add_0_r.
  - cbn [app built objects]. destruct x as [[j |] | | e]; try apply IH.
    destruct j; try apply IH.
    rewrite IH, Nat.add_succ_r. cbn [Nat.add].
    destruct (dispatch_type _); reflexivity.
Qed.

Lemma clock_after_app (t : Z) (l1 l2 : list (Z * arrival)) :
  clock_after t (l1 ++ l2) = clock_after (clock_after t l1) l2.
Proof. unfold clock_after. apply fold_left_app. Qed.


Lemma advanced_refl (c : GatewayClient) (w : world) :
  alive w = true -> advanced c w [] c w.
Proof.
  intro H. unfold advanced. cbn [built objects]. rewrite app_nil_r, Nat.add_0_r.
  split; [apply same_identity_refl |]. auto.
Qed.

(** One frame read and passed over, then the rest. *)
Lemma advanced_cons (c c2 c1 : GatewayClient) (w w2 w1 : world)
  (f : Z * arrival) (frames : list (Z * arrival)) :
  same_identity c c2 ->
  backlog c2 = backlog c ++ built (next_obj w) [f] ->
  next_obj w2 = (next_obj w + objects [f])%nat ->
  now w2 = Z.max (now w) (fst f) ->
  advanced c2 w2 frames c1 w1 ->
  advanced c w (f :: frames) c1 w1.
Proof.
  intros Hid Hb Hn Hnow (Hid1 & Hb1 & Hal1 & Hn1 & Hnow1).
  unfold advanced. change (f :: frames) with ([f] ++ frames).
  rewrite built_app, objects_app, clock_after_app.
  split; [eapply same_identity_trans; eassumption |].
  split; [rewrite Hb1, Hb, Hn, <- app_assoc; reflexivity |].
  split; [exact Hal1 |]. split; [lia |].
  rewrite Hnow1, Hnow. reflexivity.
Qed.

(** A pass that reads nothing while the next frame has not arrived. *)
Lemma advanced_wait (c c2 c1 : GatewayClient) (w w2 w1 : world)
  (f : Z * arrival) (frames : list (Z * arrival)) :
  same_identity c c2 ->
  backlog c2 = backlog c ->
  next_obj w2 = next_obj w ->
  now w <= now w2 <= fst f ->
  advanced c2 w2 (f :: frames) c1 w1 ->
  advanced c w (f :: frames) c1 w1.
Proof.
  intros Hid Hb Hn Hnow (Hid1 & Hb1 & Hal1 & Hn1 & Hnow1).
  unfold advanced.
  split; [eapply same_identity_trans; eassumption |].
  split; [rewrite Hb1, Hb, Hn; reflexivity |].
  split; [exact Hal1 |]. split; [lia |].
  rewrite Hnow1.
  change (clock_after (Z.max (now w2) (fst f)) frames
          = clock_after (Z.max (now w) (fst f)) frames).
  rewrite !Z.max_r by lia. reflexivity.
Qed.

(** The receive loop of wait_dispatch reads the frames that arrive before
    its deadline and are no answer, one after the other, and goes on from
    the session that [advanced] describes. *)
Lemma dispatch_loop_skips (event_type : string) (p : predicate) (deadline : Z)
  (s : socket) :
  forall (fuel : nat) (others tail : list (Z * arrival)) (k : nat)
         (seen : list string) (c : GatewayClient) (w : world),
    ws c = Some s -> alive w = true ->
    inbox w = others ++ tail ->
    passed_over event_type p deadline others ->
    now w < deadline ->
    deadline - now w <= 500 * Z.of_nat k ->
    (List.length (inbox w) + k <= fuel)%nat ->
    exists fuel1 k1 seen1 c1 w1,
      dispatch_loop fuel event_type p deadline seen c w
      = dispatch_loop fuel1 event_type p deadline seen1 c1 w1
      /\ deadline - now w1 <= 500 * Z.of_nat k1
      /\ (List.length (inbox w1) + k1 <= fuel1)%nat
      /\ now w1 < deadline
      /\ inbox w1 = tail
      /\ advanced c w others c1 w1.
Proof.
  induction fuel as [| fuel IH]; intros others tail k seen c w Hws Hal Hin Hpo Hlt Hk Hfuel.
  { exfalso. lia. }
  destruct others as [| f others].
  { exists (S fuel), k, seen, c, w. do 5 (split; [auto |]). now apply advanced_refl. }
  apply Forall_cons_iff in Hpo as [[[Hno Hda] Hfa] Hpo].
  cbn [app] in Hin.
  rewrite dispatch_loop_pass by assumption.
  destruct (poll_once_polled 500 c w s Hws) as (x & w1 & -> & Hp).
  destruct (after_hb_c_frame c w) as (_ & Hws' & _ & Hbl).
  pose proof (same_identity_after_hb c w) as Hid.
  polled_cases Hp x w1; cbn [poll_result];
    try (rewrite Hin in Pin; injection Pin as Ef Erest; subst f frest;
         cbn [snd fst is_data frame_answers] in Hno, Hda, Hfa).
  - congruence.
  - rewrite Hin in Pq. destruct f as [a y]. cbn [fst] in *.
    destruct (IH ((a, y) :: others) tail (Nat.pred k) seen (after_hb_c c w)
                (mkWorld (now w + 500) (inbox w) (outbox (after_hb_w c w)) true
                         (close_fault w) (next_obj w)))
      as (fuel1 & k1 & seen1 & c1 & w1 & Heq & Hk1 & Hf1 & Hlt1 & Hin1 & Hadv);
      cbn [now inbox alive next_obj app]; try congruence; try lia.
    + constructor; [| exact Hpo]. split; [split; assumption | assumption].
    + exists fuel1, k1, seen1, c1, w1.
      do 5 (split; [assumption |]).
      refine (advanced_wait _ _ _ _ _ _ _ _ Hid Hbl _ _ Hadv); [reflexivity |].
      cbn [now fst]. lia.
  - (* a frame holding a JSON object *)
    rewrite handle_frame_eq.
    assert (Hm : entry_matches event_type p (mkMsg (next_obj w) fd) = Ok false)
      by (rewrite <- Hno; now apply entry_matches_body).
    rewrite Hm.
    destruct (dispatch_type (mkMsg (next_obj w) fd)) as [t |] eqn:Ht.
    + destruct (IH others tail k (note_seen seen t)
                  (set_backlog (backlog (after_hb_c c w) ++ [mkMsg (next_obj w) fd])
                               (after_hb_c c w))
                  (mkWorld (Z.max (now w) fa) (others ++ tail) (outbox (after_hb_w c w))
                           true (close_fault w) (S (next_obj w))))
        as (fuel1 & k1 & seen1 & c1 & w1 & Heq & Hk1 & Hf1 & Hlt1 & Hin1 & Hadv);
        cbn [now inbox alive next_obj set_backlog ws app]; try exact Hpo; try congruence;
        try lia.
      * rewrite Hin in Hfuel. cbn [List.length] in Hfuel. lia.
      * exists fuel1, k1, seen1, c1, w1.
      do 5 (split; [assumption |]).
        refine (advanced_cons _ _ _ _ _ _ _ _ _ _ _ _ Hadv).
        -- eapply same_identity_trans; [exact Hid | apply same_identity_set_backlog].
        -- cbn [set_backlog backlog built]. rewrite Ht, Hbl. reflexivity.
        -- cbn [next_obj objects]. lia.
        -- reflexivity.
    + destruct (IH others tail k seen (after_hb_c c w)
                  (mkWorld (Z.max (now w) fa) (others ++ tail) (outbox (after_hb_w c w))
                           true (close_fault w) (S (next_obj w))))
        as (fuel1 & k1 & seen1 & c1 & w1 & Heq & Hk1 & Hf1 & Hlt1 & Hin1 & Hadv);
        cbn [now inbox alive next_obj app]; try exact Hpo; try congruence; try lia.
      * rewrite Hin in Hfuel. cbn [List.length] in Hfuel. lia.
      * exists fuel1, k1, seen1, c1, w1.
      do 5 (split; [assumption |]).
        refine (advanced_cons _ _ _ _ _ _ _ _ Hid _ _ _ Hadv).
        -- cbn [built]. rewrite Ht, app_nil_r. exact Hbl.
        -- cbn [next_obj objects]. lia.
        -- reflexivity.
  - (* a frame that holds no JSON object *)
    destruct (IH others tail k seen (after_hb_c c w)
                (mkWorld (Z.max (now w) fa) (others ++ tail) (outbox (after_hb_w c w))
                         true (close_fault w) (next_obj w)))
      as (fuel1 & k1 & seen1 & c1 & w1 & Heq & Hk1 & Hf1 & Hlt1 & Hin1 & Hadv);
      cbn [now inbox alive next_obj app]; try exact Hpo; try congruence; try lia.
    + rewrite Hin in Hfuel. cbn [List.length] in Hfuel. lia.
    + exists fuel1, k1, seen1, c1, w1.
      do 5 (split; [assumption |]).
      refine (advanced_cons _ _ _ _ _ _ _ _ Hid _ _ _ Hadv).
      * assert (Hb0 : built (next_obj w) [(fa, Data fy)] = []).
        { cbn [built]. destruct fy as [[| | | | |] |]; try reflexivity. discriminate Py. }
        rewrite Hb0, app_nil_r. exact Hbl.
      * assert (Ho0 : objects [(fa, Data fy)] = O).
        { cbn [objects]. destruct fy as [[| | | | |] |]; try reflexivity. discriminate Py. }
        rewrite Ho0. cbn [next_obj]. lia.
      * reflexivity.
  - discriminate Hda.
  - discriminate Hda.
  - discriminate Hda.
  - discriminate Hda.
Qed.




(** A call of wait_dispatch that goes to the socket leaves on the backlog
    every dispatch frame that it passes over. *)
Lemma wait_dispatch_passes_over (event_type : string) (p : predicate) (timeout_s : Z)
  (c : GatewayClient) (w : world) (s : socket)
  (others rest : list (Z * arrival)) :
  ws c = Some s -> alive w = true ->
  Forall (fun x => entry_matches event_type p x = Ok false) (backlog c) ->
  inbox w = others ++ rest ->
  passed_over event_type p (now w + timeout_s) others ->
  0 < timeout_s ->
  exists r c' w' later_,
    wait_dispatch event_type p timeout_s c w = Some (r, c', w')
    /\ backlog c' = backlog c ++ built (next_obj w) others ++ later_
    /\ match r with
       | Ok m => (next_obj w + objects others <= obj_id m)%nat
       | Raise _ => True
       end.
Proof.
  intros Hws Hal Hnone Hin Hpo Hpos.
  destruct (fuel_for_enough 500 timeout_s (List.length (inbox w)) ltac:(lia))
    as (k & Hk & Hfuel).
  unfold wait_dispatch, bind. rewrite (find_in_backlog_none event_type p c w Hnone).
  destruct (dispatch_loop_skips event_type p (now w + timeout_s) s _ others rest k [] c w
              Hws Hal Hin Hpo ltac:(lia) ltac:(lia) Hfuel)
    as (fuel1 & k1 & seen1 & c1 & w1 & Heq & Hk1 & Hf1 & Hlt1 & Hin1
        & (Hid1 & Hb1 & Hal1 & Hn1 & Hnow1)).
  destruct (dispatch_loop_answered event_type p (now w + timeout_s) c1 w1 seen1 fuel1 k1
              Hk1 Hf1) as (r & c' & w' & Hrun & (Hnext & added & Hb' & _ & _ & Hr)).
  exists r, c', w', added. rewrite Heq. split; [exact Hrun |].
  split; [rewrite Hb', Hb1, <- app_assoc; reflexivity |].
  destruct r as [m | e]; [| exact I]. destruct Hr as (Hm & _). lia.
Qed.

End GatewayArrivals.




(** C10: for an event whose payload is not a dict, (1) the backlog test
    rejects it for every type and every predicate, None included; (2) no call
    of wait_dispatch returns it, and what a call returns has a dict payload;
    (3) when the receive loop handles it as a dispatch frame it is appended
    to the backlog and the loop goes on; (4) once on the backlog it is still
    there after every sequence of calls, and is never among the events
    returned; (5) a call of wait_dispatch on a connected session that finds
    no match on its backlog and reads a dispatch frame with these contents
    before its deadline, after frames that are no answer, ends with the object
    built of that frame on the backlog and does not return it. *)
Theorem non_dict_payload_never_delivered
  (x : Gateway.msg) (Hx : Gateway.has_dict_payload x = false) :
  (forall event_type p, Gateway.entry_matches event_type p x = Ok false)
  /\ (forall event_type p timeout_s c w m c' w',
         Gateway.wait_dispatch event_type p timeout_s c w = Some (Ok m, c', w') ->
         Gateway.has_dict_payload m = true /\ m <> x)
  /\ (forall event_type p seen c w t,
         Gateway.dispatch_type x = Some t ->
         Gateway.handle_frame event_type p seen x c w
         = Some (Ok (inr (Gateway.note_seen seen t)),
                 Gateway.set_backlog (Gateway.backlog c ++ [x]) c, w))
  /\ (forall acts c w,
         In x (Gateway.backlog c) ->
         exists rs c' w',
           Gateway.run acts c w = Some (Ok rs, c', w')
           /\ In x (Gateway.backlog c')
           /\ ~ In x (Gateway.returned rs))
  /\ (forall event_type p timeout_s c w s others a rest t,
         Gateway.ws c = Some s -> Gateway.alive w = true ->
         Forall (fun y => Gateway.entry_matches event_type p y = Ok false)
                (Gateway.backlog c) ->
         0 < timeout_s ->
         Gateway.inbox w
         = others ++ (a, Gateway.Data (Some (JDict (Gateway.body x)))) :: rest ->
         Gateway.passed_over event_type p (Gateway.now w + timeout_s) others ->
         a < Gateway.now w + timeout_s ->
         Gateway.dispatch_type x = Some t ->
         exists r c' w',
           Gateway.wait_dispatch event_type p timeout_s c w = Some (r, c', w')
           /\ In (Gateway.mkMsg (Gateway.next_obj w + Gateway.objects others)
                                (Gateway.body x))
                 (Gateway.backlog c')
           /\ r <> Ok (Gateway.mkMsg (Gateway.next_obj w + Gateway.objects others)
                                     (Gateway.body x))).
Proof.
  split; [| split; [| split; [| split]]].
  - intros. now apply no_dict_no_match.
  - intros event_type p timeout_s c w m c' w' Hrun.
    pose proof (wait_dispatch_answer_matches _ _ _ _ _ _ _ _ Hrun) as Hm.
    assert (Hd : Gateway.has_dict_payload m = true)
      by (apply (entry_matches_dict event_type p); congruence).
    split; [assumption | congruence].
  - intros event_type p seen c w t Ht.
    rewrite handle_frame_eq, Ht, (no_dict_no_match event_type p x Hx). reflexivity.
  - intros acts c w Hin.
    destruct (run_keeps_non_dict x acts Hx c w Hin) as (rs & c' & w' & Hrun & Hin' & Hall).
    exists rs, c', w'. repeat split; try assumption.
    intro Hret. rewrite Forall_forall in Hall. specialize (Hall x Hret). congruence.
  - intros event_type p timeout_s c w s others a rest t Hws Hal Hnone Hpos Hin Hpo Ha Ht.
    set (f := (a, Gateway.Data (Some (JDict (Gateway.body x))))) in *.
    assert (Hpo' : Gateway.passed_over event_type p (Gateway.now w + timeout_s)
                     (others ++ [f])).
    { apply Forall_app. split; [exact Hpo |]. constructor; [| constructor].
      split; [| exact Ha]. split; [| reflexivity].
      cbn [f snd Gateway.frame_answers].
      rewrite (entry_matches_body event_type p (Gateway.mkMsg 0 (Gateway.body x)) x
                 eq_refl).
      now apply no_dict_no_match. }
    assert (Hin' : Gateway.inbox w = (others ++ [f]) ++ rest)
      by (rewrite <- app_assoc; exact Hin).
    destruct (wait_dispatch_passes_over event_type p timeout_s c w s (others ++ [f]) rest
                Hws Hal Hnone Hin' Hpo' Hpos)
      as (r & c' & w' & more & Hrun & Hb & Hr).
    exists r, c', w'. split; [exact Hrun |].
    rewrite built_app in Hb. cbn [f Gateway.built] in Hb.
    rewrite (dispatch_type_body
               (Gateway.mkMsg (Gateway.next_obj w + Gateway.objects others)
                              (Gateway.body x)) x eq_refl), Ht in Hb.
    split.
    + rewrite Hb. apply in_or_app. right. apply in_or_app. left.
      apply in_or_app. right. left. reflexivity.
    + destruct r as [m | e]; [| discriminate].
      intro E. injection E as ->. rewrite objects_app in Hr.
      cbn [f Gateway.objects Gateway.obj_id] in Hr. lia.
Qed.

(** An event whose payload is a list arrives before one whose payload is a
    dict: the call returns the second and leaves the first on the backlog. *)
Lemma non_dict_payload_never_delivered_witness :
  Gateway.has_dict_payload Gateway.odd_event = false
  /\ exists r c' w',
       Gateway.wait_dispatch "MESSAGE_CREATE"%string None 1000
         Gateway.guest1_connected Gateway.odd_on_the_wire
       = Some (r, c', w')
       /\ In (Gateway.mkMsg 0 (Gateway.body Gateway.odd_event)) (Gateway.backlog c')
       /\ r <> Ok (Gateway.mkMsg 0 (Gateway.body Gateway.odd_event)).
Proof.
  split; [reflexivity |].
  apply (proj2 (proj2 (proj2 (proj2
           (non_dict_payload_never_delivered Gateway.odd_event eq_refl))))
           "MESSAGE_CREATE"%string None 1000 Gateway.guest1_connected
           Gateway.odd_on_the_wire Gateway.Socket [] 100
           [(200, Gateway.dispatch "MESSAGE_CREATE" (JDict [("id"%string, JStr "9")]))]
           "MESSAGE_CREATE"%string);
    try reflexivity; try (repeat constructor; fail).
Defined.

Section GatewayReceive.
Import Gateway.

Lemma recv_loop_exit (fuel : nat) (deadline : Z) (c : GatewayClient) (w : world) :
  deadline <= now w ->
  recv_loop fuel deadline c w = Some (Raise (no_payload_in_time c), c, w).
Proof.
  intro H. destruct fuel; simpl;
    (destruct (Z.ltb_spec (now w) deadline); [lia | reflexivity]).
Qed.

(** A pass of [_recv_json_blocking]'s loop: the keepalive check, then one of
    the readings that [polled] lists, with the loop's own message when the
    stream ends. *)
Lemma recv_loop_pass (fuel : nat) (deadline : Z) (c : GatewayClient) (w : world)
  (s : socket) :
  ws c = Some s ->
  now w < deadline ->
  exists x w1,
    polled (recv_budget deadline w) c w x w1
    /\ recv_loop (S fuel) deadline c w
       = match x with
         | Nothing => recv_loop fuel deadline (after_hb_c c w) w1
         | Object m => Some (Ok m, after_hb_c c w, w1)
         | Lost => Some (Raise (closed_while_waiting c), after_hb_c c w, w1)
         | Broken e => Some (Raise e, after_hb_c c w, w1)
         end.
Proof.
  intros Hws Hlt.
  destruct (after_hb_w_frame c w) as (Hnow & Hin & Hal & Hcf & Hnx).
  cbn [recv_loop]. destruct (Z.ltb_spec (now w) deadline); [| lia].
  unfold bind at 1. rewrite maybe_heartbeat_eq.
  cbv beta iota delta [bind monotonic attempt ws_recv ret raise new_object].
  rewrite Hnow, Hin, Hal, Hcf, Hnx.
  fold (recv_budget deadline w).
  destruct (alive w) eqn:Halive.
  - destruct (inbox w) as [| [a x] rest] eqn:Hinbox.
    + exists Nothing. eexists. split; [| reflexivity].
      pose proof (polled_quiet (recv_budget deadline w) c w Halive) as P.
      rewrite Hinbox in P. exact (P I).
    + destruct (Z.ltb_spec a (now w + recv_budget deadline w)) as [Ha | Hge].
      * destruct x as [[j |] | | e].
        -- destruct j;
             try (exists Nothing; eexists; (split; [| reflexivity]);
                  eapply polled_other; eauto; fail).
           eexists (Object _). eexists. split; [| reflexivity].
           cbn [now inbox outbox alive close_fault next_obj].
           eapply polled_dict; eauto.
        -- exists Nothing. eexists. split; [| reflexivity]. eapply polled_other; eauto.
        -- exists Lost. eexists. split; [| reflexivity]. eapply polled_hangup; eauto.
        -- cbv beta iota zeta.
           destruct (is_timeout e) eqn:Ht.
           ++ exists Nothing. eexists. split; [| reflexivity].
              pose proof (polled_fault_timeout (recv_budget deadline w) c w a e rest
                            Halive Hinbox Ha Ht) as P.
              rewrite (timeout_not_closed e Ht). exact P.
           ++ destruct (is_closed e) eqn:Hc.
              ** exists Lost. eexists. split; [| reflexivity].
                 eapply polled_fault_closed; eauto.
              ** exists (Broken e). eexists. split; [| reflexivity].
                 eapply polled_fault; eauto.
      * exists Nothing. eexists. split; [| reflexivity].
        pose proof (polled_quiet (recv_budget deadline w) c w Halive) as P.
        rewrite Hinbox in P. exact (P Hge).
  - destruct (after_hb_w_dead c w Halive) as [-> ->].
    exists Lost. eexists. split; [| reflexivity]. now apply polled_dead.
Qed.

(** The proof rule for the loop of [_recv_json_blocking]. *)
Section RecvRule.
Variable deadline : Z.
Variable Inv : GatewayClient -> world -> Prop.
Variable Q : outcome msg -> GatewayClient -> world -> Prop.

Hypothesis connected : forall c w, Inv c w -> exists s, ws c = Some s.

Hypothesis at_deadline :
  forall c w, Inv c w -> deadline <= now w -> Q (Raise (no_payload_in_time c)) c w.

Hypothesis one_pass :
  forall c w x w1,
    Inv c w -> now w < deadline ->
    polled (recv_budget deadline w) c w x w1 ->
    match x with
    | Lost => Q (Raise (closed_while_waiting c)) (after_hb_c c w) w1
    | Broken e => Q (Raise e) (after_hb_c c w) w1
    | Nothing => Inv (after_hb_c c w) w1
    | Object m => Q (Ok m) (after_hb_c c w) w1
    end.

Lemma recv_loop_rule :
  forall (fuel k : nat) (c : GatewayClient) (w : world),
    Inv c w ->
    deadline - now w <= 100 * Z.of_nat k ->
    (List.length (inbox w) + k <= fuel)%nat ->
    exists r c' w', recv_loop fuel deadline c w = Some (r, c', w') /\ Q r c' w'.
Proof.
  induction fuel as [| fuel IH]; intros k c w HI Hk Hfuel.
  - destruct (Z.lt_ge_cases (now w) deadline) as [Hlt | Hge]; [lia |].
    rewrite recv_loop_exit by assumption. ends_with.
  - destruct (Z.lt_ge_cases (now w) deadline) as [Hlt | Hge].
    2:{ rewrite recv_loop_exit by assumption. ends_with. }
    destruct (connected c w HI) as (s & Hws).
    destruct (recv_loop_pass fuel deadline c w s Hws Hlt) as (x & w1 & Hp & ->).
    pose proof (one_pass c w x w1 HI Hlt Hp) as Hstep.
    assert (Hbudget : 100 <= recv_budget deadline w) by (unfold recv_budget; lia).
    polled_cases Hp x w1.
    + ends_with.
    + apply (IH (Nat.pred k)); [assumption | cbn [now]; lia | cbn [inbox]; lia].
    + ends_with.
    + apply (IH k); [assumption | cbn [now]; lia |].
      cbn [inbox]. rewrite Pin in Hfuel. cbn [List.length] in Hfuel. lia.
    + ends_with.
    + apply (IH k); [assumption | cbn [now]; lia |].
      cbn [inbox]. rewrite Pin in Hfuel. cbn [List.length] in Hfuel. lia.
    + ends_with.
    + ends_with.
Qed.

End RecvRule.

Lemma recv_json_blocking_eq (timeout_s : Z) (c : GatewayClient) (w : world)
  (s : socket) :
  ws c = Some s ->
  _recv_json_blocking timeout_s c w
  = recv_loop (fuel_for 100 timeout_s (List.length (inbox w))) (now w + timeout_s) c w.
Proof. intro H. unfold _recv_json_blocking. now rewrite H. Qed.

(** connect, once the connection is made, stage by stage. *)
Lemma connect_eq (float_of_str : string -> option Z) (c : GatewayClient) (w : world) :
  alive w = true ->
  connect float_of_str c w
  = match _recv_json_blocking 12000 (set_ws (Some Socket) c) w with
    | None => None
    | Some (Raise e, c1, w1) => Some (Raise e, c1, w1)
    | Some (Ok hello, c1, w1) =>
        if negb (py_eq_int (msg_get hello "op") 10)
        then Some (Raise (expected_hello c1 (body hello)), c1, w1)
        else
          match py_float float_of_str (hello_interval hello) c1 w1 with
          | None => None
          | Some (Raise e, c2, w2) => Some (Raise e, c2, w2)
          | Some (Ok interval_ms, c2, w2) =>
              let c3 := set_last (now w2) (set_interval (Z.max 1000 interval_ms) c2) in
              match send (identify_frame c1) c3 w2 with
              | None => None
              | Some (Raise e, c4, w4) => Some (Raise e, c4, w4)
              | Some (Ok _, c4, w4) =>
                  match wait_dispatch "READY" None 25000 c4 w4 with
                  | None => None
                  | Some (Raise e, c5, w5) => Some (Raise e, c5, w5)
                  | Some (Ok _, c5, w5) => Some (Ok tt, c5, w5)
                  end
              end
          end
    end.
Proof.
  intro Hup. unfold connect.
  cbv beta iota delta [bind create_connection update self monotonic].
  rewrite Hup.
  destruct (_recv_json_blocking 12000 (set_ws (Some Socket) c) w)
    as [[[[hello | e] c1] w1] |]; try reflexivity.
  destruct (negb (py_eq_int (msg_get hello "op") 10)); [reflexivity |].
  destruct (py_float float_of_str (hello_interval hello) c1 w1)
    as [[[[n | e] c2] w2] |]; reflexivity.
Qed.


Lemma py_float_cases (float_of_str : string -> option Z) (v : json)
  (c : GatewayClient) (w : world) :
  (exists n, py_float float_of_str v c w = Some (Ok n, c, w))
  \/ (exists e, py_float float_of_str v c w = Some (Raise e, c, w)).
Proof.
  unfold py_float, ret, raise.
  destruct v as [| b | n | s | xs | kvs]; eauto.
  - destruct (Z.abs n <? float_limit); eauto.
  - destruct (float_of_str s); eauto.
Qed.

Lemma send_connected (payload : json) (c : GatewayClient) (w : world) (s : socket) :
  ws c = Some s -> alive w = true ->
  send payload c w
  = Some (Ok tt, c, mkWorld (now w) (inbox w) (outbox w ++ [(now w, payload)]) true
                            (close_fault w) (next_obj w)).
Proof.
  intros Hws Hal. cbv beta iota delta [send bind self ws_send].
  rewrite Hws, Hal. reflexivity.
Qed.

Lemma send_disconnected (payload : json) (c : GatewayClient) (w : world) (s : socket) :
  ws c = Some s -> alive w = false ->
  send payload c w = Some (Raise closed_exn, c, w).
Proof.
  intros Hws Hal. cbv beta iota delta [send bind self ws_send].
  rewrite Hws, Hal. reflexivity.
Qed.

End GatewayReceive.

Section GatewayKeepalive.
Import Gateway.

Lemma emissions_wrote (w : world) :
  emissions (wrote_heartbeat w) = emissions w ++ [now w].
Proof.
  unfold emissions, wrote_heartbeat. cbn [outbox].
  rewrite filter_app, map_app. reflexivity.
Qed.

Lemma last_default_irrelevant (l : list Z) (d d' : Z) :
  l <> [] -> List.last l d = List.last l d'.
Proof.
  induction l as [| a l IH]; intro H; [contradiction |].
  destruct l as [| b l]; [reflexivity |].
  change (List.last (b :: l) d = List.last (b :: l) d'). apply IH. discriminate.
Qed.






Lemma polled_outbox (timeout : Z) (c : GatewayClient) (w : world)
  (x : reading) (w1 : world) :
  polled timeout c w x w1 ->
  outbox w1 = outbox (after_hb_w c w)
  /\ (alive w = false -> after_hb_c c w = c).
Proof.
  intro Hp. split.
  - polled_cases Hp x w1; try reflexivity.
    now destruct (after_hb_w_dead c w Pal) as [-> _].
  - intro Hal. now destruct (after_hb_w_dead c w Hal).
Qed.











End GatewayKeepalive.




Section GatewayWrites.
Import Gateway.

Lemma spaced_snoc (interval t : Z) (l : list Z) :
  spaced interval l ->
  (forall d, l <> [] -> 9 * interval <= 10 * (t - List.last l d)) ->
  spaced interval (l ++ [t]).
Proof.
  induction l as [| a l IH]; intros Hg Hlast; [exact I |].
  destruct l as [| b l].
  - cbn. split; [| exact I]. apply (Hlast 0). discriminate.
  - destruct Hg as [Hab Hg]. change ((a :: b :: l) ++ [t]) with (a :: (b :: l) ++ [t]).
    cbn [app spaced]. split; [exact Hab |].
    apply IH; [exact Hg |]. intros d _. apply (Hlast d). discriminate.
Qed.

Lemma keepalive_spaced_ext (c c' : GatewayClient) (w w' : world) :
  keepalive_spaced c w ->
  heartbeat_interval_s c' = heartbeat_interval_s c ->
  last_heartbeat_at c' = last_heartbeat_at c ->
  outbox w' = outbox w ->
  keepalive_spaced c' w'.
Proof.
  unfold keepalive_spaced, emissions. intros H Hi Hl Ho. now rewrite Hi, Hl, Ho.
Qed.

Lemma after_hb_keeps_spaced (c : GatewayClient) (w : world) :
  keepalive_spaced c w -> keepalive_spaced (after_hb_c c w) (after_hb_w c w).
Proof.
  intros (Hsp & Hlast). unfold after_hb_c, after_hb_w.
  destruct (due c w) eqn:Hdue; [| split; assumption].
  unfold due in Hdue. destruct (ws c); [| discriminate].
  apply andb_true_iff in Hdue as [_ Hdue]. apply Z.leb_le in Hdue.
  unfold keepalive_spaced. rewrite emissions_wrote.
  cbn [set_last heartbeat_interval_s last_heartbeat_at]. split.
  - apply spaced_snoc; [exact Hsp |]. intros d Hne.
    rewrite (last_default_irrelevant _ d (last_heartbeat_at c) Hne). lia.
  - rewrite last_last. lia.
Qed.

Lemma only_keepalives_refl (w : world) : only_keepalives_since w w.
Proof. exists []. cbn. now rewrite app_nil_r. Qed.

Lemma only_keepalives_trans (w1 w2 w3 : world) :
  only_keepalives_since w1 w2 -> only_keepalives_since w2 w3 ->
  only_keepalives_since w1 w3.
Proof.
  intros (t1 & H1) (t2 & H2). exists (t1 ++ t2).
  now rewrite H2, H1, map_app, app_assoc.
Qed.

Lemma after_hb_only_keepalives (c : GatewayClient) (w0 w : world) :
  only_keepalives_since w0 w -> only_keepalives_since w0 (after_hb_w c w).
Proof.
  intros (times & Ho). unfold after_hb_w, wrote_heartbeat.
  destruct (due c w); [| exists times; exact Ho].
  exists (times ++ [now w]). cbn [outbox]. rewrite Ho, map_app, <- app_assoc.
  reflexivity.
Qed.

(** Whatever the receive loop of wait_dispatch does, it writes keepalive
    frames only, keeps them spaced, and leaves the identity of the client
    alone. *)
Lemma dispatch_loop_writes (event_type : string) (p : predicate) (deadline : Z)
  (c0 : GatewayClient) (w0 : world) (seen : list string) (fuel k : nat) :
  deadline - now w0 <= 500 * Z.of_nat k ->
  (List.length (inbox w0) + k <= fuel)%nat ->
  exists r c' w',
    dispatch_loop fuel event_type p deadline seen c0 w0 = Some (r, c', w')
    /\ (keepalive_spaced c0 w0 -> keepalive_spaced c' w')
    /\ only_keepalives_since w0 w'
    /\ same_identity c0 c'.
Proof.
  intros Hk Hfuel.
  apply (dispatch_loop_rule event_type p deadline
           (fun _ c w => (keepalive_spaced c0 w0 -> keepalive_spaced c w)
                         /\ only_keepalives_since w0 w /\ same_identity c0 c)
           (fun _ c w => (keepalive_spaced c0 w0 -> keepalive_spaced c w)
                         /\ only_keepalives_since w0 w /\ same_identity c0 c))
    with (k := k); try assumption.
  - intros seen1 c w HI _. exact HI.
  - intros seen1 c w HI _ _. exact HI.
  - intros seen1 c w s x w1 (HI & Hout & Hid) _ _ Hp.
    destruct (polled_outbox 500 c w x w1 Hp) as (Ho & _).
    pose proof (same_identity_trans _ _ _ Hid (same_identity_after_hb c w)) as Hid'.
    assert (H1 : (keepalive_spaced c0 w0 -> keepalive_spaced (after_hb_c c w) w1)
                 /\ only_keepalives_since w0 w1 /\ same_identity c0 (after_hb_c c w)).
    { split; [| split; [| exact Hid']].
      - intro H0. eapply keepalive_spaced_ext;
          [exact (after_hb_keeps_spaced c w (HI H0)) | reflexivity | reflexivity
           | exact Ho].
      - destruct (after_hb_only_keepalives c w0 w Hout) as (times & Ht).
        exists times. now rewrite Ho. }
    cbv zeta. destruct x as [| m | | e]; try exact H1.
    destruct (dispatch_type m); [| exact H1].
    destruct (entry_matches event_type p m) as [[|] | e]; exact H1.
  - split; [auto |]. split; [apply only_keepalives_refl | apply same_identity_refl].
Qed.

Lemma wait_dispatch_writes (event_type : string) (p : predicate) (timeout_s : Z)
  (c : GatewayClient) (w : world) (r : outcome msg) (c' : GatewayClient) (w' : world) :
  wait_dispatch event_type p timeout_s c w = Some (r, c', w') ->
  (keepalive_spaced c w -> keepalive_spaced c' w')
  /\ only_keepalives_since w w'
  /\ same_identity c c'.
Proof.
  intro Hrun.
  destruct (find_in_backlog_cases event_type p c w)
    as [(pre & m & post & Hb & Hpre & Hm & Hfind)
       | [(Hnone & Hfind) | (e & pre & m & post & Hb & Hpre & Hm & Hfind)]];
    unfold wait_dispatch, bind in Hrun; rewrite Hfind in Hrun.
  - injection Hrun as _ <- <-.
    split; [| split; [apply only_keepalives_refl | apply same_identity_set_backlog]].
    intro Hsp.
    eapply keepalive_spaced_ext; [exact Hsp | reflexivity | reflexivity | reflexivity].
  - destruct (fuel_for_enough 500 timeout_s (List.length (inbox w)) ltac:(lia))
      as (k & Hk & Hfuel).
    destruct (dispatch_loop_writes event_type p (now w + timeout_s) c w []
                (fuel_for 500 timeout_s (List.length (inbox w))) k
                ltac:(lia) Hfuel) as (r1 & c1 & w1 & Heq & H1).
    rewrite Hrun in Heq. injection Heq as _ <- <-. exact H1.
  - injection Hrun as _ <- <-.
    split; [auto |]. split; [apply only_keepalives_refl | apply same_identity_refl].
Qed.

End GatewayWrites.

Section GatewayHandshake.
Import Gateway.

Lemma no_payload_in_time_same (c c' : GatewayClient) :
  same_identity c c' -> no_payload_in_time c' = no_payload_in_time c.
Proof. intros (H & _). unfold no_payload_in_time. now rewrite H. Qed.

Lemma timed_out_waiting_same (c c' : GatewayClient) (event_type : string)
  (seen : list string) :
  same_identity c c' ->
  timed_out_waiting c' event_type seen = timed_out_waiting c event_type seen.
Proof. intros (H & _). unfold timed_out_waiting. now rewrite H. Qed.




(** A frame holding a JSON object that is next on the wire and arrives
    before the deadline is what [_recv_json_blocking]'s loop returns. *)
Lemma recv_loop_delivers (deadline : Z) (c : GatewayClient) (w : world) (s : socket)
  (a : Z) (h : dict) (rest : list (Z * arrival)) (fuel k : nat) :
  ws c = Some s -> alive w = true ->
  inbox w = (a, Data (Some (JDict h))) :: rest ->
  now w < deadline -> a < deadline ->
  deadline - now w <= 100 * Z.of_nat k ->
  (List.length (inbox w) + k <= fuel)%nat ->
  exists c' w',
    recv_loop fuel deadline c w = Some (Ok (mkMsg (next_obj w) h), c', w')
    /\ same_identity c c' /\ backlog c' = backlog c
    /\ alive w' = true /\ inbox w' = rest
    /\ next_obj w' = S (next_obj w)
    /\ now w' = Z.max (now w) a
    /\ only_keepalives_since w w'.
Proof.
  intros Hws Hal Hin Hlt Ha Hk Hfuel.
  destruct (recv_loop_rule deadline
              (fun c1 w1 => same_identity c c1 /\ backlog c1 = backlog c
                            /\ alive w1 = true
                            /\ inbox w1 = inbox w /\ next_obj w1 = next_obj w
                            /\ now w <= now w1 < deadline
                            /\ (now w1 = now w \/ now w1 <= a)
                            /\ only_keepalives_since w w1)
              (fun r c1 w1 => r = Ok (mkMsg (next_obj w) h)
                              /\ same_identity c c1 /\ backlog c1 = backlog c
                              /\ alive w1 = true /\ inbox w1 = rest
                              /\ next_obj w1 = S (next_obj w)
                              /\ now w1 = Z.max (now w) a
                              /\ only_keepalives_since w w1))
    with (fuel := fuel) (k := k) (c := c) (w := w)
    as (r & c' & w' & Hrun & -> & Hrest); eauto.
  - intros c1 w1 ((_ & _ & _ & H & _) & _). rewrite H. eauto.
  - intros c1 w1 (_ & _ & _ & _ & _ & Hnow & _) Hge. lia.
  - intros c1 w1 x w2 (Hsame & Hbl1 & Hal1 & Hin1 & Hnx1 & Hnow1 & Hpos & Hout) Hlt1 Hp.
    pose proof (same_identity_trans _ _ _ Hsame (same_identity_after_hb c1 w1)) as Hsame'.
    destruct (after_hb_c_frame c1 w1) as (_ & _ & _ & Hbl').
    destruct (polled_outbox _ c1 w1 x w2 Hp) as (Ho & _).
    assert (Hout' : only_keepalives_since w w2).
    { destruct (after_hb_only_keepalives c1 w w1 Hout) as (times & Ht).
      exists times. now rewrite Ho. }
    assert (Hb : 100 <= recv_budget deadline w1 <= 700) by (unfold recv_budget; lia).
    rewrite Hin in Hin1.
    polled_cases Hp x w2; cbn [alive inbox now next_obj] in *; try congruence;
      try (rewrite Hin1 in Pin; discriminate Pin).
    + rewrite Hin1 in Pq. split; [exact Hsame' |].
      do 6 (split; [first [congruence | lia] |]). exact Hout'.
    + rewrite Hin1 in Pin. injection Pin as <- <- <-.
      rewrite Hnx1. split; [reflexivity |]. split; [exact Hsame' |].
      do 5 (split; [first [congruence | lia] |]). exact Hout'.
    + rewrite Hin1 in Pin. injection Pin as _ <- _. discriminate Py.
  - split; [apply same_identity_refl |].
    do 6 (split; [first [congruence | lia] |]). apply only_keepalives_refl.
Qed.




End GatewayHandshake.




(** * Further properties of the gateway client *)

Section GatewayTrace.
Import Gateway.

Lemma dispatch_bodies_app (l1 l2 : list (Z * arrival)) :
  dispatch_bodies (l1 ++ l2) = dispatch_bodies l1 ++ dispatch_bodies l2.
Proof.
  induction l1 as [| [a x] l1 IH]; [reflexivity |].
  cbn [app dispatch_bodies].
  destruct x as [[j |] | | e]; try exact IH.
  destruct j; try exact IH.
  destruct (dispatch_type _); [cbn [app]; now rewrite IH | exact IH].
Qed.

Lemma sorted_snoc (l : list nat) (n : nat) :
  StronglySorted lt l -> Forall (fun k => (k < n)%nat) l -> StronglySorted lt (l ++ [n]).
Proof.
  induction 1 as [| a l Hs IH Ha]; intro Hall; cbn [app].
  - repeat constructor.
  - apply Forall_cons_iff in Hall as [Han Hall]. constructor; [now apply IH |].
    apply Forall_app. split; [assumption | repeat constructor; assumption].
Qed.

Lemma sorted_app (l1 l2 : list nat) (n : nat) :
  StronglySorted lt l1 -> StronglySorted lt l2 ->
  Forall (fun k => (k < n)%nat) l1 -> Forall (fun k => (n <= k)%nat) l2 ->
  StronglySorted lt (l1 ++ l2).
Proof.
  intros H1 H2 Hlo Hhi. induction H1 as [| a l Hs IH Ha]; cbn [app]; [assumption |].
  apply Forall_cons_iff in Hlo as [Han Hlo]. constructor; [now apply IH |].
  apply Forall_app. split; [assumption |].
  eapply Forall_impl; [| exact Hhi]. cbn. intros; lia.
Qed.

Lemma sorted_remove (l1 l2 : list nat) (n : nat) :
  StronglySorted lt (l1 ++ n :: l2) -> StronglySorted lt (l1 ++ l2).
Proof.
  induction l1 as [| a l1 IH]; cbn [app]; intro H.
  - now inversion H.
  - inversion H as [| ? ? Hs Ha]; subst. constructor; [now apply IH |].
    apply Forall_app in Ha as [Ha1 Ha2]. apply Forall_cons_iff in Ha2 as [_ Ha2].
    apply Forall_app. auto.
Qed.

Lemma ids_forall (P : nat -> Prop) (l : list msg) :
  Forall P (ids l) <-> Forall (fun m => P (obj_id m)) l.
Proof. unfold ids. apply Forall_map. Qed.

Lemma traced_read (c0 : GatewayClient) (w0 : world) (c : GatewayClient) (w w' : world)
  (f : Z * arrival) (rest : list (Z * arrival)) :
  traced c0 w0 [] c w ->
  inbox w = f :: rest -> inbox w' = rest -> next_obj w' = next_obj w ->
  dispatch_bodies [f] = [] ->
  traced c0 w0 [] c w'.
Proof.
  intros (consumed & added & Hin & Hb & Hbodies & Hs & Hfresh & Hnext) Hw Hw' Hn Hf.
  exists (consumed ++ [f]), added.
  rewrite Hin, Hw, Hw', Hn, <- app_assoc, dispatch_bodies_app, Hf, !app_nil_r in *.
  repeat split; auto.
Qed.

Lemma traced_built (c0 : GatewayClient) (w0 : world) (c : GatewayClient) (w w' : world)
  (a : Z) (d : dict) (rest : list (Z * arrival)) (t : string) :
  traced c0 w0 [] c w ->
  inbox w = (a, Data (Some (JDict d))) :: rest ->
  inbox w' = rest -> next_obj w' = S (next_obj w) ->
  dispatch_type (mkMsg (next_obj w) d) = Some t ->
  traced c0 w0 [mkMsg (next_obj w) d] c w'
  /\ traced c0 w0 [] (set_backlog (backlog c ++ [mkMsg (next_obj w) d]) c) w'.
Proof.
  intros (consumed & added & Hin & Hb & Hbodies & Hs & Hfresh & Hnext) Hw Hw' Hn Ht.
  rewrite app_nil_r in Hbodies, Hs, Hfresh.
  assert (Ht0 : dispatch_type (mkMsg O d) = Some t)
    by (rewrite <- Ht; now apply dispatch_type_body).
  assert (Hbody : dispatch_bodies [(a, Data (Some (JDict d)))] = [d])
    by (cbn [dispatch_bodies]; now rewrite Ht0).
  assert (Hall : Forall (fun m => (next_obj w0 <= obj_id m < next_obj w')%nat)
                        (added ++ [mkMsg (next_obj w) d])).
  { apply Forall_app. split.
    - eapply Forall_impl; [| exact Hfresh]. cbn. intros; lia.
    - repeat constructor; cbn [obj_id]; lia. }
  assert (Hsorted : StronglySorted lt (ids (added ++ [mkMsg (next_obj w) d]))).
  { rewrite ids_app. apply sorted_snoc; [assumption |].
    apply ids_forall. eapply Forall_impl; [| exact Hfresh]. cbn. intros; lia. }
  split.
  - exists (consumed ++ [(a, Data (Some (JDict d)))]), added.
    rewrite Hin, Hw, Hw', <- app_assoc, dispatch_bodies_app, Hbody, map_app, Hbodies.
    repeat split; auto. lia.
  - exists (consumed ++ [(a, Data (Some (JDict d)))]), (added ++ [mkMsg (next_obj w) d]).
    rewrite Hin, Hw, Hw', <- !app_assoc, dispatch_bodies_app, Hbody, !app_nil_r,
      map_app, Hbodies.
    cbn [set_backlog backlog]. rewrite Hb, <- app_assoc.
    repeat split; auto. lia.
Qed.

Lemma traced_idle_client (c0 : GatewayClient) (w0 : world) (kept : list msg)
  (c c' : GatewayClient) (w w' : world) :
  traced c0 w0 kept c w ->
  backlog c' = backlog c -> inbox w' = inbox w -> next_obj w' = next_obj w ->
  traced c0 w0 kept c' w'.
Proof.
  intros (consumed & added & H) Hb Hi Hn. exists consumed, added.
  rewrite Hb, Hi, Hn. exact H.
Qed.

(** The receive loop of wait_dispatch ends, with the trace of what it read:
    what it built went to the backlog, except the answer or the frame on
    which the predicate raised. *)
Lemma dispatch_loop_traced (event_type : string) (p : predicate) (deadline : Z)
  (c0 : GatewayClient) (w0 : world) (seen : list string) (fuel k : nat) :
  deadline - now w0 <= 500 * Z.of_nat k ->
  (List.length (inbox w0) + k <= fuel)%nat ->
  exists r c' w',
    dispatch_loop fuel event_type p deadline seen c0 w0 = Some (r, c', w')
    /\ exists kept, set_aside event_type p r kept /\ traced c0 w0 kept c' w'.
Proof.
  intros Hk Hfuel.
  apply (dispatch_loop_rule event_type p deadline
           (fun _ c w => traced c0 w0 [] c w)
           (fun r c w => exists kept,
                set_aside event_type p r kept /\ traced c0 w0 kept c w))
    with (k := k); try assumption.
  - intros seen' c w HI _. exists []. split; [now left | exact HI].
  - intros seen' c w HI _ _. exists []. split; [now left | exact HI].
  - intros seen' c w s x w1 HI _ _ Hp.
    destruct (after_hb_c_frame c w) as (_ & _ & _ & Hbl).
    assert (HI1 : traced c0 w0 [] (after_hb_c c w) w)
      by (eapply traced_idle_client; eauto).
    cbv zeta.
    polled_cases Hp x w1.
    + exists []. split; [now left | exact HI1].
    + eapply traced_idle_client; [exact HI1 | reflexivity | reflexivity | reflexivity].
    + destruct (dispatch_type (mkMsg (next_obj w) fd)) as [t |] eqn:Ht.
      * destruct (traced_built c0 w0 (after_hb_c c w) w
                    (mkWorld (Z.max (now w) fa) frest (outbox (after_hb_w c w)) true
                             (close_fault w) (S (next_obj w)))
                    fa fd frest t HI1 Pin eq_refl eq_refl Ht) as [Hans Hadd].
        destruct (entry_matches event_type p _) as [[|] | e] eqn:Hm.
        -- exists [mkMsg (next_obj w) fd]. split; [reflexivity | exact Hans].
        -- exact Hadd.
        -- exists [mkMsg (next_obj w) fd]. split; [| exact Hans].
           right. eauto.
      * assert (Ht0 : dispatch_type (mkMsg O fd) = None)
          by (rewrite <- Ht; now apply dispatch_type_body).
        destruct HI1 as (consumed & added & Hi & Hb & Hbodies & Hs & Hfresh & Hnext).
        exists (consumed ++ [(fa, Data (Some (JDict fd)))]), added.
        cbn [inbox next_obj]. rewrite Hi, Pin, <- app_assoc, dispatch_bodies_app.
        cbn [dispatch_bodies]. rewrite Ht0. rewrite !app_nil_r in *.
        split; [reflexivity |]. split; [exact Hb |]. split; [exact Hbodies |].
        split; [exact Hs |]. split; [| lia].
        eapply Forall_impl; [| exact Hfresh]. cbn. intros; lia.
    + eapply (traced_read c0 w0 (after_hb_c c w) w _ (fa, Data fy) frest HI1 Pin);
        try reflexivity.
      cbn [dispatch_bodies]. destruct fy as [[| | | | |] |]; try reflexivity.
      discriminate Py.
    + exists []. split; [now left |].
      eapply (traced_read c0 w0 (after_hb_c c w) w _ (fa, Hangup) frest HI1 Pin);
        reflexivity.
    + eapply (traced_read c0 w0 (after_hb_c c w) w _ (fa, Fault fe) frest HI1 Pin);
        reflexivity.
    + exists []. split; [now left |].
      eapply (traced_read c0 w0 (after_hb_c c w) w _ (fa, Fault fe) frest HI1 Pin);
        reflexivity.
    + exists []. split; [now left |].
      eapply (traced_read c0 w0 (after_hb_c c w) w _ (fa, Fault fe) frest HI1 Pin);
        reflexivity.
  - exists [], []. rewrite !app_nil_r. cbn. repeat split; auto; constructor.
Qed.

End GatewayTrace.

Section GatewayOrder.
Import Gateway.

(** A property of sessions kept by every call of wait_dispatch and by every
    pause is kept by every run, and every run ends. *)
Lemma run_invariant (P : GatewayClient -> world -> Prop) :
  (forall event_type p timeout_s c w r c' w',
      P c w -> wait_dispatch event_type p timeout_s c w = Some (r, c', w') -> P c' w') ->
  (forall d c w, P c w -> P c (later d w)) ->
  forall (acts : list action) (c : GatewayClient) (w : world),
    P c w ->
    exists rs c' w', run acts c w = Some (Ok rs, c', w') /\ P c' w'.
Proof.
  intros Hcall Hidle.
  induction acts as [| [event_type p timeout_s | d] rest IH]; intros c w HP.
  - exists [], c, w. auto.
  - destruct (wait_dispatch_spec event_type p timeout_s c w)
      as (r & c1 & w1 & Hrun & _).
    destruct (IH c1 w1 (Hcall _ _ _ _ _ _ _ _ HP Hrun)) as (rs & c2 & w2 & Hrest & HP2).
    exists ((now w, r) :: rs), c2, w2. split; [| exact HP2].
    rewrite run_await_eq, Hrun, Hrest. reflexivity.
  - rewrite run_idle_eq. apply IH. apply (Hidle d c w HP).
Qed.

(** How a call of wait_dispatch ends, with the trace of what it read. *)
Lemma wait_dispatch_traced (event_type : string) (p : predicate) (timeout_s : Z)
  (c : GatewayClient) (w : world) :
  exists r c' w',
    wait_dispatch event_type p timeout_s c w = Some (r, c', w')
    /\ ((exists pre m post,
            backlog c = pre ++ m :: post
            /\ Forall (fun x => entry_matches event_type p x = Ok false) pre
            /\ entry_matches event_type p m = Ok true
            /\ r = Ok m /\ c' = set_backlog (pre ++ post) c /\ w' = w)
        \/ (Forall (fun x => entry_matches event_type p x = Ok false) (backlog c)
            /\ exists kept, set_aside event_type p r kept /\ traced c w kept c' w')
        \/ (exists e m, In m (backlog c) /\ entry_matches event_type p m = Raise e
                        /\ r = Raise e /\ c' = c /\ w' = w)).
Proof.
  destruct (find_in_backlog_cases event_type p c w)
    as [(pre & m & post & Hb & Hpre & Hm & Hfind)
       | [(Hnone & Hfind) | (e & pre & m & post & Hb & Hpre & Hm & Hfind)]].
  - exists (Ok m), (set_backlog (pre ++ post) c), w. split.
    + unfold wait_dispatch, bind. rewrite Hfind. reflexivity.
    + left. exists pre, m, post. auto 10.
  - destruct (fuel_for_enough 500 timeout_s (List.length (inbox w)) ltac:(lia))
      as (k & Hk & Hfuel).
    destruct (dispatch_loop_traced event_type p (now w + timeout_s) c w []
                (fuel_for 500 timeout_s (List.length (inbox w))) k
                ltac:(lia) Hfuel) as (r & c' & w' & Hrun & Htr).
    exists r, c', w'. split.
    + unfold wait_dispatch, bind. rewrite Hfind. exact Hrun.
    + right. left. auto.
  - exists (Raise e), c, w. split.
    + unfold wait_dispatch, bind. rewrite Hfind. reflexivity.
    + right. right. exists e, m. split; [| auto].
      rewrite Hb. apply in_or_app. right. left. reflexivity.
Qed.

Lemma wait_dispatch_in_order (event_type : string) (p : predicate) (timeout_s : Z)
  (c : GatewayClient) (w : world) (r : outcome msg) (c' : GatewayClient) (w' : world) :
  in_arrival_order c w ->
  wait_dispatch event_type p timeout_s c w = Some (r, c', w') ->
  in_arrival_order c' w'.
Proof.
  intros (Hs & Hold) Hrun.
  destruct (wait_dispatch_traced event_type p timeout_s c w)
    as (r1 & c1 & w1 & Heq
        & [(pre & m & post & Hb & _ & _ & _ & -> & ->)
          | [(_ & kept & _ & Htr) | (e & m & _ & _ & _ & -> & ->)]]);
    rewrite Hrun in Heq; inversion Heq; subst; clear Heq.
  - rewrite Hb in Hs, Hold. split; cbn [set_backlog backlog].
    + rewrite ids_app in *. cbn [ids map] in Hs. eapply sorted_remove. exact Hs.
    + apply Forall_app in Hold as [H1 H2]. apply Forall_cons_iff in H2 as [_ H2].
      apply Forall_app. auto.
  - destruct Htr as (consumed & added & _ & Hb & _ & Hsa & Hfresh & Hnext).
    rewrite ids_app in Hsa.
    assert (Hsa' : StronglySorted lt (ids added)).
    { clear - Hsa. induction (ids added) as [| a l IH]; [constructor |].
      cbn [app] in Hsa. inversion Hsa as [| ? ? Hs Ha]; subst.
      apply Forall_app in Ha as [Ha _]. constructor; auto. }
    apply Forall_app in Hfresh as [Hfresh _].
    split; rewrite Hb.
    + rewrite ids_app. apply (sorted_app _ _ (next_obj w)); auto.
      * now apply ids_forall.
      * apply ids_forall. eapply Forall_impl; [| exact Hfresh]. cbn. intros; lia.
    + apply Forall_app. split.
      * eapply Forall_impl; [| exact Hold]. cbn. intros; lia.
      * eapply Forall_impl; [| exact Hfresh]. cbn. intros; lia.
  - split; assumption.
Qed.

End GatewayOrder.

(** X1: a call of wait_dispatch invents no event, and loses one only when
    the predicate raises on the frame just read.  It ends; it reads a prefix
    of the frames on the wire, in order; the events on the backlog
    afterwards, together with the one returned and the one lost, are exactly
    the events that were on the backlog before together with the dispatch
    frames read (opcode 0 with a string type) -- every other frame read is
    dropped.  No event is lost when the call returns; when it raises, at
    most the one frame on which the predicate raised that exception. *)
Theorem wait_dispatch_conserves_events
  (event_type : string) (p : Gateway.predicate) (timeout_s : Z)
  (c : Gateway.GatewayClient) (w : Gateway.world) :
  exists r c' w' consumed arrived lost,
    Gateway.wait_dispatch event_type p timeout_s c w = Some (r, c', w')
    /\ Gateway.inbox w = consumed ++ Gateway.inbox w'
    /\ map Gateway.body arrived = Gateway.dispatch_bodies consumed
    /\ Permutation (Gateway.backlog c' ++ Gateway.answer_of r ++ lost)
                   (Gateway.backlog c ++ arrived)
    /\ match r with
       | Ok _ => lost = []
       | Raise e =>
           lost = []
           \/ exists m, lost = [m] /\ Gateway.entry_matches event_type p m = Raise e
       end.
Proof.
  destruct (wait_dispatch_traced event_type p timeout_s c w)
    as (r & c' & w' & Hrun
        & [(pre & m & post & Hb & _ & _ & -> & -> & ->)
          | [(_ & kept & Hkept & Htr) | (e & m & _ & _ & -> & -> & ->)]]).
  - exists (Ok m), (Gateway.set_backlog (pre ++ post) c), w, [], [], [].
    split; [exact Hrun |]. split; [reflexivity |]. split; [reflexivity |].
    split; [| reflexivity].
    cbn [Gateway.set_backlog Gateway.backlog Gateway.answer_of].
    rewrite Hb, !app_nil_r, <- app_assoc. apply Permutation_app_head.
    symmetry. apply Permutation_cons_append.
  - destruct Htr as (consumed & added & Hin & Hb & Hbodies & _).
    destruct r as [m | e]; cbn [Gateway.set_aside] in Hkept.
    + subst kept.
      exists (Ok m), c', w', consumed, (added ++ [m]), [].
      split; [exact Hrun |]. split; [exact Hin |]. split; [exact Hbodies |].
      split; [| reflexivity].
      cbn [Gateway.answer_of]. rewrite Hb, app_nil_r, <- app_assoc.
      apply Permutation_refl.
    + exists (Raise e), c', w', consumed, (added ++ kept), kept.
      split; [exact Hrun |]. split; [exact Hin |]. split; [exact Hbodies |].
      split; [| exact Hkept].
      cbn [Gateway.answer_of app]. rewrite Hb, <- app_assoc.
      apply Permutation_refl.
  - exists (Raise e), c, w, [], [], [].
    split; [exact Hrun |]. split; [reflexivity |]. split; [reflexivity |].
    split; [| now left].
    cbn [Gateway.answer_of app]. apply Permutation_refl.
Qed.

(** X2: the backlog keeps the events in the order of their arrival.  If it
    lists its objects in the order they were built, it still does after
    every sequence of calls and pauses; and an event that wait_dispatch
    returns is older than every other event on the backlog that would also
    have matched. *)
Theorem backlog_keeps_arrival_order
  (c : Gateway.GatewayClient) (w : Gateway.world)
  (Horder : Gateway.in_arrival_order c w) :
  (forall acts,
      exists rs c' w',
        Gateway.run acts c w = Some (Ok rs, c', w')
        /\ Gateway.in_arrival_order c' w')
  /\ (forall event_type p timeout_s m c' w' x,
         Gateway.wait_dispatch event_type p timeout_s c w = Some (Ok m, c', w') ->
         In x (Gateway.backlog c) ->
         Gateway.entry_matches event_type p x = Ok true ->
         (Gateway.obj_id m <= Gateway.obj_id x)%nat).
Proof.
  split.
  - intro acts. apply (run_invariant Gateway.in_arrival_order); try assumption.
    + intros event_type p timeout_s c1 w1 r c2 w2 H1 Hrun.
      eapply wait_dispatch_in_order; eassumption.
    + intros d c1 w1 H1. exact H1.
  - intros event_type p timeout_s m c' w' x Hrun Hx Hmx.
    destruct Horder as (Hs & _).
    destruct (wait_dispatch_traced event_type p timeout_s c w)
      as (r1 & c1 & w1 & Heq & Hcases).
    rewrite Hrun in Heq. injection Heq as Er Ec Ew.
    destruct Hcases as [(pre & m1 & post & Hb & Hpre & _ & Hr & _)
                       | [(Hnone & _) | (e & m1 & _ & _ & Hr & _)]].
    + rewrite Hr in Er. injection Er as Em. subst m1. rewrite Hb in Hx, Hs.
      apply in_app_or in Hx as [Hx | [<- | Hx]].
      * rewrite Forall_forall in Hpre. specialize (Hpre x Hx). congruence.
      * lia.
      * rewrite ids_app in Hs. cbn [Gateway.ids map] in Hs.
        assert (Hpost : StronglySorted lt (Gateway.obj_id m :: Gateway.ids post)).
        { clear - Hs. induction (Gateway.ids pre) as [| a l IH]; [exact Hs |].
          cbn [app] in Hs. inversion Hs; auto. }
        inversion Hpost as [| ? ? _ Hall]; subst.
        rewrite Forall_forall in Hall.
        assert (Gateway.obj_id m < Gateway.obj_id x)%nat; [| lia].
        apply Hall. unfold Gateway.ids. now apply in_map.
    + rewrite Forall_forall in Hnone. specialize (Hnone x Hx). congruence.
    + congruence.
Qed.

Lemma guest1_with_backlog_in_order :
  Gateway.in_arrival_order Gateway.guest1_with_backlog Gateway.busy_world.
Proof.
  split; cbn.
  - repeat constructor.
  - repeat constructor; cbn; lia.
Qed.

Lemma backlog_keeps_arrival_order_witness :
  Gateway.in_arrival_order Gateway.guest1_with_backlog Gateway.busy_world
  /\ exists rs c' w',
       Gateway.run [Gateway.Await "READY"%string None 1000; Gateway.Idle 200%N]
                   Gateway.guest1_with_backlog Gateway.busy_world
       = Some (Ok rs, c', w')
       /\ Gateway.in_arrival_order c' w'.
Proof.
  split; [exact guest1_with_backlog_in_order |].
  apply (proj1 (backlog_keeps_arrival_order Gateway.guest1_with_backlog
                  Gateway.busy_world guest1_with_backlog_in_order)).
Defined.

Section GatewayBounds.
Import Gateway.

Lemma note_seen_length (seen : list string) (t : string) :
  (List.length seen <= 15)%nat -> (List.length (note_seen seen t) <= 15)%nat.
Proof.
  intro H. unfold note_seen.
  destruct (Nat.ltb_spec 15 (List.length (seen ++ [t]))) as [Hgt | Hle]; [| exact Hle].
  rewrite length_skipn. rewrite length_app in *. cbn [List.length] in *. lia.
Qed.

Lemma not_connected_same (c c' : GatewayClient) :
  same_identity c c' -> not_connected c' = not_connected c.
Proof. intros (H & _). unfold not_connected. now rewrite H. Qed.

Lemma closed_unexpectedly_same (c c' : GatewayClient) :
  same_identity c c' -> closed_unexpectedly c' = closed_unexpectedly c.
Proof. intros (H & _). unfold closed_unexpectedly. now rewrite H. Qed.

Lemma dispatch_loop_ended (event_type : string) (p : predicate) (deadline : Z)
  (c0 : GatewayClient) (w0 : world) (seen : list string) (fuel k : nat) :
  (List.length seen <= 15)%nat ->
  deadline - now w0 <= 500 * Z.of_nat k ->
  (List.length (inbox w0) + k <= fuel)%nat ->
  exists r c' w',
    dispatch_loop fuel event_type p deadline seen c0 w0 = Some (r, c', w')
    /\ ended event_type p deadline c0 w0 r c' w'.
Proof.
  intros Hseen Hk Hfuel.
  apply (dispatch_loop_rule event_type p deadline
           (fun seen1 c w => (List.length seen1 <= 15)%nat
                             /\ same_identity c0 c /\ now w0 <= now w
                             /\ (now w = now w0 \/ now w < deadline + 500)
                             /\ exists consumed, inbox w0 = consumed ++ inbox w)
           (ended event_type p deadline c0 w0)) with (k := k); try assumption.
  - intros seen1 c w (Hlen & Hid & Hmono & Hbound & _) Hge.
    split; [exact Hid |]. split; [exact Hmono |]. split; [exact Hbound |].
    right. right. left. exists seen1.
    split; [assumption |]. split; [now apply timed_out_waiting_same | assumption].
  - intros seen1 c w (Hlen & Hid & Hmono & Hbound & _) _ Hnone.
    split; [exact Hid |]. split; [exact Hmono |]. split; [exact Hbound |].
    left. split; [now apply not_connected_same |].
    destruct Hid as (_ & _ & _ & Hws & _). congruence.
  - intros seen1 c w s x w1 (Hlen & Hid & Hmono & Hbound & consumed & Hcons) Hlt _ Hp.
    pose proof (same_identity_trans _ _ _ Hid (same_identity_after_hb c w)) as Hid'.
    assert (Hhead : forall f rest, inbox w = f :: rest ->
                                   In f (inbox w0)
                                   /\ inbox w0 = (consumed ++ [f]) ++ rest).
    { intros f rest Hf. rewrite Hcons, Hf. split.
      - apply in_or_app. right. left. reflexivity.
      - now rewrite <- app_assoc. }
    cbv zeta.
    polled_cases Hp x w1.
    + split; [exact Hid' |]. split; [exact Hmono |]. split; [exact Hbound |].
      right. left. split; [now apply closed_unexpectedly_same | assumption].
    + split; [assumption |]. split; [exact Hid' |]. cbn [now inbox].
      split; [lia |]. split; [lia |]. eauto.
    + destruct (Hhead _ _ Pin) as (Hmem & Hmore).
      destruct (dispatch_type _) as [t |].
      * destruct (entry_matches event_type p _) as [[|] | e] eqn:Hm.
        -- split; [exact Hid' |]. cbn [now]. split; [lia |]. split; [lia | exact I].
        -- split; [now apply note_seen_length |].
           split; [exact (same_identity_trans _ _ _ Hid'
                            (same_identity_set_backlog _ _)) |].
           cbn [now inbox]. split; [lia |]. split; [lia |]. eauto.
        -- split; [exact Hid' |]. cbn [now]. split; [lia |]. split; [lia |].
           right. right. right. left.
           exists (mkMsg (next_obj w) fd). split; [exact Hm |].
           right. exists fa. exact Hmem.
      * split; [assumption |]. split; [exact Hid' |]. cbn [now inbox].
        split; [lia |]. split; [lia |]. eauto.
    + destruct (Hhead _ _ Pin) as (Hmem & Hmore).
      split; [assumption |]. split; [exact Hid' |]. cbn [now inbox].
      split; [lia |]. split; [lia |]. eauto.
    + split; [exact Hid' |]. cbn [now alive]. split; [lia |]. split; [lia |].
      right. left. split; [now apply closed_unexpectedly_same | reflexivity].
    + destruct (Hhead _ _ Pin) as (Hmem & Hmore).
      split; [assumption |]. split; [exact Hid' |]. cbn [now inbox].
      split; [lia |]. split; [lia |]. eauto.
    + split; [exact Hid' |]. cbn [now alive]. split; [lia |]. split; [lia |].
      right. left. split; [now apply closed_unexpectedly_same | reflexivity].
    + destruct (Hhead _ _ Pin) as (Hmem & Hmore).
      split; [exact Hid' |]. cbn [now]. split; [lia |]. split; [lia |].
      right. right. right. right.
      split; [exists fa; exact Hmem | split; assumption].
  - split; [assumption |]. split; [apply same_identity_refl |].
    split; [lia |]. split; [lia |]. exists []. reflexivity.
Qed.

(** The same for a whole call of wait_dispatch. *)
Lemma wait_dispatch_ended (event_type : string) (p : predicate) (timeout_s : Z)
  (c : GatewayClient) (w : world) :
  exists r c' w',
    wait_dispatch event_type p timeout_s c w = Some (r, c', w')
    /\ ended event_type p (now w + timeout_s) c w r c' w'.
Proof.
  destruct (find_in_backlog_cases event_type p c w)
    as [(pre & m & post & Hb & Hpre & Hm & Hfind)
       | [(Hnone & Hfind) | (e & pre & m & post & Hb & Hpre & Hm & Hfind)]].
  - exists (Ok m), (set_backlog (pre ++ post) c), w. split.
    + unfold wait_dispatch, bind. rewrite Hfind. reflexivity.
    + split; [apply same_identity_set_backlog |]. repeat split; auto; lia.
  - destruct (fuel_for_enough 500 timeout_s (List.length (inbox w)) ltac:(lia))
      as (k & Hk & Hfuel).
    destruct (dispatch_loop_ended event_type p (now w + timeout_s) c w []
                (fuel_for 500 timeout_s (List.length (inbox w))) k
                ltac:(cbn; lia) ltac:(lia) Hfuel) as (r & c' & w' & Hrun & Hend).
    exists r, c', w'. split; [| exact Hend].
    unfold wait_dispatch, bind. rewrite Hfind. exact Hrun.
  - exists (Raise e), c, w. split.
    + unfold wait_dispatch, bind. rewrite Hfind. reflexivity.
    + split; [apply same_identity_refl |]. split; [lia |]. split; [now left |].
      right. right. right. left. exists m. split; [exact Hm |]. left.
      rewrite Hb. apply in_or_app. right. left. reflexivity.
Qed.

End GatewayBounds.

(** X3: wait_dispatch never blocks past its timeout by more than one read.
    For every call the clock at the end is not before the clock at the start
    and is less than 500 ms past the deadline (start plus timeout), unless the
    call ended without reading at all; and the call leaves the client's name,
    url, token, socket and keepalive interval as they were. *)
Theorem wait_dispatch_ends_in_time
  (event_type : string) (p : Gateway.predicate) (timeout_s : Z)
  (c : Gateway.GatewayClient) (w : Gateway.world) :
  exists r c' w',
    Gateway.wait_dispatch event_type p timeout_s c w = Some (r, c', w')
    /\ Gateway.now w <= Gateway.now w'
    /\ Gateway.now w' < Z.max (Gateway.now w + 1) (Gateway.now w + timeout_s + 500)
    /\ Gateway.same_identity c c'.
Proof.
  destruct (wait_dispatch_ended event_type p timeout_s c w)
    as (r & c' & w' & Hrun & Hid & Hmono & Hbound & _).
  exists r, c', w'. split; [exact Hrun |]. split; [exact Hmono |].
  split; [lia | exact Hid].
Qed.

(** X4: every call of wait_dispatch ends, and when it raises, it raises one
    of five exceptions: the RuntimeError "websocket not connected" when the
    client has no socket; the RuntimeError "websocket closed unexpectedly"
    when the connection is down afterwards; its TimeoutError, raised only at
    or after the deadline, whose list of recently seen types holds at most
    fifteen entries; an exception that the caller's predicate raised on an
    item of the backlog or on a frame on the wire; or an exception of
    [ws.recv()] at a frame on the wire that is neither its timeout nor its
    connection-closed exception. *)
Theorem wait_dispatch_raises_only
  (event_type : string) (p : Gateway.predicate) (timeout_s : Z)
  (c : Gateway.GatewayClient) (w : Gateway.world) :
  exists r c' w',
    Gateway.wait_dispatch event_type p timeout_s c w = Some (r, c', w')
    /\ match r with
       | Ok m => Gateway.entry_matches event_type p m = Ok true
       | Raise e =>
           (e = Gateway.not_connected c /\ Gateway.ws c = None)
           \/ (e = Gateway.closed_unexpectedly c /\ Gateway.alive w' = false)
           \/ (exists seen,
                  (List.length seen <= 15)%nat
                  /\ e = Gateway.timed_out_waiting c event_type seen
                  /\ Gateway.now w + timeout_s <= Gateway.now w')
           \/ Gateway.predicate_raised event_type p e (Gateway.backlog c)
                                       (Gateway.inbox w)
           \/ Gateway.recv_raised e (Gateway.inbox w)
       end.
Proof.
  destruct (wait_dispatch_ended event_type p timeout_s c w)
    as (r & c' & w' & Hrun & _ & _ & _ & Hr).
  exists r, c', w'. split; [exact Hrun |].
  destruct r as [m | e]; [| exact Hr].
  eapply wait_dispatch_answer_matches. exact Hrun.
Qed.

(** X5: waiting never floods the peer with keepalives and writes nothing
    else.  If no keepalive frame was written after [last_heartbeat_at] and
    those written are at least 90% of the interval apart, then after every
    sequence of wait_dispatch calls and pauses the keepalive frames are still
    at least 90% of the interval apart, and all that was added to the frames
    written are keepalive frames. *)
Theorem waiting_spaces_keepalives
  (c : Gateway.GatewayClient) (w : Gateway.world)
  (Hspaced : Gateway.keepalive_spaced c w)
  (acts : list Gateway.action) :
  exists rs c' w',
    Gateway.run acts c w = Some (Ok rs, c', w')
    /\ Gateway.spaced (Gateway.heartbeat_interval_s c) (Gateway.emissions w')
    /\ Gateway.only_keepalives_since w w'.
Proof.
  destruct (run_invariant
              (fun c1 w1 => Gateway.keepalive_spaced c1 w1
                            /\ Gateway.only_keepalives_since w w1
                            /\ Gateway.heartbeat_interval_s c1
                               = Gateway.heartbeat_interval_s c))
    with (acts := acts) (c := c) (w := w) as (rs & c' & w' & Hrun & (Hs & _) & Ho & Hi).
  - intros event_type p timeout_s c1 w1 r c2 w2 (H1 & H2 & H3) Hrun.
    destruct (wait_dispatch_writes _ _ _ _ _ _ _ _ Hrun)
      as (H4 & H5 & (_ & _ & _ & _ & H6)).
    split; [exact (H4 H1) |].
    split; [eapply only_keepalives_trans; eassumption | congruence].
  - intros d c1 w1 H. exact H.
  - split; [assumption |]. split; [| reflexivity]. exists []. cbn. now rewrite app_nil_r.
  - exists rs, c', w'. rewrite <- Hi. auto.
Qed.

Lemma three_events_spaced :
  Gateway.keepalive_spaced Gateway.guest1_connected Gateway.three_events.
Proof. split; [exact I | cbn; lia]. Qed.

Lemma waiting_spaces_keepalives_witness :
  Gateway.keepalive_spaced Gateway.guest1_connected Gateway.three_events
  /\ exists rs c' w',
       Gateway.run Gateway.three_awaits Gateway.guest1_connected Gateway.three_events
       = Some (Ok rs, c', w')
       /\ Gateway.spaced (Gateway.heartbeat_interval_s Gateway.guest1_connected)
                         (Gateway.emissions w')
       /\ Gateway.only_keepalives_since Gateway.three_events w'.
Proof.
  split; [exact three_events_spaced |].
  apply (waiting_spaces_keepalives Gateway.guest1_connected Gateway.three_events
           three_events_spaced Gateway.three_awaits).
Defined.

Section GatewayEdges.
Import Gateway.

Lemma close_result (c : GatewayClient) (w : world) :
  exists w',
    close c w = Some (Ok tt, set_ws None c, w')
    /\ (ws c = None -> w' = w).
Proof.
  cbv beta iota delta [close bind self attempt ws_close update ret].
  destruct (ws c) as [s |] eqn:Hws.
  - destruct (close_fault w); eexists; (split; [reflexivity | discriminate]).
  - exists w. split; [| reflexivity].
    destruct c; cbn in *. now subst.
Qed.

Lemma fuel_for_positive (tick span : Z) (n : nat) :
  0 < tick -> 0 < span -> exists fuel, fuel_for tick span n = S fuel.
Proof.
  intros Htick Hspan. unfold fuel_for.
  assert (0 <= span / tick) by (apply Z.div_pos; lia).
  exists (n + Z.to_nat (span / tick))%nat. lia.
Qed.

Lemma wait_dispatch_first_poll (event_type : string) (p : predicate) (timeout_s : Z)
  (c : GatewayClient) (w : world) (e : exn) (c1 : GatewayClient) (w1 : world) :
  Forall (fun x => entry_matches event_type p x = Ok false) (backlog c) ->
  0 < timeout_s ->
  _poll_once 500 c w = Some (Raise e, c1, w1) ->
  wait_dispatch event_type p timeout_s c w = Some (Raise e, c1, w1).
Proof.
  intros Hnone Hpos Hpoll.
  destruct (fuel_for_positive 500 timeout_s (List.length (inbox w)))
    as (fuel & Hfuel); try lia.
  unfold wait_dispatch, bind.
  rewrite (find_in_backlog_none event_type p c w Hnone), Hfuel.
  rewrite dispatch_loop_pass by lia. now rewrite Hpoll.
Qed.

Lemma poll_once_dead (timeout : Z) (c : GatewayClient) (w : world) (s : socket) :
  ws c = Some s -> alive w = false ->
  _poll_once timeout c w = Some (Raise (closed_unexpectedly c), c, w).
Proof.
  intros Hws Hdead.
  destruct (poll_once_polled timeout c w s Hws) as (x & w1 & Hrun & Hp).
  destruct (after_hb_w_dead c w Hdead) as [_ Hc]. rewrite Hc in Hrun.
  inversion Hp; subst; try congruence. exact Hrun.
Qed.

End GatewayEdges.

(** X6: after close, the client is unusable but keeps what it had buffered.
    close returns normally and leaves the backlog as it was; after it send,
    [_poll_once] and [_recv_json_blocking] raise the RuntimeError "websocket
    not connected" and [_maybe_heartbeat] does nothing, all without touching
    the world; wait_dispatch raises that RuntimeError when the backlog holds
    no match and the timeout is positive, and still returns a matching event
    from the backlog. *)
Theorem use_after_close (c : Gateway.GatewayClient) (w : Gateway.world) :
  exists c' w',
    Gateway.close c w = Some (Ok tt, c', w')
    /\ Gateway.backlog c' = Gateway.backlog c
    /\ (forall payload,
           Gateway.send payload c' w' = Some (Raise (Gateway.not_connected c), c', w'))
    /\ (forall timeout,
           Gateway._poll_once timeout c' w'
           = Some (Raise (Gateway.not_connected c), c', w'))
    /\ (forall timeout,
           Gateway._recv_json_blocking timeout c' w'
           = Some (Raise (Gateway.not_connected c), c', w'))
    /\ Gateway._maybe_heartbeat c' w' = Some (Ok tt, c', w')
    /\ (forall event_type p timeout_s,
           0 < timeout_s ->
           Forall (fun x => Gateway.entry_matches event_type p x = Ok false)
                  (Gateway.backlog c) ->
           Gateway.wait_dispatch event_type p timeout_s c' w'
           = Some (Raise (Gateway.not_connected c), c', w'))
    /\ (forall event_type p timeout_s pre m post,
           Gateway.backlog c = pre ++ m :: post ->
           Forall (fun x => Gateway.entry_matches event_type p x = Ok false) pre ->
           Gateway.entry_matches event_type p m = Ok true ->
           Gateway.wait_dispatch event_type p timeout_s c' w'
           = Some (Ok m, Gateway.set_backlog (pre ++ post) c', w')).
Proof.
  destruct (close_result c w) as (w' & Hclose & _).
  exists (Gateway.set_ws None c), w'.
  assert (Hws : Gateway.ws (Gateway.set_ws None c) = None) by reflexivity.
  assert (Hpoll : forall timeout,
             Gateway._poll_once timeout (Gateway.set_ws None c) w'
             = Some (Raise (Gateway.not_connected c), Gateway.set_ws None c, w')).
  { intro timeout. now rewrite poll_once_unconnected. }
  split; [exact Hclose |]. split; [reflexivity |].
  split; [reflexivity |]. split; [exact Hpoll |].
  split; [reflexivity |]. split; [reflexivity |]. split.
  - intros event_type p timeout_s Hpos Hnone.
    apply wait_dispatch_first_poll; [exact Hnone | exact Hpos | apply Hpoll].
  - intros event_type p timeout_s pre m post Hb Hpre Hm.
    unfold Gateway.wait_dispatch, Gateway.bind.
    rewrite (find_in_backlog_hit event_type p (Gateway.set_ws None c) w' pre post m
               Hb Hpre Hm).
    reflexivity.
Qed.

Lemma use_after_close_witness :
  exists c' w',
    Gateway.close Gateway.guest1_with_backlog Gateway.later_world = Some (Ok tt, c', w')
    /\ Gateway.wait_dispatch "READY"%string None 1000 c' w'
       = Some (Raise (Gateway.not_connected Gateway.guest1_with_backlog), c', w')
    /\ Gateway.wait_dispatch "MESSAGE_CREATE"%string None 1000 c' w'
       = Some (Ok Gateway.good_event, Gateway.set_backlog [Gateway.odd_event] c', w').
Proof.
  destruct (use_after_close Gateway.guest1_with_backlog Gateway.later_world)
    as (c' & w' & Hclose & _ & _ & _ & _ & _ & Hmiss & Hhit).
  exists c', w'. split; [exact Hclose |]. split.
  - apply Hmiss; [reflexivity |]. repeat constructor.
  - apply (Hhit "MESSAGE_CREATE"%string None 1000 [Gateway.odd_event]
                Gateway.good_event []); [reflexivity | repeat constructor | reflexivity].
Defined.

(** X7: on a connection that is down, nothing is written and every read
    fails at once.  With a socket attached and the connection down, send
    raises WebSocketConnectionClosedException, [_maybe_heartbeat] swallows
    that and records nothing, [_poll_once] raises the RuntimeError "websocket
    closed unexpectedly", and so does wait_dispatch when the backlog holds no
    match and the timeout is positive; client and world stay as they were. *)
Theorem dead_connection_fails_fast
  (c : Gateway.GatewayClient) (w : Gateway.world) (s : Gateway.socket)
  (Hws : Gateway.ws c = Some s) (Hdead : Gateway.alive w = false) :
  (forall payload, Gateway.send payload c w = Some (Raise Gateway.closed_exn, c, w))
  /\ Gateway._maybe_heartbeat c w = Some (Ok tt, c, w)
  /\ (forall timeout,
         Gateway._poll_once timeout c w
         = Some (Raise (Gateway.closed_unexpectedly c), c, w))
  /\ (forall event_type p timeout_s,
         0 < timeout_s ->
         Forall (fun x => Gateway.entry_matches event_type p x = Ok false)
                (Gateway.backlog c) ->
         Gateway.wait_dispatch event_type p timeout_s c w
         = Some (Raise (Gateway.closed_unexpectedly c), c, w)).
Proof.
  assert (Hpoll : forall timeout,
             Gateway._poll_once timeout c w
             = Some (Raise (Gateway.closed_unexpectedly c), c, w))
    by (intro; eapply poll_once_dead; eassumption).
  split; [| split; [| split; [exact Hpoll |]]].
  - intro payload.
    cbv beta iota delta [Gateway.send Gateway.bind Gateway.self Gateway.ws_send].
    now rewrite Hws, Hdead.
  - rewrite maybe_heartbeat_eq.
    now destruct (after_hb_w_dead c w Hdead) as [-> ->].
  - intros event_type p timeout_s Hpos Hnone.
    apply wait_dispatch_first_poll; [exact Hnone | exact Hpos | apply Hpoll].
Qed.

Lemma dead_connection_fails_fast_witness :
  Gateway.ws Gateway.guest1_connected = Some Gateway.Socket
  /\ Gateway.alive Gateway.dead_world = false
  /\ Gateway.wait_dispatch "READY"%string None 20000 Gateway.guest1_connected
       Gateway.dead_world
     = Some (Raise (Gateway.closed_unexpectedly Gateway.guest1_connected),
             Gateway.guest1_connected, Gateway.dead_world).
Proof.
  split; [reflexivity |]. split; [reflexivity |].
  apply (proj2 (proj2 (proj2 (dead_connection_fails_fast Gateway.guest1_connected
                                Gateway.dead_world Gateway.Socket eq_refl eq_refl))));
    [reflexivity | constructor].
Defined.

Section GatewayConnect.
Import Gateway.

(** How the loop of [_recv_json_blocking] can end. *)
Lemma recv_loop_frame (deadline : Z) (c0 : GatewayClient) (w0 : world) (s : socket)
  (fuel k : nat) :
  ws c0 = Some s ->
  deadline - now w0 <= 100 * Z.of_nat k ->
  (List.length (inbox w0) + k <= fuel)%nat ->
  exists r c' w',
    recv_loop fuel deadline c0 w0 = Some (r, c', w')
    /\ same_identity c0 c' /\ backlog c' = backlog c0
    /\ only_keepalives_since w0 w'
    /\ match r with
       | Ok m => exists a, In (a, Data (Some (JDict (body m)))) (inbox w0)
       | Raise e => e = no_payload_in_time c0 \/ e = closed_while_waiting c0
                    \/ recv_raised e (inbox w0)
       end.
Proof.
  intros Hws Hk Hfuel.
  apply (recv_loop_rule deadline
           (fun c w => same_identity c0 c /\ backlog c = backlog c0
                       /\ only_keepalives_since w0 w
                       /\ exists consumed, inbox w0 = consumed ++ inbox w)
           (fun r c w => same_identity c0 c /\ backlog c = backlog c0
                         /\ only_keepalives_since w0 w
                         /\ match r with
                            | Ok m => exists a,
                                In (a, Data (Some (JDict (body m)))) (inbox w0)
                            | Raise e => e = no_payload_in_time c0
                                         \/ e = closed_while_waiting c0
                                         \/ recv_raised e (inbox w0)
                            end)) with (k := k); try assumption.
  - intros c w ((_ & _ & _ & H & _) & _). rewrite H. eauto.
  - intros c w (Hid & Hb & Ho & _) _.
    split; [exact Hid |]. split; [exact Hb |]. split; [exact Ho |].
    left. now apply no_payload_in_time_same.
  - intros c w x w1 (Hid & Hb & Ho & consumed & Hin) _ Hp.
    pose proof (same_identity_trans _ _ _ Hid (same_identity_after_hb c w)) as Hid'.
    destruct (after_hb_c_frame c w) as (_ & _ & _ & Hbl).
    destruct (polled_outbox _ c w x w1 Hp) as (Hout & _).
    assert (Ho' : only_keepalives_since w0 w1).
    { destruct (after_hb_only_keepalives c w0 w Ho) as (times & Ht).
      exists times. now rewrite Hout. }
    assert (Hclosed : closed_while_waiting c = closed_while_waiting c0).
    { destruct Hid as (Hn & _). unfold closed_while_waiting. now rewrite Hn. }
    assert (Hhead : forall f rest, inbox w = f :: rest ->
                                   In f (inbox w0)
                                   /\ inbox w0 = (consumed ++ [f]) ++ rest).
    { intros f rest Hf. rewrite Hin, Hf. split.
      - apply in_or_app. right. left. reflexivity.
      - now rewrite <- app_assoc. }
    polled_cases Hp x w1;
      (split; [exact Hid' |]); (split; [congruence |]); (split; [exact Ho' |]);
      try (destruct (Hhead _ _ Pin) as (Hmem & Hmore)); cbn [inbox body].
    + right. left. exact Hclosed.
    + eauto.
    + eauto.
    + eauto.
    + right. left. exact Hclosed.
    + eauto.
    + right. left. exact Hclosed.
    + right. right. split; [eauto | auto].
  - split; [apply same_identity_refl |]. split; [reflexivity |].
    split; [apply only_keepalives_refl |]. exists []. reflexivity.
Qed.

(** Every way connect can end on a connection that was made. *)
Lemma connect_outcome (float_of_str : string -> option Z)
  (c : GatewayClient) (w : world) :
  alive w = true ->
  exists r c' w',
    connect float_of_str c w = Some (r, c', w')
    /\ ws c' = Some Socket /\ name c' = name c /\ token c' = token c
    /\ (only_keepalives_since w w'
        \/ (greeted w /\ In (identify_frame c) (map snd (outbox w')))).
Proof.
  intro Hup.
  pose proof (connect_eq float_of_str c w Hup) as Hconnect.
  set (c0 := set_ws (Some Socket) c) in *.
  assert (Hws0 : ws c0 = Some Socket) by reflexivity.
  rewrite (recv_json_blocking_eq 12000 c0 w Socket Hws0) in Hconnect.
  destruct (fuel_for_enough 100 12000 (List.length (inbox w)) ltac:(lia))
    as (k & Hk & Hfuel).
  destruct (recv_loop_frame (now w + 12000) c0 w Socket _ k Hws0 ltac:(lia) Hfuel)
    as (r1 & c1 & w1 & Hrun & (Hn1 & _ & Htok1 & Hws1 & _) & _ & Ho1 & Hr1).
  rewrite Hrun in Hconnect.
  assert (Hws1' : ws c1 = Some Socket) by congruence.
  destruct r1 as [hello | e].
  2:{ exists (Raise e), c1, w1. auto 10. }
  destruct Hr1 as (a & Hhello).
  destruct (negb (py_eq_int (msg_get hello "op") 10)) eqn:Hop.
  { exists (Raise (expected_hello c1 (body hello))), c1, w1. auto 10. }
  apply negb_false_iff in Hop.
  destruct (py_float_cases float_of_str (hello_interval hello) c1 w1)
    as [(n & Hf) | (e & Hf)]; rewrite Hf in Hconnect.
  2:{ exists (Raise e), c1, w1. auto 10. }
  cbv zeta in Hconnect.
  set (c3 := set_last (now w1) (set_interval (Z.max 1000 n) c1)) in *.
  assert (Hws3 : ws c3 = Some Socket) by exact Hws1'.
  destruct (alive w1) eqn:Hal1.
  2:{ (* the connection went down before the identify frame *)
      rewrite (send_disconnected _ c3 w1 Socket Hws3 Hal1) in Hconnect.
      exists (Raise closed_exn), c3, w1.
      split; [exact Hconnect |]. split; [exact Hws3 |].
      split; [exact Hn1 |]. split; [exact Htok1 |]. now left. }
  rewrite (send_connected _ c3 w1 Socket Hws3 Hal1) in Hconnect.
  set (w3 := mkWorld _ _ _ _ _ _) in Hconnect.
  destruct (wait_dispatch_spec "READY" None 25000 c3 w3)
    as (r5 & c5 & w5 & Hwait & _).
  destruct (wait_dispatch_writes _ _ _ _ _ _ _ _ Hwait)
    as (_ & (times & Ho5) & (Hn5 & _ & Htok5 & Hws5 & _)).
  rewrite Hwait in Hconnect.
  assert (Hgreeted : greeted w).
  { exists a, (body hello). split; [exact Hhello | exact Hop]. }
  assert (Hid : In (identify_frame c) (map snd (outbox w5))).
  { apply in_map_iff. exists (now w1, identify_frame c). split; [reflexivity |].
    rewrite Ho5. apply in_or_app. left. cbn [outbox w3]. apply in_or_app. right.
    left. unfold identify_frame. now rewrite Htok1. }
  destruct r5 as [m | e]; eexists _, c5, w5;
    (split; [exact Hconnect |]); (split; [rewrite Hws5; exact Hws3 |]);
    (split; [rewrite Hn5; exact Hn1 |]);
    (split; [rewrite Htok5; exact Htok1 |]);
    right; auto.
Qed.

End GatewayConnect.

(** X8: a handshake that fails does not let go of the socket.  When the
    connection is made, connect ends -- normally or with an exception -- with
    the socket still attached to the client, so only close releases it. *)
Theorem connect_keeps_socket_attached
  (float_of_str : string -> option Z)
  (c : Gateway.GatewayClient) (w : Gateway.world)
  (Hup : Gateway.alive w = true) :
  exists r c' w',
    Gateway.connect float_of_str c w = Some (r, c', w')
    /\ Gateway.ws c' = Some Gateway.Socket
    /\ Gateway.name c' = Gateway.name c.
Proof.
  destruct (connect_outcome float_of_str c w Hup)
    as (r & c' & w' & Hrun & Hws & Hn & _).
  exists r, c', w'. auto.
Qed.

Lemma connect_keeps_socket_attached_witness :
  Gateway.alive Gateway.wrong_greeting = true
  /\ exists r c' w',
       Gateway.connect Gateway.no_float_of_str Gateway.guest1 Gateway.wrong_greeting
       = Some (r, c', w')
       /\ Gateway.ws c' = Some Gateway.Socket
       /\ Gateway.name c' = Gateway.name Gateway.guest1.
Proof.
  split; [reflexivity |].
  apply (connect_keeps_socket_attached Gateway.no_float_of_str Gateway.guest1
           Gateway.wrong_greeting eq_refl).
Defined.

(** X9: connect does not send the token to a peer that has not greeted it.
    When the connection is made, either connect wrote nothing but keepalive
    frames, or a frame holding a JSON object with opcode 10 was on the wire
    and the identify frame with the client's token is among the frames
    written. *)
Theorem connect_identifies_only_after_greeting
  (float_of_str : string -> option Z)
  (c : Gateway.GatewayClient) (w : Gateway.world)
  (Hup : Gateway.alive w = true) :
  exists r c' w',
    Gateway.connect float_of_str c w = Some (r, c', w')
    /\ (Gateway.only_keepalives_since w w'
        \/ (Gateway.greeted w
            /\ In (Gateway.identify_frame c) (map snd (Gateway.outbox w')))).
Proof.
  destruct (connect_outcome float_of_str c w Hup)
    as (r & c' & w' & Hrun & _ & _ & _ & Hout).
  exists r, c', w'. auto.
Qed.

Lemma connect_identifies_only_after_greeting_witness :
  Gateway.alive Gateway.plain_handshake = true
  /\ exists r c' w',
       Gateway.connect Gateway.no_float_of_str Gateway.guest1 Gateway.plain_handshake
       = Some (r, c', w')
       /\ (Gateway.only_keepalives_since Gateway.plain_handshake w'
           \/ (Gateway.greeted Gateway.plain_handshake
               /\ In (Gateway.identify_frame Gateway.guest1)
                     (map snd (Gateway.outbox w')))).
Proof.
  split; [reflexivity |].
  apply (connect_identifies_only_after_greeting Gateway.no_float_of_str Gateway.guest1
           Gateway.plain_handshake eq_refl).
Defined.

(** X10: a greeting with opcode 10 whose "heartbeat_interval" is null, a list
    or a dict does not fall back to the default interval: connect reads the
    greeting, raises the TypeError of [float()], leaves the keepalive
    interval as it was and does not send the identify frame. *)
Theorem connect_rejects_unusable_interval
  (float_of_str : string -> option Z)
  (c : Gateway.GatewayClient) (w : Gateway.world)
  (a : Z) (hello : dict) (rest : list (Z * Gateway.arrival))
  (Hup : Gateway.alive w = true)
  (Hin : Gateway.inbox w = (a, Gateway.Data (Some (JDict hello))) :: rest)
  (Ha : a < Gateway.now w + 12000)
  (Hop : py_eq_int (dict_get hello "op" JNull) 10 = true)
  (Hbad : Gateway.not_a_number (Gateway.hello_interval (Gateway.mkMsg 0 hello)) = true) :
  exists c' w',
    Gateway.connect float_of_str c w = Some (Raise Gateway.float_type_error, c', w')
    /\ Gateway.inbox w' = rest
    /\ Gateway.only_keepalives_since w w'
    /\ Gateway.heartbeat_interval_s c' = Gateway.heartbeat_interval_s c.
Proof.
  pose proof (connect_eq float_of_str c w Hup) as Hconnect.
  set (c0 := Gateway.set_ws (Some Gateway.Socket) c) in *.
  assert (Hws0 : Gateway.ws c0 = Some Gateway.Socket) by reflexivity.
  rewrite (recv_json_blocking_eq 12000 c0 w Gateway.Socket Hws0) in Hconnect.
  destruct (fuel_for_enough 100 12000 (List.length (Gateway.inbox w)) ltac:(lia))
    as (k & Hk & Hfuel).
  destruct (recv_loop_delivers (Gateway.now w + 12000) c0 w Gateway.Socket a hello rest
              _ k Hws0 Hup Hin ltac:(lia) Ha ltac:(lia) Hfuel)
    as (c1 & w1 & Hrun & (_ & _ & _ & _ & Hint1) & _ & _ & Hin1 & _ & _ & Ho1).
  rewrite Hrun in Hconnect.
  change (Gateway.msg_get (Gateway.mkMsg (Gateway.next_obj w) hello) "op")
    with (dict_get hello "op" JNull) in Hconnect.
  rewrite Hop in Hconnect. cbn [negb] in Hconnect.
  change (Gateway.hello_interval (Gateway.mkMsg (Gateway.next_obj w) hello))
    with (Gateway.hello_interval (Gateway.mkMsg 0 hello)) in Hconnect.
  exists c1, w1. split; [| split; [exact Hin1 | split; [exact Ho1 | exact Hint1]]].
  rewrite Hconnect.
  destruct (Gateway.hello_interval (Gateway.mkMsg 0 hello)); try discriminate Hbad;
    reflexivity.
Qed.

Lemma connect_rejects_unusable_interval_witness :
  exists c' w',
    Gateway.connect Gateway.no_float_of_str Gateway.guest1
                    Gateway.null_interval_handshake
    = Some (Raise Gateway.float_type_error, c', w')
    /\ Gateway.inbox w' = [(60, Gateway.dispatch "READY" (JDict []))]
    /\ Gateway.only_keepalives_since Gateway.null_interval_handshake w'
    /\ Gateway.heartbeat_interval_s c' = Gateway.heartbeat_interval_s Gateway.guest1.
Proof.
  apply (connect_rejects_unusable_interval Gateway.no_float_of_str Gateway.guest1
           Gateway.null_interval_handshake 20
           [("op"%string, JNum 10);
            ("d"%string, JDict [("heartbeat_interval"%string, JNull)])]
           [(60, Gateway.dispatch "READY" (JDict []))]);
    reflexivity.
Defined.
(** * Further properties of the poller *)

Section PollerTrace.
Import Poller.
Variables (e : env) (desc : string) (t0 deadline : Z).

Lemma fruitless_none (tick : Z) : fruitless tick e t0 deadline 0.
Proof. intros k Hk. lia. Qed.

Lemma fruitless_more (tick : Z) (n : nat) :
  fruitless tick e t0 deadline n ->
  instant tick e t0 n < deadline ->
  fn_result e (instant tick e t0 n) <> Ok true ->
  fruitless tick e t0 deadline (S n).
Proof.
  intros Hn Hlt Hne k Hk.
  destruct (Nat.eq_dec k n) as [-> | Hkn]; [auto | apply Hn; lia].
Qed.

Lemma instant_ge (tick : Z) (n : nat) : 0 <= tick -> t0 <= instant tick e t0 n.
Proof.
  intro Htick. induction n as [| n IH]; simpl; [lia |].
  pose proof (sleep_advances e tick (instant tick e t0 n)). lia.
Qed.

(** From the [n]-th loop test on, the e2e loop ends at the first poll that
    answers True, or at the first loop test made at or after the deadline. *)
Lemma e2e_poll_trace :
  forall (fuel n : nat),
    deadline - instant E2E.tick e t0 n < Z.of_nat fuel * E2E.tick ->
    fruitless E2E.tick e t0 deadline n ->
    exists r t' m,
      E2E.poll fuel e desc deadline (instant E2E.tick e t0 n) = Some (r, t')
      /\ (n <= m)%nat
      /\ fruitless E2E.tick e t0 deadline m
      /\ match r with
         | Ok _ =>
             instant E2E.tick e t0 m < deadline
             /\ fn_result e (instant E2E.tick e t0 m) = Ok true
             /\ t' = after_fn e (instant E2E.tick e t0 m)
         | Raise x =>
             x = mkExn TimeoutError (timeout_message desc)
             /\ t' = instant E2E.tick e t0 m
             /\ deadline <= t'
         end.
Proof.
  induction fuel as [| fuel IH]; intros n Hfuel Hn; simpl.
  - destruct (Z.ltb_spec (instant E2E.tick e t0 n) deadline) as [Hlt | Hge]; [lia |].
    exists (Raise (mkExn TimeoutError (timeout_message desc))), (instant E2E.tick e t0 n), n.
    auto 6.
  - destruct (Z.ltb_spec (instant E2E.tick e t0 n) deadline) as [Hlt | Hge].
    + pose proof (sleep_advances e E2E.tick (instant E2E.tick e t0 n)) as Hs.
      assert (Hnext : deadline - instant E2E.tick e t0 (S n)
                      < Z.of_nat fuel * E2E.tick).
      { simpl instant. change E2E.tick with 500 in *. lia. }
      destruct (fn_result e (instant E2E.tick e t0 n)) as [[|] | x] eqn:Hfn.
      * exists (Ok tt), (after_fn e (instant E2E.tick e t0 n)), n. auto 6.
      * destruct (IH (S n) Hnext) as (r & t' & m & Hp & Hm & Hfr & Hr).
        { apply fruitless_more; [assumption | assumption | congruence]. }
        exists r, t', m. split; [exact Hp |]. split; [lia | auto].
      * destruct (IH (S n) Hnext) as (r & t' & m & Hp & Hm & Hfr & Hr).
        { apply fruitless_more; [assumption | assumption | congruence]. }
        exists r, t', m. split; [exact Hp |]. split; [lia | auto].
    + exists (Raise (mkExn TimeoutError (timeout_message desc))), (instant E2E.tick e t0 n), n.
      auto 6.
Qed.

(** The same for the live loop, which also carries the latest exception. *)
Lemma live_poll_trace :
  forall (fuel n : nat),
    deadline - instant Live.tick e t0 n < Z.of_nat fuel * Live.tick ->
    fruitless Live.tick e t0 deadline n ->
    exists r t' m,
      Live.poll fuel e desc deadline (last_raised Live.tick e t0 n)
                (instant Live.tick e t0 n) = Some (r, t')
      /\ (n <= m)%nat
      /\ fruitless Live.tick e t0 deadline m
      /\ match r with
         | Ok _ =>
             instant Live.tick e t0 m < deadline
             /\ fn_result e (instant Live.tick e t0 m) = Ok true
             /\ t' = after_fn e (instant Live.tick e t0 m)
         | Raise x =>
             x = mkExn TimeoutError
                   match last_raised Live.tick e t0 m with
                   | Some exc => timeout_message_with desc exc
                   | None => timeout_message desc
                   end
             /\ t' = instant Live.tick e t0 m
             /\ deadline <= t'
         end.
Proof.
  assert (Hexit : forall n,
    deadline <= instant Live.tick e t0 n ->
    fruitless Live.tick e t0 deadline n ->
    exists r t' m,
      match last_raised Live.tick e t0 n with
      | Some exc =>
          Some (@Raise unit (mkExn TimeoutError (timeout_message_with desc exc)),
                instant Live.tick e t0 n)
      | None =>
          Some (Raise (mkExn TimeoutError (timeout_message desc)),
                instant Live.tick e t0 n)
      end = Some (r, t')
      /\ (n <= m)%nat
      /\ fruitless Live.tick e t0 deadline m
      /\ match r with
         | Ok _ =>
             instant Live.tick e t0 m < deadline
             /\ fn_result e (instant Live.tick e t0 m) = Ok true
             /\ t' = after_fn e (instant Live.tick e t0 m)
         | Raise x =>
             x = mkExn TimeoutError
                   match last_raised Live.tick e t0 m with
                   | Some exc => timeout_message_with desc exc
                   | None => timeout_message desc
                   end
             /\ t' = instant Live.tick e t0 m
             /\ deadline <= t'
         end).
  { intros n Hge Hn.
    exists (Raise (mkExn TimeoutError
                     match last_raised Live.tick e t0 n with
                     | Some exc => timeout_message_with desc exc
                     | None => timeout_message desc
                     end)), (instant Live.tick e t0 n), n.
    split; [destruct (last_raised Live.tick e t0 n); reflexivity |].
    auto 6. }
  induction fuel as [| fuel IH]; intros n Hfuel Hn; simpl.
  - destruct (Z.ltb_spec (instant Live.tick e t0 n) deadline) as [Hlt | Hge]; [lia |].
    now apply Hexit.
  - destruct (Z.ltb_spec (instant Live.tick e t0 n) deadline) as [Hlt | Hge];
      [| now apply Hexit].
    pose proof (sleep_advances e Live.tick (instant Live.tick e t0 n)) as Hs.
    assert (Hnext : deadline - instant Live.tick e t0 (S n)
                    < Z.of_nat fuel * Live.tick).
    { simpl instant. change Live.tick with 400 in *. lia. }
    destruct (fn_result e (instant Live.tick e t0 n)) as [[|] | x] eqn:Hfn.
    + exists (Ok tt), (after_fn e (instant Live.tick e t0 n)), n. auto 6.
    + destruct (IH (S n) Hnext) as (r & t' & m & Hp & Hm & Hfr & Hr).
      { apply fruitless_more; [assumption | assumption | congruence]. }
      simpl in Hp. rewrite Hfn in Hp.
      exists r, t', m. split; [exact Hp |]. split; [lia | auto].
    + destruct (IH (S n) Hnext) as (r & t' & m & Hp & Hm & Hfr & Hr).
      { apply fruitless_more; [assumption | assumption | congruence]. }
      simpl in Hp. rewrite Hfn in Hp.
      exists r, t', m. split; [exact Hp |]. split; [lia | auto].
Qed.



End PollerTrace.

(** X11: in both scripts wait_until returns normally only at the first poll
    that answers True, made before the deadline, and raises its TimeoutError
    only at a loop test made at or after the deadline; until then every poll
    was made before the deadline and none answered True.  Polls are made at
    the call and after each pause, and at no other time. *)
Theorem wait_until_stops_at_first_true
  (e : Poller.env) (desc : string) (timeout_s t0 : Z) :
  (exists r t' n,
      Poller.E2E.wait_until e desc timeout_s t0 = Some (r, t')
      /\ Poller.fruitless Poller.E2E.tick e t0 (t0 + timeout_s) n
      /\ match r with
         | Ok _ =>
             Poller.instant Poller.E2E.tick e t0 n < t0 + timeout_s
             /\ Poller.fn_result e (Poller.instant Poller.E2E.tick e t0 n) = Ok true
             /\ t' = Poller.after_fn e (Poller.instant Poller.E2E.tick e t0 n)
         | Raise x =>
             exn_cls x = TimeoutError
             /\ t' = Poller.instant Poller.E2E.tick e t0 n
             /\ t0 + timeout_s <= t'
         end)
  /\ (exists r t' n,
         Poller.Live.wait_until e desc timeout_s t0 = Some (r, t')
         /\ Poller.fruitless Poller.Live.tick e t0 (t0 + timeout_s) n
         /\ match r with
            | Ok _ =>
                Poller.instant Poller.Live.tick e t0 n < t0 + timeout_s
                /\ Poller.fn_result e (Poller.instant Poller.Live.tick e t0 n) = Ok true
                /\ t' = Poller.after_fn e (Poller.instant Poller.Live.tick e t0 n)
            | Raise x =>
                exn_cls x = TimeoutError
                /\ t' = Poller.instant Poller.Live.tick e t0 n
                /\ t0 + timeout_s <= t'
            end).
Proof.
  pose proof (passes_enough Poller.E2E.tick timeout_s ltac:(reflexivity)) as H500.
  pose proof (passes_enough Poller.Live.tick timeout_s ltac:(reflexivity)) as H400.
  split.
  - destruct (e2e_poll_trace e desc t0 (t0 + timeout_s)
                (Poller.passes Poller.E2E.tick timeout_s) 0)
      as (r & t' & n & Hp & _ & Hfr & Hr).
    { simpl. lia. }
    { apply fruitless_none. }
    exists r, t', n. split; [exact Hp |]. split; [exact Hfr |].
    destruct r as [u | x]; [exact Hr |].
    destruct Hr as (-> & Ht & Hd). auto.
  - destruct (live_poll_trace e desc t0 (t0 + timeout_s)
                (Poller.passes Poller.Live.tick timeout_s) 0)
      as (r & t' & n & Hp & _ & Hfr & Hr).
    { simpl. lia. }
    { apply fruitless_none. }
    exists r, t', n. split; [exact Hp |]. split; [exact Hfr |].
    destruct r as [u | x]; [exact Hr |].
    destruct Hr as (-> & Ht & Hd). auto.
Qed.


(** X13: when evaluating the condition and oversleeping cost at most [J] ms
    per pass, wait_until is back, in either way, less than one pause
    plus [J] after the deadline (or at once, when the timeout is not
    positive), and never before the call. *)
Theorem wait_until_overshoot_bounded
  (e : Poller.env) (desc : string) (timeout_s t0 J : Z)
  (Hjit : Poller.jitter_le e J) :
  (exists r t',
      Poller.E2E.wait_until e desc timeout_s t0 = Some (r, t')
      /\ t0 <= t'
      /\ (t' = t0 \/ t' < t0 + timeout_s + 500 + J))
  /\ (exists r t',
         Poller.Live.wait_until e desc timeout_s t0 = Some (r, t')
         /\ t0 <= t'
         /\ (t' = t0 \/ t' < t0 + timeout_s + 400 + J)).
Proof.
  pose proof (passes_enough Poller.E2E.tick timeout_s ltac:(reflexivity)) as H500.
  pose proof (passes_enough Poller.Live.tick timeout_s ltac:(reflexivity)) as H400.
  assert (HJ : 0 <= J) by (specialize (Hjit 0); lia).
  split.
  - destruct (e2e_poll_trace e desc t0 (t0 + timeout_s)
                (Poller.passes Poller.E2E.tick timeout_s) 0)
      as (r & t' & n & Hp & _ & Hfr & Hr).
    { simpl. lia. }
    { apply fruitless_none. }
    exists r, t'. split; [exact Hp |].
    pose proof (instant_ge e t0 Poller.E2E.tick n ltac:(discriminate)) as Hge.
    destruct r as [u | x].
    + destruct Hr as (Hlt & _ & ->).
      pose proof (Hjit (Poller.instant Poller.E2E.tick e t0 n)) as Hj.
      unfold Poller.after_fn at 1 3. split; [lia | right; lia].
    + destruct Hr as (_ & -> & _). split; [exact Hge |].
      destruct n as [| n]; [left; reflexivity | right].
      destruct (Hfr n ltac:(lia)) as [Hlt _].
      pose proof (sleep_bounded e Poller.E2E.tick
                    (Poller.instant Poller.E2E.tick e t0 n) J Hjit) as Hs.
      simpl Poller.instant. change Poller.E2E.tick with 500 in *. lia.
  - destruct (live_poll_trace e desc t0 (t0 + timeout_s)
                (Poller.passes Poller.Live.tick timeout_s) 0)
      as (r & t' & n & Hp & _ & Hfr & Hr).
    { simpl. lia. }
    { apply fruitless_none. }
    exists r, t'. split; [exact Hp |].
    pose proof (instant_ge e t0 Poller.Live.tick n ltac:(discriminate)) as Hge.
    destruct r as [u | x].
    + destruct Hr as (Hlt & _ & ->).
      pose proof (Hjit (Poller.instant Poller.Live.tick e t0 n)) as Hj.
      unfold Poller.after_fn at 1 3. split; [lia | right; lia].
    + destruct Hr as (_ & -> & _). split; [exact Hge |].
      destruct n as [| n]; [left; reflexivity | right].
      destruct (Hfr n ltac:(lia)) as [Hlt _].
      pose proof (sleep_bounded e Poller.Live.tick
                    (Poller.instant Poller.Live.tick e t0 n) J Hjit) as Hs.
      simpl Poller.instant. change Poller.Live.tick with 400 in *. lia.
Qed.

Lemma wait_until_overshoot_bounded_witness :
  Poller.jitter_le (Poller.step_env 0 300) 0
  /\ (exists r t',
        Poller.E2E.wait_until (Poller.step_env 0 300) "message replicated to B"%string 800 0
        = Some (r, t')
        /\ 0 <= t' /\ (t' = 0 \/ t' < 0 + 800 + 500 + 0)).
Proof.
  split; [apply step_env_no_jitter |].
  exact (proj1 (wait_until_overshoot_bounded (Poller.step_env 0 300)
                  "message replicated to B"%string 800 0 0
                  (step_env_no_jitter 0 300))).
Defined.

(** * Further properties of the final checks *)

(** X14: the relay checks raise nothing but their two AssertionErrors, and the
    first test takes precedence: the e2e script reports a direct delivery
    exactly when A's ledger holds an attempt towards C, whatever else is
    missing, and missing relay evidence only otherwise; the live script
    reports a missing event exactly when C has not ingested it, and a missing
    attempt only otherwise.  Whatever passes the e2e check passes the live
    check. *)
Theorem relay_check_diagnosis (a_db b_db c_db : Inspector.node_db) (ev : string) :
  (Inspector.E2E.relay_check a_db b_db c_db ev
   = Raise (Inspector.assertion_error
              [Text "A unexpectedly delivered message directly to C"%string])
   <-> Inspector.direct_attempt a_db ev)
  /\ (Inspector.E2E.relay_check a_db b_db c_db ev
      = Raise (Inspector.assertion_error
                 [Text "Relay evidence missing: expected B->C delivery and C event"%string])
      <-> ~ Inspector.direct_attempt a_db ev
          /\ ~ (Inspector.relay_attempt b_db ev /\ Inspector.ingested c_db ev))
  /\ (Inspector.Live.relay_check a_db b_db c_db ev
      = Raise (Inspector.assertion_error [Text "C did not ingest A-origin event"%string])
      <-> ~ Inspector.ingested c_db ev)
  /\ (Inspector.Live.relay_check a_db b_db c_db ev
      = Raise (Inspector.assertion_error
                 [Text "No delivery attempt to C observed from A or B"%string])
      <-> Inspector.ingested c_db ev
          /\ ~ Inspector.direct_attempt a_db ev
          /\ ~ Inspector.relay_attempt b_db ev)
  /\ implb (is_ok (Inspector.E2E.relay_check a_db b_db c_db ev))
           (is_ok (Inspector.Live.relay_check a_db b_db c_db ev)) = true.
Proof.
  pose proof (attempts_pos_iff a_db ev) as Ha.
  pose proof (attempts_pos_iff b_db ev) as Hb.
  pose proof (events_pos_iff c_db ev) as Hc.
  pose proof (count_attempts_nonneg a_db ev Inspector.node_c) as Na.
  pose proof (count_attempts_nonneg b_db ev Inspector.node_c) as Nb.
  pose proof (count_events_nonneg c_db ev) as Nc.
  unfold Inspector.direct_attempt, Inspector.relay_attempt, Inspector.ingested.
  unfold Inspector.E2E.relay_check, Inspector.Live.relay_check.
  cbv zeta.
  set (a := Inspector.count_attempts a_db ev Inspector.node_c) in *.
  set (b := Inspector.count_attempts b_db ev Inspector.node_c) in *.
  set (c := Inspector.count_events c_db ev) in *.
  rewrite <- Ha, <- Hb, <- Hc.
  destruct (Z.eqb_spec a 0) as [Ea | Ea];
    destruct (Z.leb_spec a 0) as [La | La]; try lia;
    destruct (Z.leb_spec b 0) as [Lb | Lb];
    destruct (Z.leb_spec c 0) as [Lc | Lc];
    cbn [negb orb andb is_ok implb];
    (split; [| split; [| split; [| split]]]);
    try reflexivity;
    (split; [try discriminate; intros _; try lia | try reflexivity; intro; lia]).
Qed.

Section RowOrder.

Lemma string_compare_lt_trans :
  forall a b c : string,
    String.compare a b = Lt -> String.compare b c = Lt -> String.compare a c = Lt.
Proof.
  induction a as [| x a IH]; intros [| y b] [| z c]; simpl; try discriminate; auto.
  unfold Ascii.compare.
  destruct (N.compare_spec (N_of_ascii x) (N_of_ascii y)) as [Exy | Lxy | Gxy];
    try discriminate;
    destruct (N.compare_spec (N_of_ascii y) (N_of_ascii z)) as [Eyz | Lyz | Gyz];
    try discriminate;
    destruct (N.compare_spec (N_of_ascii x) (N_of_ascii z)) as [Exz | Lxz | Gxz];
    try lia; auto.
  apply IH.
Qed.

Lemma string_leb_trans (a b c : string) :
  String.leb a b = true -> String.leb b c = true -> String.leb a c = true.
Proof.
  unfold String.leb. intros Hab Hbc.
  destruct (String.compare a b) eqn:Eab; try discriminate.
  - apply String.compare_eq_iff in Eab. now subst.
  - destruct (String.compare b c) eqn:Ebc; try discriminate.
    + apply String.compare_eq_iff in Ebc. subst. now rewrite Eab.
    + now rewrite (string_compare_lt_trans a b c Eab Ebc).
Qed.

Definition name_le (a b : string) : Prop := String.leb a b = true.

Lemma insert_sorted_perm (x : string) (l : list string) :
  Permutation (x :: l) (Inspector.insert_sorted x l).
Proof.
  induction l as [| y l IH]; simpl; [reflexivity |].
  destruct (String.leb x y); [reflexivity |].
  rewrite perm_swap. now apply perm_skip.
Qed.

Lemma order_by_name_perm (l : list string) :
  Permutation l (Inspector.order_by_name l).
Proof.
  induction l as [| x l IH]; simpl; [reflexivity |].
  rewrite <- insert_sorted_perm. now apply perm_skip.
Qed.

Lemma insert_sorted_sorted (x : string) (l : list string) :
  StronglySorted name_le l -> StronglySorted name_le (Inspector.insert_sorted x l).
Proof.
  induction 1 as [| y l Hl IH Hy]; simpl.
  - constructor; constructor.
  - destruct (String.leb x y) eqn:Hxy.
    + constructor; [now constructor |].
      constructor; [exact Hxy |].
      eapply Forall_impl; [| exact Hy].
      intros z Hz. exact (string_leb_trans x y z Hxy Hz).
    + constructor; [exact IH |].
      eapply Permutation_Forall; [apply insert_sorted_perm |].
      constructor; [| exact Hy].
      destruct (String.leb_total x y) as [H | H]; [congruence | exact H].
Qed.

Lemma order_by_name_sorted (l : list string) :
  StronglySorted name_le (Inspector.order_by_name l).
Proof.
  induction l as [| x l IH]; simpl; [constructor | now apply insert_sorted_sorted].
Qed.

Lemma sorted_perm_eq :
  forall l1 l2 : list string,
    StronglySorted name_le l1 -> StronglySorted name_le l2 ->
    Permutation l1 l2 -> l1 = l2.
Proof.
  induction l1 as [| a l1 IH]; intros l2 H1 H2 Hp.
  - apply Permutation_nil in Hp. now subst.
  - destruct l2 as [| b l2]; [apply Permutation_sym, Permutation_nil in Hp; discriminate |].
    inversion H1 as [| ? ? H1' Ha]; subst.
    inversion H2 as [| ? ? H2' Hb]; subst.
    assert (a = b) as ->.
    { assert (Hin_a : In a (b :: l2)) by (eapply Permutation_in; [exact Hp | now left]).
      assert (Hin_b : In b (a :: l1))
        by (eapply Permutation_in; [apply Permutation_sym; exact Hp | now left]).
      destruct Hin_a as [-> | Hin_a]; [reflexivity |].
      destruct Hin_b as [-> | Hin_b]; [reflexivity |].
      rewrite Forall_forall in Ha, Hb.
      apply String.leb_antisym; [apply Ha | apply Hb]; assumption. }
    f_equal. apply IH; try assumption.
    eapply Permutation_cons_inv. exact Hp.
Qed.

Lemma trusted_names_perm (l1 l2 : list Inspector.federated_server) :
  Permutation l1 l2 ->
  Permutation (map Inspector.server_name (filter Inspector.trusted l1))
              (map Inspector.server_name (filter Inspector.trusted l2)).
Proof.
  induction 1 as [| x l1 l2 Hp IH | x y l | l1 l2 l3 H12 IH12 H23 IH23]; simpl.
  - reflexivity.
  - destruct (Inspector.trusted x); simpl; [now apply perm_skip | exact IH].
  - destruct (Inspector.trusted x), (Inspector.trusted y); simpl;
      try reflexivity. apply perm_swap.
  - now transitivity (map Inspector.server_name (filter Inspector.trusted l2)).
Qed.

End RowOrder.

(** X15: the order of the rows of [federated_servers] does not matter to the
    final trust check.  In the e2e script, which sorts the names, two tables
    with the same rows give the same outcome, the text of the AssertionError
    included; in the live script they pass or fail alike. *)
Theorem trust_check_ignores_row_order (db1 db2 : Inspector.node_db)
  (Hrows : Permutation (Inspector.federated_servers db1)
                       (Inspector.federated_servers db2)) :
  Inspector.E2E.trust_check db1 = Inspector.E2E.trust_check db2
  /\ is_ok (Inspector.Live.trust_check db1) = is_ok (Inspector.Live.trust_check db2).
Proof.
  pose proof (trusted_names_perm _ _ Hrows) as Hnames.
  fold (Inspector.trusted_names db1) in Hnames.
  fold (Inspector.trusted_names db2) in Hnames.
  split.
  - unfold Inspector.E2E.trust_check.
    assert (Inspector.order_by_name (Inspector.trusted_names db1)
            = Inspector.order_by_name (Inspector.trusted_names db2)) as ->;
      [| reflexivity].
    apply sorted_perm_eq; try apply order_by_name_sorted.
    rewrite <- !order_by_name_perm. exact Hnames.
  - unfold Inspector.Live.trust_check. cbv zeta.
    assert (existsb (String.eqb Inspector.node_b) (Inspector.trusted_names db1)
            = existsb (String.eqb Inspector.node_b) (Inspector.trusted_names db2)) as ->;
      [| now destruct (existsb _ _)].
    apply eq_true_iff_eq. rewrite !existsb_eqb_In.
    split; apply Permutation_in; [exact Hnames | now apply Permutation_sym].
Qed.

Lemma trust_check_ignores_row_order_witness :
  Permutation
    (Inspector.federated_servers Inspector.a_db_two_peers_shuffled)
    (Inspector.mkServer "node-d.test" false
       :: Inspector.federated_servers Inspector.a_db_two_peers)
  /\ Inspector.E2E.trust_check Inspector.a_db_two_peers_shuffled
     = Inspector.E2E.trust_check
         (Inspector.mkDb [] []
            (Inspector.mkServer "node-d.test" false
               :: Inspector.federated_servers Inspector.a_db_two_peers)).
Proof.
  assert (Hp : Permutation
    (Inspector.federated_servers Inspector.a_db_two_peers_shuffled)
    (Inspector.mkServer "node-d.test" false
       :: Inspector.federated_servers Inspector.a_db_two_peers)).
  { simpl. rewrite perm_swap. apply perm_skip.
    rewrite perm_swap. apply perm_skip. reflexivity. }
  split; [exact Hp |].
  exact (proj1 (trust_check_ignores_row_order
                  Inspector.a_db_two_peers_shuffled
                  (Inspector.mkDb [] []
                     (Inspector.mkServer "node-d.test" false
                        :: Inspector.federated_servers Inspector.a_db_two_peers))
                  Hp)).
Defined.

(** * Further properties of the security gate *)

Section RowPattern.
Import SecurityGate.
Local Open Scope string_scope.

Lemma strip_prefix_iff (p s r : string) :
  strip_prefix p s = Some r <-> s = p ++ r.
Proof.
  revert s. induction p as [| a p IH]; intro s; simpl.
  - split; congruence.
  - destruct s as [| b s]; [split; discriminate |].
    destruct (Ascii.eqb_spec a b) as [-> | Hab].
    + rewrite IH. split; congruence.
    + split; [discriminate | congruence].
Qed.

Lemma append_assoc (a b c : string) : (a ++ b) ++ c = a ++ (b ++ c).
Proof. induction a as [| x a IH]; simpl; [reflexivity | now rewrite IH]. Qed.

Lemma no_pipe_app (a b : string) : no_pipe (a ++ b) = no_pipe a && no_pipe b.
Proof.
  induction a as [| x a IH]; simpl; [reflexivity |].
  now rewrite IH, andb_assoc.
Qed.

Lemma span_no_pipe_split (s : string) :
  forall run rest,
    span_no_pipe s = (run, rest) ->
    s = run ++ rest /\ no_pipe run = true.
Proof.
  induction s as [| c s IH]; simpl; intros run rest H.
  - injection H as <- <-. auto.
  - destruct (is_pipe c) eqn:Hc.
    + injection H as <- <-. auto.
    + destruct (span_no_pipe s) as [r rest'] eqn:Hs.
      injection H as <- <-. destruct (IH r rest' eq_refl) as [-> Hr].
      simpl. rewrite Hc, Hr. auto.
Qed.

Lemma span_no_pipe_cell (a b : string) :
  no_pipe a = true -> span_no_pipe (a ++ String "|" b) = (a, String "|" b).
Proof.
  induction a as [| x a IH]; simpl; intro H; [reflexivity |].
  apply andb_true_iff in H as [Hx Ha]. apply negb_true_iff in Hx.
  now rewrite Hx, (IH Ha).
Qed.

Lemma last_char_snoc (s : string) (x : ascii) :
  last_char s = Some x -> exists c, s = c ++ String x EmptyString.
Proof.
  induction s as [| y s IH]; simpl; [discriminate |].
  destruct s as [| z s].
  - intros [= ->]. exists EmptyString. reflexivity.
  - intro H. destruct (IH H) as [c ->]. exists (String y c). reflexivity.
Qed.

Lemma last_char_app (c : string) (x : ascii) :
  last_char (c ++ String x EmptyString) = Some x.
Proof.
  induction c as [| y c IH]; simpl; [reflexivity |].
  destruct (c ++ String x EmptyString) eqn:E; [| exact IH].
  destruct c; discriminate.
Qed.

Lemma length_snoc (c : string) (x : ascii) :
  String.length (c ++ String x EmptyString) = S (String.length c).
Proof. induction c as [| y c IH]; simpl; [reflexivity | now rewrite IH]. Qed.

Lemma match_cell_iff (s r : string) :
  match_cell s = Some r <-> exists c, cell c /\ s = c ++ " | " ++ r.
Proof.
  unfold match_cell. split.
  - destruct (span_no_pipe s) as [run rest] eqn:Hspan.
    apply span_no_pipe_split in Hspan as [-> Hrun].
    destruct (Nat.leb_spec 2 (String.length run)) as [Hlen | Hlen]; [| discriminate].
    destruct (last_char run) as [x |] eqn:Hlast; [| discriminate].
    destruct (Ascii.eqb_spec x " ") as [-> | Hx].
    + intro Hstrip. apply strip_prefix_iff in Hstrip as ->.
      apply last_char_snoc in Hlast as [c ->].
      rewrite length_snoc in Hlen. rewrite no_pipe_app in Hrun.
      apply andb_true_iff in Hrun as [Hc _].
      exists c. split.
      * split; [| exact Hc]. intros ->. simpl in Hlen. lia.
      * now rewrite append_assoc.
    + destruct x as [[] [] [] [] [] [] [] []]; try discriminate.
      exfalso. now apply Hx.
  - intros (c & [Hne Hc] & ->).
    change (c ++ " | " ++ r) with (c ++ String " " (String "|" (String " " r))).
    change (c ++ String " " (String "|" (String " " r)))
      with (c ++ (String " " EmptyString ++ String "|" (String " " r))).
    rewrite <- append_assoc.
    rewrite span_no_pipe_cell
      by (rewrite no_pipe_app, Hc; reflexivity).
    rewrite length_snoc, last_char_app.
    destruct c as [| y c]; [congruence |]. reflexivity.
Qed.

Lemma match_task_id_iff (s id r : string) :
  match_task_id s = Some (id, r)
  <-> exists d1 d2,
        is_digit d1 = true /\ is_digit d2 = true
        /\ id = task_id d1 d2
        /\ s = "P0-" ++ String d1 (String d2 r).
Proof.
  unfold match_task_id. split.
  - destruct (strip_prefix "P0-" s) as [[| d1 [| d2 rest]] |] eqn:Hstrip;
      try discriminate.
    apply strip_prefix_iff in Hstrip as ->.
    destruct (is_digit d1) eqn:H1; [| discriminate].
    destruct (is_digit d2) eqn:H2; [| discriminate].
    simpl. intros [= <- <-]. exists d1, d2. auto.
  - intros (d1 & d2 & H1 & H2 & -> & ->). simpl.
    rewrite H1, H2. reflexivity.
Qed.

Lemma match_status_iff (s status : string) :
  match_status ["OPEN"; "IN_PROGRESS"; "BLOCKED"] s = Some status
  <-> In status ["OPEN"; "IN_PROGRESS"; "BLOCKED"]
      /\ exists rest, s = status ++ " |" ++ rest.
Proof.
  split.
  - unfold match_status.
    destruct (strip_prefix ("OPEN" ++ " |") s) as [r |] eqn:H1.
    { intros [= <-]. apply strip_prefix_iff in H1.
      split; [simpl; auto | exists r; exact H1]. }
    destruct (strip_prefix ("IN_PROGRESS" ++ " |") s) as [r |] eqn:H2.
    { intros [= <-]. apply strip_prefix_iff in H2.
      split; [simpl; auto | exists r; exact H2]. }
    destruct (strip_prefix ("BLOCKED" ++ " |") s) as [r |] eqn:H3; [| discriminate].
    intros [= <-]. apply strip_prefix_iff in H3.
    split; [simpl; auto | exists r; exact H3].
  - intros [Hin (rest & ->)].
    destruct Hin as [<- | [<- | [<- | []]]]; reflexivity.
Qed.

Lemma ROW_RE_match_sound (line id status : string) :
  ROW_RE_match line = Some (id, status) ->
  exists d1 d2 c1 c2 c3 rest,
    is_digit d1 = true /\ is_digit d2 = true
    /\ cell c1 /\ cell c2 /\ cell c3
    /\ In status ["OPEN"; "IN_PROGRESS"; "BLOCKED"]
    /\ id = task_id d1 d2
    /\ line = row d1 d2 c1 c2 c3 status rest.
Proof.
  unfold ROW_RE_match, bind_opt.
  destruct (strip_prefix "| " line) as [s0 |] eqn:H0; [| discriminate].
  destruct (match_task_id s0) as [[tid s1] |] eqn:H1; [| discriminate].
  destruct (strip_prefix " | " s1) as [s2 |] eqn:H2; [| discriminate].
  destruct (match_cell s2) as [s3 |] eqn:H3; [| discriminate].
  destruct (match_cell s3) as [s4 |] eqn:H4; [| discriminate].
  destruct (match_cell s4) as [s5 |] eqn:H5; [| discriminate].
  destruct (match_status _ s5) as [st |] eqn:H6; [| discriminate].
  intros [= <- <-].
  apply strip_prefix_iff in H0 as ->.
  apply match_task_id_iff in H1 as (d1 & d2 & Hd1 & Hd2 & -> & ->).
  apply strip_prefix_iff in H2 as ->.
  apply match_cell_iff in H3 as (c1 & Hc1 & ->).
  apply match_cell_iff in H4 as (c2 & Hc2 & ->).
  apply match_cell_iff in H5 as (c3 & Hc3 & ->).
  apply match_status_iff in H6 as (Hin & rest & ->).
  exists d1, d2, c1, c2, c3, rest. repeat (split; [assumption |]).
  split; reflexivity.
Qed.

(** On a line of the shape of a row, everything but the status is matched
    in one way only. *)
Lemma ROW_RE_match_row (d1 d2 : ascii) (c1 c2 c3 status rest : string) :
  is_digit d1 = true -> is_digit d2 = true ->
  cell c1 -> cell c2 -> cell c3 ->
  ROW_RE_match (row d1 d2 c1 c2 c3 status rest)
  = match match_status ["OPEN"; "IN_PROGRESS"; "BLOCKED"] (status ++ " |" ++ rest) with
    | Some st => Some (task_id d1 d2, st)
    | None => None
    end.
Proof.
  intros Hd1 Hd2 Hc1 Hc2 Hc3.
  unfold ROW_RE_match, bind_opt, row.
  assert (E0 : strip_prefix "| "
            ("| P0-" ++ String d1 (String d2
               (" | " ++ c1 ++ " | " ++ c2 ++ " | " ++ c3 ++ " | "
                ++ status ++ " |" ++ rest)))
          = Some ("P0-" ++ String d1 (String d2
               (" | " ++ c1 ++ " | " ++ c2 ++ " | " ++ c3 ++ " | "
                ++ status ++ " |" ++ rest)))) by reflexivity.
  rewrite E0.
  assert (E1 : match_task_id ("P0-" ++ String d1 (String d2
               (" | " ++ c1 ++ " | " ++ c2 ++ " | " ++ c3 ++ " | "
                ++ status ++ " |" ++ rest)))
          = Some (task_id d1 d2,
                  " | " ++ c1 ++ " | " ++ c2 ++ " | " ++ c3 ++ " | "
                  ++ status ++ " |" ++ rest)).
  { apply match_task_id_iff. exists d1, d2. auto. }
  rewrite E1.
  assert (E2 : strip_prefix " | "
                 (" | " ++ c1 ++ " | " ++ c2 ++ " | " ++ c3 ++ " | "
                  ++ status ++ " |" ++ rest)
          = Some (c1 ++ " | " ++ c2 ++ " | " ++ c3 ++ " | "
                  ++ status ++ " |" ++ rest)) by reflexivity.
  rewrite E2.
  assert (E3 : match_cell (c1 ++ " | " ++ c2 ++ " | " ++ c3 ++ " | "
                           ++ status ++ " |" ++ rest)
          = Some (c2 ++ " | " ++ c3 ++ " | " ++ status ++ " |" ++ rest)).
  { apply match_cell_iff. exists c1. auto. }
  rewrite E3.
  assert (E4 : match_cell (c2 ++ " | " ++ c3 ++ " | " ++ status ++ " |" ++ rest)
          = Some (c3 ++ " | " ++ status ++ " |" ++ rest)).
  { apply match_cell_iff. exists c2. auto. }
  rewrite E4.
  assert (E5 : match_cell (c3 ++ " | " ++ status ++ " |" ++ rest)
          = Some (status ++ " |" ++ rest)).
  { apply match_cell_iff. exists c3. auto. }
  rewrite E5. reflexivity.
Qed.

Lemma ROW_RE_match_complete (d1 d2 : ascii) (c1 c2 c3 status rest : string) :
  is_digit d1 = true -> is_digit d2 = true ->
  cell c1 -> cell c2 -> cell c3 ->
  In status ["OPEN"; "IN_PROGRESS"; "BLOCKED"] ->
  ROW_RE_match (row d1 d2 c1 c2 c3 status rest) = Some (task_id d1 d2, status).
Proof.
  intros Hd1 Hd2 Hc1 Hc2 Hc3 Hin.
  rewrite ROW_RE_match_row by assumption.
  assert (match_status ["OPEN"; "IN_PROGRESS"; "BLOCKED"] (status ++ " |" ++ rest)
          = Some status) as ->; [| reflexivity].
  apply match_status_iff. eauto.
Qed.

Lemma ROW_RE_match_open_row (line : string) :
  ROW_RE_match line <> None <-> open_row line.
Proof.
  unfold open_row. split.
  - destruct (ROW_RE_match line) as [[id status] |] eqn:H; [| congruence].
    intros _. apply ROW_RE_match_sound in H
      as (d1 & d2 & c1 & c2 & c3 & rest & H1 & H2 & H3 & H4 & H5 & H6 & _ & H7).
    exists d1, d2, c1, c2, c3, status, rest. auto 10.
  - intros (d1 & d2 & c1 & c2 & c3 & status & rest & H1 & H2 & H3 & H4 & H5 & H6 & ->).
    rewrite ROW_RE_match_complete by assumption. discriminate.
Qed.

Lemma snoc_inj (a b : string) (x : ascii) :
  a ++ String x EmptyString = b ++ String x EmptyString -> a = b.
Proof.
  revert b. induction a as [| y a IH]; intros [| z b]; simpl; intro H.
  - reflexivity.
  - injection H as _ H. destruct b; discriminate.
  - injection H as _ H. destruct a; discriminate.
  - injection H as -> H. f_equal. now apply IH.
Qed.

(** A status without a pipe is matched by itself only. *)
Lemma match_status_other (status rest : string) :
  no_pipe status = true ->
  ~ In status ["OPEN"; "IN_PROGRESS"; "BLOCKED"] ->
  match_status ["OPEN"; "IN_PROGRESS"; "BLOCKED"] (status ++ " |" ++ rest) = None.
Proof.
  intros Hs Hother.
  destruct (match_status _ _) as [st |] eqn:H; [| reflexivity].
  exfalso. apply match_status_iff in H as (Hin & r & Heq).
  assert (Hst : no_pipe st = true)
    by (destruct Hin as [<- | [<- | [<- | []]]]; reflexivity).
  assert (E : forall a b, a ++ " |" ++ b
                          = (a ++ String " " EmptyString) ++ String "|" b).
  { intros a b. now rewrite append_assoc. }
  rewrite !E in Heq.
  assert (Hspan : span_no_pipe ((status ++ String " " EmptyString) ++ String "|" rest)
                  = span_no_pipe ((st ++ String " " EmptyString) ++ String "|" r))
    by now rewrite Heq.
  rewrite !span_no_pipe_cell in Hspan
    by (rewrite no_pipe_app; (rewrite Hs || rewrite Hst); reflexivity).
  injection Hspan as Hsnoc _. apply snoc_inj in Hsnoc. subst. contradiction.
Qed.

Lemma collect_blocked_nil (lines : list string) :
  collect_blocked lines = [] <-> (forall line, In line lines -> ~ open_row line).
Proof.
  induction lines as [| l lines IH]; simpl.
  - split; [intros _ line [] | reflexivity].
  - destruct (ROW_RE_match l) as [rw |] eqn:Hl.
    + split; [discriminate |]. intro H. exfalso.
      apply (H l (or_introl eq_refl)). apply ROW_RE_match_open_row. congruence.
    + rewrite IH. split.
      * intros H line [<- | Hin]; [| now apply H].
        rewrite <- ROW_RE_match_open_row. congruence.
      * intros H line Hin. apply H. now right.
Qed.

Lemma for_each_prints {A} (body : A -> stmt) (render : A -> string)
  (xs : list A) (out : list string) :
  (forall x o, body x o = print (render x) o) ->
  for_each xs body out = Running (out ++ map render xs)%list.
Proof.
  intro Hbody. revert out. induction xs as [| x xs IH]; intro out; simpl.
  - unfold pass. now rewrite app_nil_r.
  - unfold seq. rewrite Hbody. unfold print. rewrite IH. now rewrite <- app_assoc.
Qed.

End RowPattern.

(** X16: ROW_RE matches a line of ASCII text, as [re.match] does from its
    first character, exactly when the line starts with a tracker row: a task id P0- and two
    digits, three cells of at least one character and no pipe, and one of
    the statuses OPEN, IN_PROGRESS, BLOCKED, all set off by single spaces
    and pipes; its two groups are then the task id and that status. *)
Theorem ROW_RE_matches_open_rows (line id status : string) :
  SecurityGate.ROW_RE_match line = Some (id, status)
  <-> exists d1 d2 c1 c2 c3 rest,
        SecurityGate.is_digit d1 = true /\ SecurityGate.is_digit d2 = true
        /\ SecurityGate.cell c1 /\ SecurityGate.cell c2 /\ SecurityGate.cell c3
        /\ In status ["OPEN"%string; "IN_PROGRESS"%string; "BLOCKED"%string]
        /\ id = SecurityGate.task_id d1 d2
        /\ line = SecurityGate.row d1 d2 c1 c2 c3 status rest.
Proof.
  split.
  - apply ROW_RE_match_sound.
  - intros (d1 & d2 & c1 & c2 & c3 & rest & H1 & H2 & H3 & H4 & H5 & H6 & -> & ->).
    now apply ROW_RE_match_complete.
Qed.

(** X17: a tracker row in any other status -- DONE, or whatever else holds
    no pipe -- is not matched by ROW_RE, whatever follows it on the line. *)
Theorem ROW_RE_skips_other_statuses
  (d1 d2 : ascii) (c1 c2 c3 status rest : string)
  (Hd1 : SecurityGate.is_digit d1 = true) (Hd2 : SecurityGate.is_digit d2 = true)
  (Hc1 : SecurityGate.cell c1) (Hc2 : SecurityGate.cell c2) (Hc3 : SecurityGate.cell c3)
  (Hstatus : SecurityGate.no_pipe status = true)
  (Hother : ~ In status ["OPEN"%string; "IN_PROGRESS"%string; "BLOCKED"%string]) :
  SecurityGate.ROW_RE_match (SecurityGate.row d1 d2 c1 c2 c3 status rest) = None.
Proof.
  rewrite ROW_RE_match_row by assumption.
  now rewrite match_status_other.
Qed.

Lemma ROW_RE_skips_other_statuses_witness :
  SecurityGate.ROW_RE_match
    "| P0-01 | Rotate signing keys | alice | 2026-01-01 | DONE | OPEN |"%string
  = None.
Proof.
  apply (ROW_RE_skips_other_statuses "0" "1" "Rotate signing keys" "alice"
           "2026-01-01" "DONE" " OPEN |");
    try reflexivity;
    try (split; [discriminate | reflexivity]).
  intros [H | [H | [H | []]]]; discriminate.
Defined.

(** X18: lines 14-31 of main, which follow its [return 0], on a tracker of
    ASCII text: were they run, they would return 1 with one message when the
    tracker file is missing; return 1 when some line of the tracker starts
    with an open row, printing the failure line and then one line per such
    row, in the order of the file; and otherwise return 0 with the success
    line.  Earlier output is kept, and nothing else is printed.  (Outside
    ASCII, [\d] also matches other decimal digits, which this model of
    ROW_RE does not.) *)
Theorem gate_body_verdict (t : SecurityGate.tracker) (out : list string)
  (Hascii : SecurityGate.ascii_tracker t) :
  match t with
  | None =>
      SecurityGate.gate_body t out
      = SecurityGate.Returned 1 (out ++ ["Missing SECURITY_REMEDIATION_TRACKER.md"%string])
  | Some lines =>
      (forall id status,
          In (id, status) (SecurityGate.collect_blocked lines)
          <-> exists line, In line lines
                           /\ SecurityGate.ROW_RE_match line = Some (id, status))
      /\ ((forall line, In line lines -> ~ SecurityGate.open_row line)
          /\ SecurityGate.gate_body t out
             = SecurityGate.Returned 0
                 (out ++ ["Security release gate passed: all P0 tasks are DONE."%string])
          \/ (exists line, In line lines /\ SecurityGate.open_row line)
             /\ SecurityGate.gate_body t out
                = SecurityGate.Returned 1
                    (out
                     ++ "Release gate failed: one or more P0 tasks are not DONE."%string
                     :: map (fun '(id, status) =>
                               ("- " ++ id ++ ": " ++ status)%string)
                            (SecurityGate.collect_blocked lines)))
  end.
Proof.
  destruct t as [lines |]; [| reflexivity]. clear Hascii.
  assert (Hrows : forall id status,
    In (id, status) (SecurityGate.collect_blocked lines)
    <-> exists line, In line lines
                     /\ SecurityGate.ROW_RE_match line = Some (id, status)).
  { intros id status. induction lines as [| l lines IH]; simpl.
    - split; [intros [] | intros (line & [] & _)].
    - destruct (SecurityGate.ROW_RE_match l) as [rw |] eqn:Hl.
      + simpl. rewrite IH. split.
        * intros [-> | (line & Hin & Hm)]; [exists l; auto | exists line; auto].
        * intros (line & [<- | Hin] & Hm); [left; congruence | right; exists line; auto].
      + rewrite IH. split.
        * intros (line & Hin & Hm). exists line. auto.
        * intros (line & [<- | Hin] & Hm); [congruence | exists line; auto]. }
  split; [exact Hrows |].
  unfold SecurityGate.gate_body.
  destruct (SecurityGate.collect_blocked lines) as [| [id status] blocked] eqn:Hb.
  - left. split; [now apply collect_blocked_nil | reflexivity].
  - right. split.
    + destruct (proj1 (Hrows id status) (or_introl eq_refl)) as (line & Hin & Hm).
      exists line. split; [exact Hin |].
      apply ROW_RE_match_open_row. congruence.
    + unfold SecurityGate.seq at 1 2 3.
      unfold SecurityGate.print at 1.
      rewrite (for_each_prints _
                 (fun '(id, status) => ("- " ++ id ++ ": " ++ status)%string))
        by (intros [i st] o; reflexivity).
      unfold SecurityGate.return_. now rewrite <- app_assoc.
Qed.

(** A tracker of four ASCII lines, the last of them an open row. *)
Lemma gate_body_verdict_witness :
  SecurityGate.ascii_tracker SecurityGate.tracker_with_open_row
  /\ exists lines,
       SecurityGate.tracker_with_open_row = Some lines
       /\ (forall id status,
              In (id, status) (SecurityGate.collect_blocked lines)
              <-> exists line, In line lines
                               /\ SecurityGate.ROW_RE_match line = Some (id, status))
       /\ ((forall line, In line lines -> ~ SecurityGate.open_row line)
           /\ SecurityGate.gate_body (Some lines) []
              = SecurityGate.Returned 0
                  ([] ++ ["Security release gate passed: all P0 tasks are DONE."%string])
           \/ (exists line, In line lines /\ SecurityGate.open_row line)
              /\ SecurityGate.gate_body (Some lines) []
                 = SecurityGate.Returned 1
                     ([] ++ "Release gate failed: one or more P0 tasks are not DONE."%string
                      :: map (fun '(id, status) =>
                                ("- " ++ id ++ ": " ++ status)%string)
                             (SecurityGate.collect_blocked lines))).
Proof.
  assert (H : SecurityGate.ascii_tracker SecurityGate.tracker_with_open_row)
    by (repeat constructor).
  split; [exact H |].
  eexists. split; [reflexivity |].
  exact (gate_body_verdict SecurityGate.tracker_with_open_row [] H).
Defined.

(** * Properties of the database queries *)

Section Queries.
Import Store.

Lemma count_nonneg {A} (f : A -> bool) (t : list A) : 0 <= count f t.
Proof. unfold count. lia. Qed.

Lemma fetchone_none {A} (rows : list A) : fetchone rows = None <-> rows = [].
Proof. destruct rows; simpl; split; congruence. Qed.

Lemma flat_map_nil {A B} (f : A -> list B) (l : list A) :
  flat_map f l = [] <-> (forall x, In x l -> f x = []).
Proof.
  induction l as [| a l IH]; simpl.
  - split; [intros _ x [] | reflexivity].
  - split.
    + intros H x [<- | Hx].
      * now apply app_eq_nil in H.
      * apply app_eq_nil in H as [_ H]. now apply IH.
    + intro H. rewrite (H a (or_introl eq_refl)). simpl.
      apply IH. intros x Hx. apply H. now right.
Qed.

Lemma filter_nil {A} (f : A -> bool) (l : list A) :
  filter f l = [] <-> (forall x, In x l -> f x = false).
Proof.
  induction l as [| a l IH]; simpl.
  - split; [intros _ x [] | reflexivity].
  - destruct (f a) eqn:Ha.
    + split; [discriminate |]. intro H. specialize (H a (or_introl eq_refl)). congruence.
    + rewrite IH. split.
      * intros H x [<- | Hx]; auto.
      * intros H x Hx. apply H. now right.
Qed.

Lemma count_zero_nil {A} (f : A -> bool) (t : list A) :
  (count f t =? 0) = true <-> filter f t = [].
Proof.
  unfold count. rewrite Z.eqb_eq. destruct (filter f t); simpl; split;
    try reflexivity; try discriminate; lia.
Qed.

Lemma mapped_rows_in (d : db) (origin : string) (remote_id : Z) (fm : message_map) :
  In fm (mapped_rows d origin remote_id)
  <-> In fm (federation_message_map d)
      /\ origin_server fm = origin
      /\ remote_message_id fm = py_str_int remote_id.
Proof.
  unfold mapped_rows. rewrite filter_In, andb_true_iff, !String.eqb_eq. tauto.
Qed.

Lemma live_absent_iff (d : db) (origin : string) (remote_id : Z) :
  Live.mapped_message_absent d origin remote_id = true
  <-> (forall fm, In fm (mapped_rows d origin remote_id) ->
         filter (fun m => message_id m =? local_message_id fm) (messages d) = []).
Proof.
  unfold Live.mapped_message_absent, mapped_message_content.
  destruct (fetchone _) as [c |] eqn:Hrow.
  - split; [discriminate |]. intro H. exfalso.
    assert (Hnil : flat_map (fun fm =>
                     map content
                         (filter (fun m => message_id m =? local_message_id fm)
                                 (messages d)))
                     (mapped_rows d origin remote_id) = []).
    { apply flat_map_nil. intros fm Hfm. now rewrite (H fm Hfm). }
    rewrite Hnil in Hrow. discriminate.
  - apply fetchone_none in Hrow. split; [intros _ | reflexivity].
    intros fm Hfm. rewrite flat_map_nil in Hrow. specialize (Hrow fm Hfm).
    now apply map_eq_nil in Hrow.
Qed.

Lemma newest_spec (ps : list poll) :
  match newest ps with
  | None => ps = []
  | Some p => In p ps /\ forall q, In q ps -> created_at q <= created_at p
  end.
Proof.
  induction ps as [| p ps IH]; simpl; [reflexivity |].
  destruct (newest ps) as [q |].
  - destruct IH as [Hq Hmax].
    destruct (Z.ltb_spec (created_at p) (created_at q)) as [Hlt | Hge].
    + split; [now right |]. intros r [<- | Hr]; [lia | now apply Hmax].
    + split; [now left |]. intros r [<- | Hr]; [lia |].
      specialize (Hmax r Hr). lia.
  - subst ps. split; [now left |]. intros r [<- | []]. lia.
Qed.

End Queries.

(** X19: the wait conditions for a member joining and leaving are not each
    other's negation.  They are never both true; one of them is true exactly
    when [federation_remote_users] holds a row for the remote user; so with
    no such row both answer False, and waiting for the member to be absent
    times out.  With a row, the first one decides: present when [members]
    holds its local user in the guild, absent otherwise. *)
Theorem member_checks_need_mapping (d : Store.db) (remote_user : string) (guild : Z) :
  Store.remote_member_present d remote_user guild
    && Store.remote_member_absent d remote_user guild = false
  /\ (Store.remote_member_present d remote_user guild
        || Store.remote_member_absent d remote_user guild = true
      <-> exists u, In u (Store.federation_remote_users d)
                    /\ Store.remote_user_id u = remote_user)
  /\ (Store.remote_member_present d remote_user guild = true
      <-> exists mapping later,
            filter (fun u => String.eqb (Store.remote_user_id u) remote_user)
                   (Store.federation_remote_users d) = mapping :: later
            /\ exists m, In m (Store.members d)
                         /\ Store.user_id m = Store.local_user_id mapping
                         /\ Store.guild_id m = guild).
Proof.
  unfold Store.remote_member_present, Store.remote_member_absent.
  destruct (filter (fun u => String.eqb (Store.remote_user_id u) remote_user)
                   (Store.federation_remote_users d)) as [| mapping later] eqn:Hrows.
  - simpl. split; [reflexivity |]. split.
    + split; [discriminate |]. intros (u & Hin & Hu). exfalso.
      rewrite filter_nil in Hrows. specialize (Hrows u Hin).
      rewrite Hu, String.eqb_refl in Hrows. discriminate.
    + split; [discriminate |]. intros (mp & lt & Heq & _). discriminate.
  - simpl.
    pose proof (count_nonneg
                  (fun m => (Store.user_id m =? Store.local_user_id mapping)
                            && (Store.guild_id m =? guild))
                  (Store.members d)) as Hn.
    split; [| split].
    + destruct (Z.ltb_spec 0 (Store.count
                  (fun m => (Store.user_id m =? Store.local_user_id mapping)
                            && (Store.guild_id m =? guild)) (Store.members d)));
        destruct (Z.eqb_spec (Store.count
                  (fun m => (Store.user_id m =? Store.local_user_id mapping)
                            && (Store.guild_id m =? guild)) (Store.members d)) 0);
        try reflexivity; lia.
    + split.
      * intros _. exists mapping.
        assert (Hin : In mapping (mapping :: later)) by now left.
        rewrite <- Hrows in Hin. apply filter_In in Hin as [Hin Hu].
        apply String.eqb_eq in Hu. auto.
      * intros _.
        destruct (Z.ltb_spec 0 (Store.count
                  (fun m => (Store.user_id m =? Store.local_user_id mapping)
                            && (Store.guild_id m =? guild)) (Store.members d)));
          destruct (Z.eqb_spec (Store.count
                  (fun m => (Store.user_id m =? Store.local_user_id mapping)
                            && (Store.guild_id m =? guild)) (Store.members d)) 0);
          try reflexivity; lia.
    + rewrite Z.ltb_lt. unfold Store.count. rewrite count_pos_iff. split.
      * intros (m & Hm & Hf). apply andb_true_iff in Hf as [H1 H2].
        apply Z.eqb_eq in H1, H2. exists mapping, later. split; [reflexivity |].
        exists m. auto.
      * intros (mp & lt & [= <- <-] & m & Hm & H1 & H2). exists m.
        split; [exact Hm |]. now rewrite H1, H2, !Z.eqb_refl.
Qed.

(** X20: the two scripts decide differently whether a federated message is
    gone.  The live script answers True exactly when no row of the map for
    this origin and remote id points to a stored message; the e2e script
    looks at the first such row only.  So whatever the live script calls
    absent the e2e script calls absent too, and the two agree unless the map
    holds more than one row for the message -- in which case they can
    differ, as on a message mapped twice whose first local copy is gone. *)
Theorem mapped_message_absent_scripts (d : Store.db) (origin : string) (remote_id : Z) :
  (Store.Live.mapped_message_absent d origin remote_id = true
   <-> forall fm m,
         In fm (Store.federation_message_map d) ->
         Store.origin_server fm = origin ->
         Store.remote_message_id fm = py_str_int remote_id ->
         In m (Store.messages d) ->
         Store.message_id m <> Store.local_message_id fm)
  /\ implb (Store.Live.mapped_message_absent d origin remote_id)
           (Store.E2E.mapped_message_absent d origin remote_id) = true
  /\ (Store.E2E.mapped_message_absent d origin remote_id
      = Store.Live.mapped_message_absent d origin remote_id
      \/ (1 < List.length (Store.mapped_rows d origin remote_id))%nat)
  /\ Store.E2E.mapped_message_absent Store.twice_mapped "node-a.test"%string 42 = true
  /\ Store.Live.mapped_message_absent Store.twice_mapped "node-a.test"%string 42 = false.
Proof.
  split; [| split; [| split; [| split; reflexivity]]].
  - rewrite live_absent_iff. split.
    + intros H fm m Hfm Ho Hr Hm Heq.
      assert (Hrow : In fm (Store.mapped_rows d origin remote_id))
        by (apply mapped_rows_in; auto).
      specialize (H fm Hrow). rewrite filter_nil in H. specialize (H m Hm).
      rewrite Heq, Z.eqb_refl in H. discriminate.
    + intros H fm Hfm. apply mapped_rows_in in Hfm as (Hin & Ho & Hr).
      apply filter_nil. intros m Hm. apply Z.eqb_neq. now apply (H fm m).
  - destruct (Store.Live.mapped_message_absent d origin remote_id) eqn:Hlive;
      [| reflexivity].
    simpl. rewrite live_absent_iff in Hlive.
    unfold Store.E2E.mapped_message_absent.
    destruct (Store.mapped_rows d origin remote_id) as [| fm rows]; [reflexivity |].
    simpl. apply count_zero_nil. apply Hlive. now left.
  - destruct (Store.mapped_rows d origin remote_id) as [| fm [| fm' rows]] eqn:Hrows;
      [left | left | right; simpl; lia].
    + unfold Store.E2E.mapped_message_absent, Store.Live.mapped_message_absent,
        Store.mapped_message_content. rewrite Hrows. reflexivity.
    + apply eq_true_iff_eq. rewrite live_absent_iff.
      unfold Store.E2E.mapped_message_absent. rewrite Hrows. simpl.
      rewrite count_zero_nil. split.
      * intros H x [<- | []]. exact H.
      * intro H. apply H. now left.
Qed.

(** X21: latest_poll_id raises its RuntimeError exactly when the channel has
    no poll, and otherwise returns the id of a poll of that channel than
    which no poll of the channel was created later. *)
Theorem latest_poll_id_is_newest (d : Store.db) (channel : Z) :
  match Store.latest_poll_id d channel with
  | Raise e =>
      e = mkExn RuntimeError [Text "No poll found after create_poll"%string]
      /\ forall p, In p (Store.polls d) -> Store.channel_id p <> channel
  | Ok id =>
      exists p, In p (Store.polls d)
                /\ Store.channel_id p = channel
                /\ Store.poll_id p = id
                /\ forall q, In q (Store.polls d) ->
                             Store.channel_id q = channel ->
                             Store.created_at q <= Store.created_at p
  end.
Proof.
  unfold Store.latest_poll_id.
  pose proof (newest_spec (filter (fun p => Store.channel_id p =? channel)
                                  (Store.polls d))) as Hspec.
  destruct (Store.newest _) as [p |].
  - destruct Hspec as [Hin Hmax]. apply filter_In in Hin as [Hin Hch].
    apply Z.eqb_eq in Hch. exists p. repeat (split; [assumption || reflexivity |]).
    intros q Hq Hqch. apply Hmax. apply filter_In. split; [exact Hq |].
    now apply Z.eqb_eq.
  - split; [reflexivity |]. intros p Hp Hch.
    rewrite filter_nil in Hspec. specialize (Hspec p Hp).
    apply Z.eqb_neq in Hspec. contradiction.
Qed.

(** * Properties of the member-list assertion *)

Section MemberList.

Lemma to_int_proper (n : Z) :
  Z.to_int n <> Decimal.Pos Decimal.Nil /\ Z.to_int n <> Decimal.Neg Decimal.Nil.
Proof.
  assert (Hnorm : Z.to_int n = Decimal.norm (Z.to_int n)).
  { rewrite <- (DecimalZ.to_of (Z.to_int n)). now rewrite DecimalZ.of_to. }
  rewrite Hnorm.
  destruct (Z.to_int n) as [d | d]; simpl.
  - split; [| discriminate]. intros [= H]. now apply DecimalFacts.unorm_nonnil in H.
  - destruct (Decimal.nzhead d); split; discriminate.
Qed.

Lemma py_str_int_parse (n : Z) :
  DecimalString.NilZero.int_of_string (py_str_int n) = Some (Z.to_int n).
Proof.
  destruct (to_int_proper n) as [Hp Hn].
  now apply DecimalString.NilZero.isi.
Qed.

Lemma py_str_int_inj (n m : Z) : py_str_int n = py_str_int m -> n = m.
Proof.
  intro H. apply DecimalZ.to_int_inj.
  pose proof (py_str_int_parse n) as Hn. rewrite H, py_str_int_parse in Hn.
  congruence.
Qed.

Lemma py_str_int_not_bracketed (n : Z) (c : ascii) (rest : string) :
  c = "["%char \/ c = "{"%char -> py_str_int n <> String c rest.
Proof.
  intros Hc H. pose proof (py_str_int_parse n) as Hp. rewrite H in Hp.
  destruct Hc as [-> | ->]; simpl in Hp;
    destruct (DecimalString.NilEmpty.uint_of_string rest); discriminate.
Qed.

Lemma py_str_int_not_word (n : Z) (w : string) :
  DecimalString.NilZero.int_of_string w = None -> py_str_int n <> w.
Proof.
  intros Hw H. pose proof (py_str_int_parse n) as Hp. rewrite H in Hp. congruence.
Qed.

Variable container_str : json -> string.
Hypothesis Hbracketed : Members.bracketed container_str.

Lemma py_str_is_id (v : json) (n : Z) :
  String.eqb (Members.py_str container_str v) (py_str_int n) = true
  <-> v = JNum n \/ v = JStr (py_str_int n).
Proof.
  rewrite String.eqb_eq. destruct v as [| [|] | m | s | xs | kvs]; simpl.
  - split; [intro H; symmetry in H | intros [H | H]; discriminate].
    exfalso. revert H. now apply py_str_int_not_word.
  - split; [intro H; symmetry in H | intros [H | H]; discriminate].
    exfalso. revert H. now apply py_str_int_not_word.
  - split; [intro H; symmetry in H | intros [H | H]; discriminate].
    exfalso. revert H. now apply py_str_int_not_word.
  - split.
    + intro H. left. f_equal. now apply py_str_int_inj.
    + intros [[= ->] | H]; [reflexivity | discriminate].
  - split.
    + intros ->. now right.
    + intros [H | [= ->]]; [discriminate | reflexivity].
  - split; [| intros [H | H]; discriminate].
    intro H. exfalso. destruct (Hbracketed (JList xs)) as [rest Hrest].
    destruct Hrest as [Hr | Hr]; rewrite Hr in H; symmetry in H; revert H;
      apply py_str_int_not_bracketed; auto.
  - split; [| intros [H | H]; discriminate].
    intro H. exfalso. destruct (Hbracketed (JDict kvs)) as [rest Hrest].
    destruct Hrest as [Hr | Hr]; rewrite Hr in H; symmetry in H; revert H;
      apply py_str_int_not_bracketed; auto.
Qed.

End MemberList.

Lemma empty_container_str_bracketed : Members.bracketed Members.empty_container_str.
Proof. intros [| b | n | s | xs | kvs]; simpl; eauto. Qed.

(** X22: assert_member_list_contains compares ids as text.  With
    should_exist=True it passes exactly when some member's [user_id] is the
    expected id as an int or as its decimal text; a member without the key,
    or whose [user_id] is null, a bool, a list or a dict, never matches.
    With should_exist=False it passes exactly when the other fails, and what
    it raises is its own AssertionError. *)
Theorem member_list_assertion_compares_text
  (container_str : json -> string) (members_json : list dict) (expected_user_id : Z)
  (Hbracketed : Members.bracketed container_str) :
  (Members.assert_member_list_contains container_str members_json expected_user_id true
   = Ok tt
   <-> exists m, In m members_json
                 /\ (dict_get m "user_id"%string JNull = JNum expected_user_id
                     \/ dict_get m "user_id"%string JNull
                        = JStr (py_str_int expected_user_id)))
  /\ is_ok (Members.assert_member_list_contains
              container_str members_json expected_user_id false)
     = negb (is_ok (Members.assert_member_list_contains
                      container_str members_json expected_user_id true))
  /\ forall should_exist e,
       Members.assert_member_list_contains
         container_str members_json expected_user_id should_exist = Raise e ->
       e = mkExn AssertionError
             [Text "Member list assertion failed for user="%string;
              Shown (JNum expected_user_id);
              Text " should_exist="%string; Shown (JBool should_exist)].
Proof.
  unfold Members.assert_member_list_contains. cbv zeta.
  set (found := existsb _ members_json).
  assert (Hfound : found = true
                   <-> exists m, In m members_json
                         /\ (dict_get m "user_id"%string JNull = JNum expected_user_id
                             \/ dict_get m "user_id"%string JNull
                                = JStr (py_str_int expected_user_id))).
  { unfold found. rewrite existsb_exists. split.
    - intros (m & Hm & Heq). exists m. split; [exact Hm |].
      now apply (py_str_is_id container_str Hbracketed).
    - intros (m & Hm & Heq). exists m. split; [exact Hm |].
      now apply (py_str_is_id container_str Hbracketed). }
  split; [| split].
  - rewrite <- Hfound. destruct found; simpl; split; congruence.
  - destruct found; reflexivity.
  - intros should_exist e. destruct found, should_exist; simpl; congruence.
Qed.

Lemma member_list_assertion_compares_text_witness :
  Members.bracketed Members.empty_container_str
  /\ Members.assert_member_list_contains
       Members.empty_container_str Members.two_members 42 true = Ok tt.
Proof.
  split; [exact empty_container_str_bracketed |].
  apply (proj1 (member_list_assertion_compares_text
                  Members.empty_container_str Members.two_members 42
                  empty_container_str_bracketed)).
  exists [("user_id"%string, JStr "42"); ("nick"%string, JStr "guest1")].
  split; [right; left; reflexivity | right; reflexivity].
Defined.
